(** * Blue Slide Park: the game-loop core of the endless lane runner

    A shallow embedding of the TypeScript game loop (state machine, lane
    input, segment ring, obstacle pool, collision and scoring) together
    with the properties its specification states about it.

    Numbers.  A JavaScript [number] is modelled as an exact rational
    ([Q]): the properties below are statements about the arithmetic the
    code writes down, not about IEEE rounding.  Equality of coordinates
    is therefore [Qeq] ([==]).  Lane indices are integers ([Z]).
    Control flow and comparisons against thresholds read the same in
    binary64; an exact equality between separately accumulated
    quantities does not.  Where a property depends on that, it is
    stated over the reals and the module [Binary64] at the end replays
    the same operations on primitive binary64 numbers.

    Randomness.  [Math.random()] is an oracle: the n-th draw of a session
    is [rand n], and the world counts the draws made so far.

    Object identity.  Every [THREE.Mesh] carries the [id] that Three.js
    assigns from a global counter; [Array.prototype.indexOf] compares
    object references, which the model renders as comparing ids. *)

From Stdlib Require Import QArith Qround Qabs ZArith List Lia Lqa Bool Permutation.
From Stdlib Require PrimFloat FloatOps SpecFloat.
Import ListNotations.
Open Scope Q_scope.

(** ** Data model *)

Inductive GameState := READY | PLAYING | GAME_OVER.

Definition GameState_eqb (a b : GameState) : bool :=
  match a, b with
  | READY, READY | PLAYING, PLAYING | GAME_OVER, GAME_OVER => true
  | _, _ => false
  end.

(** A [THREE.Mesh], reduced to its identity and its [position]. *)
Record Mesh := mkMesh {
  id : nat;
  position_x : Q;
  position_y : Q;
  position_z : Q
}.

(** Text shown by the [.tap-text] element of the overlay. *)
Inductive TapText := TapToStart | GameOverTapToRestart.

(** The DOM elements the loop writes to: the two HUD labels (the floors
    that [updateHud] prints) and the tap overlay. *)
Record Dom := mkDom {
  scoreEl : Z;
  highScoreEl : Z;
  overlayShown : bool;
  overlayText : TapText
}.

(** All module-level variables of the game, plus the two pieces of
    environment the code draws from: the mesh id counter and the number
    of [Math.random()] calls made so far. *)
Record World := mkWorld {
  gameState : GameState;
  score : Q;
  highScore : Q;
  elapsedSinceStart : Q;
  forwardSpeed : Q;
  currentLaneIndex : Z;
  targetLaneX : Q;
  player : option Mesh;
  slideSegments : list Mesh;
  obstacles : list Mesh;
  isDragging : bool;
  dragStartX : Q;
  dragCurrentX : Q;
  lastTime : Q;
  dom : Dom;
  nextId : nat;
  randomCalls : nat
}.

(** ** Constants *)

Definition baseForwardSpeed : Q := 10.
Definition LANE_X_POSITIONS : list Q := [-(3#2); 0; 3#2].
Definition SEGMENT_LENGTH : Q := 20.
Definition SEGMENT_COUNT : nat := 8.
Definition OBSTACLE_CHANCE_PER_SEGMENT : Q := 1#2.
Definition SWIPE_THRESHOLD : Q := 40.
Definition LERP_FACTOR : Q := 10.
Definition playerRadius : Q := 1#2.
Definition obstacleRadius : Q := 6#10.

(** [camera.position.set(0, 3, 8)] in [createScene]; never moved after. *)
Definition camera_position_z : Q := 8.

(** [LANE_X_POSITIONS[i]].  Every read in the program is at an index in
    0..2 (see [clampLane_range] and [laneIndex_of_random_range]); the
    default stands for JavaScript's [undefined] and is never reached. *)
Definition laneX (i : Z) : Q :=
  if (i <? 0)%Z then 0 else nth (Z.to_nat i) LANE_X_POSITIONS 0.

Definition Math_min (a b : Q) : Q := if Qlt_le_dec b a then b else a.

(** ** Field updates *)

Definition set_gameState (v : GameState) (w : World) : World :=
  mkWorld v (score w) (highScore w) (elapsedSinceStart w) (forwardSpeed w)
    (currentLaneIndex w) (targetLaneX w) (player w) (slideSegments w)
    (obstacles w) (isDragging w) (dragStartX w) (dragCurrentX w)
    (lastTime w) (dom w) (nextId w) (randomCalls w).

Definition set_score (v : Q) (w : World) : World :=
  mkWorld (gameState w) v (highScore w) (elapsedSinceStart w) (forwardSpeed w)
    (currentLaneIndex w) (targetLaneX w) (player w) (slideSegments w)
    (obstacles w) (isDragging w) (dragStartX w) (dragCurrentX w)
    (lastTime w) (dom w) (nextId w) (randomCalls w).

Definition set_highScore (v : Q) (w : World) : World :=
  mkWorld (gameState w) (score w) v (elapsedSinceStart w) (forwardSpeed w)
    (currentLaneIndex w) (targetLaneX w) (player w) (slideSegments w)
    (obstacles w) (isDragging w) (dragStartX w) (dragCurrentX w)
    (lastTime w) (dom w) (nextId w) (randomCalls w).

Definition set_elapsedSinceStart (v : Q) (w : World) : World :=
  mkWorld (gameState w) (score w) (highScore w) v (forwardSpeed w)
    (currentLaneIndex w) (targetLaneX w) (player w) (slideSegments w)
    (obstacles w) (isDragging w) (dragStartX w) (dragCurrentX w)
    (lastTime w) (dom w) (nextId w) (randomCalls w).

Definition set_forwardSpeed (v : Q) (w : World) : World :=
  mkWorld (gameState w) (score w) (highScore w) (elapsedSinceStart w) v
    (currentLaneIndex w) (targetLaneX w) (player w) (slideSegments w)
    (obstacles w) (isDragging w) (dragStartX w) (dragCurrentX w)
    (lastTime w) (dom w) (nextId w) (randomCalls w).

Definition set_lane (i : Z) (x : Q) (w : World) : World :=
  mkWorld (gameState w) (score w) (highScore w) (elapsedSinceStart w)
    (forwardSpeed w) i x (player w) (slideSegments w)
    (obstacles w) (isDragging w) (dragStartX w) (dragCurrentX w)
    (lastTime w) (dom w) (nextId w) (randomCalls w).

Definition set_player (v : option Mesh) (w : World) : World :=
  mkWorld (gameState w) (score w) (highScore w) (elapsedSinceStart w)
    (forwardSpeed w) (currentLaneIndex w) (targetLaneX w) v (slideSegments w)
    (obstacles w) (isDragging w) (dragStartX w) (dragCurrentX w)
    (lastTime w) (dom w) (nextId w) (randomCalls w).

Definition set_slideSegments (v : list Mesh) (w : World) : World :=
  mkWorld (gameState w) (score w) (highScore w) (elapsedSinceStart w)
    (forwardSpeed w) (currentLaneIndex w) (targetLaneX w) (player w) v
    (obstacles w) (isDragging w) (dragStartX w) (dragCurrentX w)
    (lastTime w) (dom w) (nextId w) (randomCalls w).

Definition set_obstacles (v : list Mesh) (w : World) : World :=
  mkWorld (gameState w) (score w) (highScore w) (elapsedSinceStart w)
    (forwardSpeed w) (currentLaneIndex w) (targetLaneX w) (player w)
    (slideSegments w) v (isDragging w) (dragStartX w) (dragCurrentX w)
    (lastTime w) (dom w) (nextId w) (randomCalls w).

Definition set_drag (d : bool) (x0 x1 : Q) (w : World) : World :=
  mkWorld (gameState w) (score w) (highScore w) (elapsedSinceStart w)
    (forwardSpeed w) (currentLaneIndex w) (targetLaneX w) (player w)
    (slideSegments w) (obstacles w) d x0 x1
    (lastTime w) (dom w) (nextId w) (randomCalls w).

Definition set_lastTime (v : Q) (w : World) : World :=
  mkWorld (gameState w) (score w) (highScore w) (elapsedSinceStart w)
    (forwardSpeed w) (currentLaneIndex w) (targetLaneX w) (player w)
    (slideSegments w) (obstacles w) (isDragging w) (dragStartX w)
    (dragCurrentX w) v (dom w) (nextId w) (randomCalls w).

Definition set_dom (v : Dom) (w : World) : World :=
  mkWorld (gameState w) (score w) (highScore w) (elapsedSinceStart w)
    (forwardSpeed w) (currentLaneIndex w) (targetLaneX w) (player w)
    (slideSegments w) (obstacles w) (isDragging w) (dragStartX w)
    (dragCurrentX w) (lastTime w) v (nextId w) (randomCalls w).

Definition set_nextId (v : nat) (w : World) : World :=
  mkWorld (gameState w) (score w) (highScore w) (elapsedSinceStart w)
    (forwardSpeed w) (currentLaneIndex w) (targetLaneX w) (player w)
    (slideSegments w) (obstacles w) (isDragging w) (dragStartX w)
    (dragCurrentX w) (lastTime w) (dom w) v (randomCalls w).

Definition set_randomCalls (v : nat) (w : World) : World :=
  mkWorld (gameState w) (score w) (highScore w) (elapsedSinceStart w)
    (forwardSpeed w) (currentLaneIndex w) (targetLaneX w) (player w)
    (slideSegments w) (obstacles w) (isDragging w) (dragStartX w)
    (dragCurrentX w) (lastTime w) (dom w) (nextId w) v.

Definition set_position_x (v : Q) (m : Mesh) : Mesh :=
  mkMesh (id m) v (position_y m) (position_z m).

Definition set_position_z (v : Q) (m : Mesh) : Mesh :=
  mkMesh (id m) (position_x m) (position_y m) v.

(** ** The program *)

Section Game.

(** The n-th value returned by [Math.random()]. *)
Variable rand : nat -> Q.

(** [Math.random()]: reads the next draw and advances the counter. *)
Definition Math_random (w : World) : Q * World :=
  (rand (randomCalls w), set_randomCalls (S (randomCalls w)) w).

(** [new THREE.Mesh(...)] followed by [position.set(x, y, z)]. *)
Definition newMesh (x y z : Q) (w : World) : Mesh * World :=
  (mkMesh (nextId w) x y z, set_nextId (S (nextId w)) w).

Definition updateHud (w : World) : World :=
  set_dom (mkDom (Qfloor (score w)) (Qfloor (highScore w))
                 (overlayShown (dom w)) (overlayText (dom w))) w.

Definition createPlayer (w : World) : World :=
  let (m, w1) := newMesh 0 1 0 w in set_player (Some m) w1.

Definition createSlideSegment (zIndex : nat) (w : World) : Mesh * World :=
  newMesh 0 0 (- inject_Z (Z.of_nat zIndex) * SEGMENT_LENGTH) w.

Definition spawnObstacleOnSegment (segment : Mesh) (w : World) : World :=
  let (r1, w1) := Math_random w in
  if Qlt_le_dec OBSTACLE_CHANCE_PER_SEGMENT r1 then w1
  else
    let (r2, w2) := Math_random w1 in
    let laneIndex := Qfloor (r2 * inject_Z (Z.of_nat (length LANE_X_POSITIONS))) in
    let x := laneX laneIndex in
    let (r3, w3) := Math_random w2 in
    let localZ := r3 * SEGMENT_LENGTH - SEGMENT_LENGTH / 2 in
    let (box, w4) := newMesh x (6#10) (position_z segment + localZ) w3 in
    set_obstacles (obstacles w4 ++ [box]) w4.

(** The [for] loop of [createWorld], from index [i] for [n] rounds. *)
Fixpoint createSegments (n i : nat) (w : World) : World :=
  match n with
  | O => w
  | S n' =>
      let (seg, w1) := createSlideSegment i w in
      let w2 := set_slideSegments (slideSegments w1 ++ [seg]) w1 in
      createSegments n' (S i) (spawnObstacleOnSegment seg w2)
  end.

(** Second half of [createWorld]: the player is created on first use
    and otherwise moved back to (0, 1, 0); the lane is reset to the
    centre and the player put on it. *)
Definition placePlayer (w2 : World) : World :=
  let w3 := match player w2 with
            | None => createPlayer w2
            | Some p => set_player (Some (mkMesh (id p) 0 1 0)) w2
            end in
  let w4 := set_lane 1 (laneX 1) w3 in
  match player w4 with
  | Some p => set_player (Some (set_position_x (targetLaneX w4) p)) w4
  | None => w4
  end.

Definition createWorld (w : World) : World :=
  let w1 := set_obstacles [] (set_slideSegments [] w) in
  let w2 := createSegments SEGMENT_COUNT 0 w1 in
  placePlayer w2.

(** *** Input *)

Definition clampLane (index : Z) : Z :=
  Z.max 0 (Z.min (Z.of_nat (length LANE_X_POSITIONS) - 1) index).

Definition setLane (index : Z) (w : World) : World :=
  let i := clampLane index in set_lane i (laneX i) w.

Definition onPointerDown (clientX : Q) (w : World) : World :=
  set_drag true clientX clientX w.

Definition onPointerMove (clientX : Q) (w : World) : World :=
  if negb (isDragging w) then w
  else set_drag (isDragging w) (dragStartX w) clientX w.

Definition onPointerUp (w : World) : World :=
  if negb (isDragging w) then w
  else
    let deltaX := dragCurrentX w - dragStartX w in
    let w1 :=
      if Qlt_le_dec SWIPE_THRESHOLD deltaX then setLane (currentLaneIndex w + 1) w
      else if Qlt_le_dec deltaX (- SWIPE_THRESHOLD) then setLane (currentLaneIndex w - 1) w
      else w in
    set_drag false (dragStartX w1) (dragCurrentX w1) w1.

(** *** Game state helpers *)

Definition resetGame (w : World) : World :=
  let w1 := set_score 0 w in
  let w2 := set_elapsedSinceStart 0 w1 in
  let w3 := set_forwardSpeed baseForwardSpeed w2 in
  let w4 := set_lane 1 (laneX 1) w3 in
  updateHud (createWorld w4).

Definition startGame (w : World) : World :=
  let w1 := set_gameState PLAYING (resetGame w) in
  set_dom (mkDom (scoreEl (dom w1)) (highScoreEl (dom w1)) false
                 (overlayText (dom w1))) w1.

Definition triggerGameOver (w : World) : World :=
  let w1 := set_gameState GAME_OVER w in
  let w2 := if Qlt_le_dec (highScore w1) (score w1)
            then set_highScore (score w1) w1 else w1 in
  let w3 := updateHud w2 in
  set_dom (mkDom (scoreEl (dom w3)) (highScoreEl (dom w3)) true
                 GameOverTapToRestart) w3.

(** *** Collisions and cleanup *)

Definition distSq (o p : Mesh) : Q :=
  let dx := position_x o - position_x p in
  let dy := position_y o - position_y p in
  let dz := position_z o - position_z p in
  dx * dx + dy * dy + dz * dz.

Definition combined : Q := playerRadius + obstacleRadius.

(** The [for (const o of obstacles)] loop of [checkCollisions].  [None]
    is the early [return] taken after [triggerGameOver()]; otherwise the
    loop ends with the list [toRemove]. *)
Fixpoint scanObstacles (p : Mesh) (obs toRemove : list Mesh)
  : option (list Mesh) :=
  match obs with
  | [] => Some toRemove
  | o :: rest =>
      if Qlt_le_dec (distSq o p) (combined * combined) then None
      else if Qlt_le_dec (camera_position_z + 10) (position_z o)
           then scanObstacles p rest (toRemove ++ [o])
           else scanObstacles p rest toRemove
  end.

(** [obstacles.indexOf(o)]: the first index holding the object [o]. *)
Fixpoint indexOf (o : Mesh) (l : list Mesh) : option nat :=
  match l with
  | [] => None
  | m :: rest =>
      if Nat.eqb (id m) (id o) then Some O
      else option_map S (indexOf o rest)
  end.

(** [l.splice(idx, 1)]. *)
Definition splice1 (idx : nat) (l : list Mesh) : list Mesh :=
  firstn idx l ++ skipn (S idx) l.

Definition removeObstacle (obs : list Mesh) (o : Mesh) : list Mesh :=
  match indexOf o obs with
  | Some idx => splice1 idx obs
  | None => obs
  end.

Definition checkCollisions (w : World) : World :=
  match player w with
  | None => w
  | Some p =>
      match scanObstacles p (obstacles w) [] with
      | None => triggerGameOver w
      | Some toRemove =>
          set_obstacles (fold_left removeObstacle toRemove (obstacles w)) w
      end
  end.

(** *** The per-tick update *)

(** Test of the cleanup loop run when a segment is recycled. *)
Definition nearSegment (seg o : Mesh) : bool :=
  if Qlt_le_dec (Qabs (position_z o - position_z seg)) (SEGMENT_LENGTH * (6#10))
  then true else false.

(** Body of [slideSegments.forEach] for one segment.  The backward
    [splice] loop over [obstacles] keeps, in order, exactly the
    obstacles failing the test, which is [filter]. *)
Definition updateSegment (delta : Q) (seg : Mesh) (w : World) : Mesh * World :=
  let seg1 := set_position_z (position_z seg + forwardSpeed w * delta) seg in
  if Qlt_le_dec (camera_position_z + 5) (position_z seg1 - SEGMENT_LENGTH / 2)
  then
    let seg2 := set_position_z
                  (position_z seg1
                   - SEGMENT_LENGTH * inject_Z (Z.of_nat SEGMENT_COUNT)) seg1 in
    let (r, w1) := Math_random w in
    let seg3 := set_position_x ((r - (1#2)) * 1) seg2 in
    let w2 := set_obstacles
                (filter (fun o => negb (nearSegment seg3 o)) (obstacles w1)) w1 in
    (seg3, spawnObstacleOnSegment seg3 w2)
  else (seg1, w).

Fixpoint updateSegments (delta : Q) (segs : list Mesh) (w : World)
  : list Mesh * World :=
  match segs with
  | [] => ([], w)
  | seg :: rest =>
      let (seg', w1) := updateSegment delta seg w in
      let (rest', w2) := updateSegments delta rest w1 in
      (seg' :: rest', w2)
  end.

(** The lane-axis interpolation step of the player. *)
Definition lerpX (delta target x : Q) : Q :=
  x + (target - x) * Math_min (LERP_FACTOR * delta) 1.

Definition movePlayer (delta : Q) (w : World) : World :=
  match player w with
  | Some p =>
      set_player
        (Some (set_position_x (lerpX delta (targetLaneX w) (position_x p)) p)) w
  | None => w
  end.

Definition moveObstacles (delta : Q) (w : World) : World :=
  set_obstacles
    (map (fun o => set_position_z (position_z o + forwardSpeed w * delta) o)
         (obstacles w)) w.

Definition updateGame (delta : Q) (w : World) : World :=
  let w1 := set_elapsedSinceStart (elapsedSinceStart w + delta) w in
  let w2 := set_forwardSpeed
              (baseForwardSpeed + elapsedSinceStart w1 * (1#2)) w1 in
  let w3 := set_score (score w2 + delta * 10) w2 in
  let w4 := updateHud w3 in
  let w5 := movePlayer delta w4 in
  let (segs, w6) := updateSegments delta (slideSegments w5) w5 in
  let w7 := set_slideSegments segs w6 in
  let w8 := moveObstacles delta w7 in
  checkCollisions w8.

(** *** Main loop and handlers *)

Definition MAX_DELTA : Q := 5#100.

Definition frameDelta (time : Q) (w : World) : Q :=
  Math_min ((time - lastTime w) / 1000) MAX_DELTA.

Definition animate (time : Q) (w : World) : World :=
  let delta := frameDelta time w in
  let w1 := set_lastTime time w in
  match gameState w1 with
  | PLAYING => updateGame delta w1
  | _ => w1
  end.

Definition handleOverlayTap (w : World) : World :=
  match gameState w with
  | READY | GAME_OVER => startGame w
  | PLAYING => w
  end.

(** Module-level initial values, before the init calls run. *)
Definition moduleInit : World :=
  mkWorld READY 0 0 0 baseForwardSpeed 1 (laneX 1) None [] []
          false 0 0 0 (mkDom 0 0 true TapToStart) O O.

(** State after [createScene(); createWorld(); updateHud();]. *)
Definition initialWorld : World := updateHud (createWorld moduleInit).

(** The events the page delivers to the program. *)
Inductive Event :=
| Frame (time : Q)
| PointerDown (clientX : Q)
| PointerMove (clientX : Q)
| PointerUp
| OverlayTap.

Definition handle (e : Event) (w : World) : World :=
  match e with
  | Frame time => animate time w
  | PointerDown clientX => onPointerDown clientX w
  | PointerMove clientX => onPointerMove clientX w
  | PointerUp => onPointerUp w
  | OverlayTap => handleOverlayTap w
  end.

(** [requestAnimationFrame] passes non-decreasing timestamps. *)
Definition admissible (e : Event) (w : World) : Prop :=
  match e with
  | Frame time => lastTime w <= time
  | _ => True
  end.

Inductive reachable : World -> Prop :=
| reach_init : reachable initialWorld
| reach_step e w : reachable w -> admissible e w -> reachable (handle e w).

Definition run (es : list Event) (w : World) : World :=
  fold_left (fun w e => handle e w) es w.

(** The obstacle list and the two environment counters replaced. *)
Definition withPool (obs : list Mesh) (n r : nat) (w : World) : World :=
  mkWorld (gameState w) (score w) (highScore w) (elapsedSinceStart w)
    (forwardSpeed w) (currentLaneIndex w) (targetLaneX w) (player w)
    (slideSegments w) obs (isDragging w) (dragStartX w) (dragCurrentX w)
    (lastTime w) (dom w) n r.

(** Reduce projections of updated worlds without touching arithmetic. *)
Ltac simpl_world :=
  cbn [gameState score highScore elapsedSinceStart forwardSpeed
       currentLaneIndex targetLaneX player slideSegments obstacles
       isDragging dragStartX dragCurrentX lastTime dom nextId randomCalls
       scoreEl highScoreEl overlayShown overlayText
       id position_x position_y position_z
       set_gameState set_score set_highScore set_elapsedSinceStart
       set_forwardSpeed set_lane set_player set_slideSegments set_obstacles
       set_drag set_lastTime set_dom set_nextId set_randomCalls
       set_position_x set_position_z withPool fst snd] in *.

(** ** Frame lemmas for the pool

    Spawning and recycling touch only the obstacle list and the two
    environment counters. *)

Lemma spawnObstacleOnSegment_pool seg w :
  exists obs n r, spawnObstacleOnSegment seg w = withPool obs n r w.
Proof.
  unfold spawnObstacleOnSegment, Math_random, newMesh.
  destruct (Qlt_le_dec _ _); do 3 eexists; unfold withPool; simpl; reflexivity.
Qed.

Lemma updateSegment_pool delta seg w :
  exists obs n r, snd (updateSegment delta seg w) = withPool obs n r w.
Proof.
  unfold updateSegment.
  destruct (Qlt_le_dec _ _).
  - unfold Math_random. cbv beta iota zeta. unfold snd at 1.
    match goal with
    | |- context [spawnObstacleOnSegment ?s ?v] =>
        destruct (spawnObstacleOnSegment_pool s v) as (obs & n & r & E);
        rewrite E
    end.
    do 3 eexists. unfold withPool; simpl; reflexivity.
  - exists (obstacles w), (nextId w), (randomCalls w).
    destruct w; reflexivity.
Qed.

Lemma updateSegments_pool delta segs : forall w,
  exists obs n r, snd (updateSegments delta segs w) = withPool obs n r w.
Proof.
  induction segs as [|seg rest IH]; intros w; simpl.
  - exists (obstacles w), (nextId w), (randomCalls w). destruct w; reflexivity.
  - destruct (updateSegment_pool delta seg w) as (o1 & n1 & r1 & E1).
    destruct (updateSegment delta seg w) as [seg' w1]. simpl in E1. subst w1.
    destruct (IH (withPool o1 n1 r1 w)) as (o2 & n2 & r2 & E2).
    destruct (updateSegments delta rest (withPool o1 n1 r1 w)) as [rest' w2].
    simpl in *. subst w2. exists o2, n2, r2. reflexivity.
Qed.

(** The world just before [checkCollisions()] runs inside [updateGame]. *)
Definition beforeCollisions (delta : Q) (w : World) : World :=
  let w1 := set_elapsedSinceStart (elapsedSinceStart w + delta) w in
  let w2 := set_forwardSpeed
              (baseForwardSpeed + elapsedSinceStart w1 * (1#2)) w1 in
  let w3 := set_score (score w2 + delta * 10) w2 in
  let w4 := updateHud w3 in
  let w5 := movePlayer delta w4 in
  let (segs, w6) := updateSegments delta (slideSegments w5) w5 in
  let w7 := set_slideSegments segs w6 in
  moveObstacles delta w7.

Lemma updateGame_eq delta w :
  updateGame delta w = checkCollisions (beforeCollisions delta w).
Proof.
  unfold updateGame, beforeCollisions.
  destruct (updateSegments delta _ _); reflexivity.
Qed.

Lemma beforeCollisions_fields delta w :
  let w' := beforeCollisions delta w in
  gameState w' = gameState w /\
  score w' = score w + delta * 10 /\
  highScore w' = highScore w /\
  elapsedSinceStart w' = elapsedSinceStart w + delta /\
  forwardSpeed w' = baseForwardSpeed + (elapsedSinceStart w + delta) * (1#2) /\
  currentLaneIndex w' = currentLaneIndex w /\
  targetLaneX w' = targetLaneX w /\
  player w' = player (movePlayer delta w) /\
  lastTime w' = lastTime w /\
  isDragging w' = isDragging w.
Proof.
  unfold beforeCollisions.
  match goal with
  | |- context [updateSegments ?d ?l ?v] =>
      destruct (updateSegments_pool d l v) as (obs & n & r & E);
      destruct (updateSegments d l v) as [segs w6]
  end.
  simpl in E. subst w6. cbv zeta.
  unfold moveObstacles, movePlayer, updateHud, withPool. simpl_world.
  destruct (player w); simpl_world; repeat split; reflexivity.
Qed.

Lemma checkCollisions_cases w :
  checkCollisions w = triggerGameOver w \/
  exists obs, checkCollisions w = set_obstacles obs w.
Proof.
  unfold checkCollisions.
  destruct (player w) as [p|].
  - destruct (scanObstacles p (obstacles w) []); [right; eauto | left; reflexivity].
  - right. exists (obstacles w). destruct w; reflexivity.
Qed.

(** [Math.max] on the two scores. *)
Definition Math_max (a b : Q) : Q := if Qlt_le_dec a b then b else a.

Lemma Math_min_range a : 0 <= a -> 0 <= Math_min a 1 <= 1.
Proof. intros H. unfold Math_min. destruct (Qlt_le_dec 1 a); lra. Qed.

Lemma frameDelta_nonneg time w : lastTime w <= time -> 0 <= frameDelta time w.
Proof.
  intros H. unfold frameDelta, Math_min, MAX_DELTA, Qdiv.
  change (/ 1000) with (1#1000).
  destruct (Qlt_le_dec _ _); lra.
Qed.

Lemma frameDelta_le_max time w : frameDelta time w <= MAX_DELTA.
Proof.
  unfold frameDelta, Math_min. destruct (Qlt_le_dec _ _); lra.
Qed.

Lemma checkCollisions_fields w :
  let w' := checkCollisions w in
  score w' = score w /\ elapsedSinceStart w' = elapsedSinceStart w /\
  forwardSpeed w' = forwardSpeed w /\ player w' = player w /\
  slideSegments w' = slideSegments w /\
  currentLaneIndex w' = currentLaneIndex w /\ targetLaneX w' = targetLaneX w /\
  lastTime w' = lastTime w.
Proof.
  destruct (checkCollisions_cases w) as [E | [obs E]]; cbv zeta; rewrite E.
  - unfold triggerGameOver, updateHud. simpl_world.
    destruct (Qlt_le_dec _ _); simpl_world; repeat split; reflexivity.
  - simpl_world. repeat split; reflexivity.
Qed.

(** ** Lane clamping *)

Lemma clampLane_range index : (0 <= clampLane index <= 2)%Z.
Proof. unfold clampLane. simpl. lia. Qed.

Lemma laneIndex_of_random_range r :
  0 <= r -> r < 1 ->
  (0 <= Qfloor (r * inject_Z (Z.of_nat (length LANE_X_POSITIONS))) <= 2)%Z.
Proof.
  intros H0 H1. simpl length. change (inject_Z (Z.of_nat 3)) with 3.
  split.
  - change 0%Z with (Qfloor 0). apply Qfloor_resp_le. lra.
  - assert (L : (Qfloor (r * 3) < 3)%Z).
    { rewrite Zlt_Qlt. eapply Qle_lt_trans; [apply Qfloor_le|].
      change (inject_Z 3) with 3. lra. }
    lia.
Qed.

(** C4.  Whatever integer index is requested, [setLane] leaves
    [currentLaneIndex] inside [0, laneCount - 1], the target X is the X
    of that lane, and requesting index 5 with the three lanes gives 2. *)
Theorem setLane_clamps_to_valid_lane :
  (forall (i : Z) (w : World),
      (0 <= currentLaneIndex (setLane i w)
         <= Z.of_nat (length LANE_X_POSITIONS) - 1)%Z /\
      targetLaneX (setLane i w) = laneX (currentLaneIndex (setLane i w))) /\
  (forall w : World, currentLaneIndex (setLane 5 w) = 2%Z).
Proof.
  split.
  - intros i w. unfold setLane. simpl_world.
    pose proof (clampLane_range i). simpl. split; [lia | reflexivity].
  - intros w. reflexivity.
Qed.

(** ** Shapes of the handlers *)

Lemma pointer_shape e w :
  (forall time, e <> Frame time) -> e <> OverlayTap ->
  exists i x d a b, handle e w = set_drag d a b (set_lane i x w).
Proof.
  intros Hf Ht. destruct e; simpl.
  - exfalso. eapply Hf; reflexivity.
  - exists (currentLaneIndex w), (targetLaneX w), true, clientX, clientX.
    reflexivity.
  - unfold onPointerMove.
    destruct (negb (isDragging w)).
    + exists (currentLaneIndex w), (targetLaneX w), (isDragging w),
        (dragStartX w), (dragCurrentX w). destruct w; reflexivity.
    + exists (currentLaneIndex w), (targetLaneX w), (isDragging w),
        (dragStartX w), clientX. reflexivity.
  - unfold onPointerUp, setLane. destruct (negb (isDragging w)).
    + exists (currentLaneIndex w), (targetLaneX w), (isDragging w),
        (dragStartX w), (dragCurrentX w). destruct w; reflexivity.
    + destruct (Qlt_le_dec _ _); [|destruct (Qlt_le_dec _ _)]; simpl_world.
      * exists (clampLane (currentLaneIndex w + 1)),
          (laneX (clampLane (currentLaneIndex w + 1))), false,
          (dragStartX w), (dragCurrentX w). reflexivity.
      * exists (clampLane (currentLaneIndex w - 1)),
          (laneX (clampLane (currentLaneIndex w - 1))), false,
          (dragStartX w), (dragCurrentX w). reflexivity.
      * exists (currentLaneIndex w), (targetLaneX w), false,
          (dragStartX w), (dragCurrentX w). reflexivity.
  - exfalso. apply Ht; reflexivity.
Qed.

Lemma animate_playing time w :
  gameState w = PLAYING ->
  handle (Frame time) w =
  checkCollisions (beforeCollisions (frameDelta time w) (set_lastTime time w)).
Proof.
  intros HP. simpl. unfold animate. simpl_world. rewrite HP.
  apply updateGame_eq.
Qed.

Lemma animate_idle time w :
  gameState w <> PLAYING -> handle (Frame time) w = set_lastTime time w.
Proof.
  intros HP. simpl. unfold animate. simpl_world.
  destruct (gameState w); congruence.
Qed.

Lemma handle_stays_playing e w :
  (forall time, e <> Frame time) ->
  gameState w = PLAYING -> gameState (handle e w) = PLAYING.
Proof.
  intros Hf HP. destruct e.
  - exfalso. eapply Hf; reflexivity.
  - destruct (pointer_shape (PointerDown clientX) w) as (i & x & d & a & b & E);
      [discriminate | discriminate | rewrite E; exact HP].
  - destruct (pointer_shape (PointerMove clientX) w) as (i & x & d & a & b & E);
      [discriminate | discriminate | rewrite E; exact HP].
  - destruct (pointer_shape PointerUp w) as (i & x & d & a & b & E);
      [discriminate | discriminate | rewrite E; exact HP].
  - simpl. unfold handleOverlayTap. rewrite HP. exact HP.
Qed.

(** ** The game-over transition *)

Lemma triggerGameOver_fields (w : World) :
  gameState (triggerGameOver w) = GAME_OVER /\
  highScore (triggerGameOver w) = Math_max (highScore w) (score w) /\
  score (triggerGameOver w) = score w /\
  obstacles (triggerGameOver w) = obstacles w.
Proof.
  unfold triggerGameOver, updateHud, Math_max. simpl_world.
  destruct (Qlt_le_dec (highScore w) (score w)); simpl_world;
    repeat split; reflexivity.
Qed.

(** C10.  [triggerGameOver] sets the state to GAME_OVER, sets the high
    score to the larger of high score and score, refreshes the HUD and
    overlay, and leaves every other variable of the world as it was:
    score, elapsed time, forward speed, player, segments, obstacles,
    lane, drag state, clock and counters. *)
Theorem triggerGameOver_changes_only_state_and_highScore (w : World) :
  let w' := triggerGameOver w in
  gameState w' = GAME_OVER /\
  highScore w' = Math_max (highScore w) (score w) /\
  score w' = score w /\
  elapsedSinceStart w' = elapsedSinceStart w /\
  forwardSpeed w' = forwardSpeed w /\
  player w' = player w /\
  slideSegments w' = slideSegments w /\
  obstacles w' = obstacles w /\
  currentLaneIndex w' = currentLaneIndex w /\
  targetLaneX w' = targetLaneX w /\
  isDragging w' = isDragging w /\
  dragStartX w' = dragStartX w /\
  dragCurrentX w' = dragCurrentX w /\
  lastTime w' = lastTime w /\
  nextId w' = nextId w /\
  randomCalls w' = randomCalls w /\
  w' = set_dom (dom w')
         (set_highScore (Math_max (highScore w) (score w))
            (set_gameState GAME_OVER w)).
Proof.
  cbv zeta. unfold triggerGameOver, updateHud, Math_max. simpl_world.
  destruct (Qlt_le_dec (highScore w) (score w)); simpl_world;
    repeat split; reflexivity.
Qed.

Lemma game_over_only_in_frame e w :
  gameState w = PLAYING -> gameState (handle e w) = GAME_OVER ->
  exists time, e = Frame time.
Proof.
  intros HP HG.
  destruct e as [time | x | x | | ]; [exists time; reflexivity | | | | ];
    exfalso;
    match type of HG with
    | gameState (handle ?ev w) = _ =>
        assert (H : gameState (handle ev w) = PLAYING)
          by (apply handle_stays_playing; [discriminate | exact HP])
    end; congruence.
Qed.

Lemma checkCollisions_game_over wb :
  gameState wb = PLAYING -> gameState (checkCollisions wb) = GAME_OVER ->
  checkCollisions wb = triggerGameOver wb.
Proof.
  intros HP HG.
  destruct (checkCollisions_cases wb) as [E | [obs E]]; [exact E|].
  rewrite E in HG. simpl_world. congruence.
Qed.

Lemma gameState_beforeCollisions delta w :
  gameState (beforeCollisions delta w) = gameState w.
Proof. apply (beforeCollisions_fields delta w). Qed.

Lemma game_over_frame time w :
  gameState w = PLAYING -> gameState (handle (Frame time) w) = GAME_OVER ->
  handle (Frame time) w =
  triggerGameOver (beforeCollisions (frameDelta time w) (set_lastTime time w)).
Proof.
  intros HP HG. rewrite (animate_playing time w HP) in HG |- *.
  apply checkCollisions_game_over; [|exact HG].
  rewrite gameState_beforeCollisions. exact HP.
Qed.

(** C7.  Whenever an event takes the game from PLAYING to GAME_OVER, the
    high score afterwards is the maximum of the high score before and
    the score at the transition. *)
Theorem highScore_is_max_at_game_over (e : Event) (w : World) :
  gameState w = PLAYING ->
  gameState (handle e w) = GAME_OVER ->
  highScore (handle e w) = Math_max (highScore w) (score (handle e w)).
Proof.
  intros HP HG.
  destruct (game_over_only_in_frame e w HP HG) as [time ->].
  rewrite (game_over_frame time w HP HG).
  destruct (beforeCollisions_fields (frameDelta time w) (set_lastTime time w))
    as (_ & _ & Fh & _).
  destruct (triggerGameOver_fields
              (beforeCollisions (frameDelta time w) (set_lastTime time w)))
    as (_ & Th & Ts & _).
  rewrite Th, Ts, Fh. reflexivity.
Qed.

(** ** Player positioning *)

Lemma lerpX_between delta target x :
  0 <= delta ->
  (x <= lerpX delta target x <= target \/ target <= lerpX delta target x <= x) /\
  Qabs (target - lerpX delta target x) <= Qabs (target - x).
Proof.
  intros Hd. unfold lerpX, LERP_FACTOR.
  assert (Hf : 0 <= Math_min (10 * delta) 1 <= 1)
    by (apply Math_min_range; lra).
  set (f := Math_min (10 * delta) 1) in *.
  split.
  - destruct (Qlt_le_dec x target); [left | right]; nra.
  - apply Qabs_case; intros; apply Qabs_case; intros; nra.
Qed.


(** ** Score *)

Lemma score_updateGame delta w :
  score (updateGame delta w) = score w + delta * 10.
Proof.
  rewrite updateGame_eq.
  destruct (checkCollisions_fields (beforeCollisions delta w)) as (Es & _).
  destruct (beforeCollisions_fields delta w) as (_ & Es' & _).
  rewrite Es, Es'. reflexivity.
Qed.

Lemma createSegments_pool n : forall i w,
  exists segs obs k r,
    createSegments n i w = set_slideSegments segs (withPool obs k r w).
Proof.
  induction n as [|n IH]; intros i w; simpl.
  - exists (slideSegments w), (obstacles w), (nextId w), (randomCalls w).
    destruct w; reflexivity.
  - unfold createSlideSegment, newMesh.
    match goal with
    | |- context [spawnObstacleOnSegment ?s ?v] =>
        destruct (spawnObstacleOnSegment_pool s v) as (o1 & k1 & r1 & E1);
        rewrite E1
    end.
    match goal with
    | |- context [createSegments n ?j ?v] =>
        destruct (IH j v) as (segs & o2 & k2 & r2 & E2); rewrite E2
    end.
    exists segs, o2, k2, r2. reflexivity.
Qed.

Lemma placePlayer_shape v :
  exists pl k,
    placePlayer v = set_lane 1 (laneX 1) (set_player (Some pl) (set_nextId k v)) /\
    (nextId v <= k)%nat /\
    position_x pl = laneX 1 /\ position_y pl = 1 /\ position_z pl = 0.
Proof.
  unfold placePlayer. cbv zeta.
  destruct (player v) as [p|] eqn:Ep; unfold createPlayer, newMesh; simpl_world.
  - exists (set_position_x (laneX 1) (mkMesh (id p) 0 1 0)), (nextId v).
    split; [destruct v; reflexivity | simpl_world; repeat split; auto].
  - exists (set_position_x (laneX 1) (mkMesh (nextId v) 0 1 0)), (S (nextId v)).
    split; [reflexivity | simpl_world; repeat split; auto].
Qed.

Lemma createWorld_shape w :
  exists pl segs obs k r,
    createWorld w =
      set_lane 1 (laneX 1)
        (set_player (Some pl) (set_slideSegments segs (withPool obs k r w))) /\
    position_x pl = laneX 1 /\ position_y pl = 1 /\ position_z pl = 0.
Proof.
  unfold createWorld. cbv zeta.
  match goal with
  | |- context [createSegments ?n ?j ?v] =>
      destruct (createSegments_pool n j v) as (segs & o & k & r & E); rewrite E
  end.
  match goal with
  | |- context [placePlayer ?v] =>
      destruct (placePlayer_shape v) as (pl & k' & E' & _ & Hpl); rewrite E'
  end.
  exists pl, segs, o, k', r. split; [reflexivity | exact Hpl].
Qed.

Lemma resetGame_fields w :
  let w' := resetGame w in
  gameState w' = gameState w /\ score w' = 0 /\ highScore w' = highScore w /\
  elapsedSinceStart w' = 0 /\ forwardSpeed w' = baseForwardSpeed /\
  currentLaneIndex w' = 1%Z /\ targetLaneX w' = laneX 1 /\
  lastTime w' = lastTime w /\
  exists pl, player w' = Some pl /\
    position_x pl = laneX 1 /\ position_y pl = 1 /\ position_z pl = 0.
Proof.
  cbv zeta. unfold resetGame.
  match goal with
  | |- context [createWorld ?v] =>
      destruct (createWorld_shape v) as (pl & segs & o & k & r & E & Hpl);
      rewrite E
  end.
  unfold updateHud, withPool. simpl_world.
  repeat split; try reflexivity. exists pl. split; [reflexivity | exact Hpl].
Qed.

Lemma startGame_fields w :
  let w' := startGame w in
  gameState w' = PLAYING /\ score w' = 0 /\ highScore w' = highScore w /\
  elapsedSinceStart w' = 0 /\ forwardSpeed w' = baseForwardSpeed /\
  currentLaneIndex w' = 1%Z /\ targetLaneX w' = laneX 1 /\
  lastTime w' = lastTime w /\
  exists pl, player w' = Some pl /\
    position_x pl = laneX 1 /\ position_y pl = 1 /\ position_z pl = 0.
Proof.
  cbv zeta. unfold startGame.
  destruct (resetGame_fields w) as (_ & Es & Eh & Ee & Ef & El & Et & Elt & Hpl).
  generalize dependent (resetGame w). intros v Es Eh Ee Ef El Et Elt Hpl.
  simpl_world. repeat split; assumption.
Qed.

(** C6.  Across a PLAYING frame with a non-decreasing timestamp (and
    across any [updateGame] with a non-negative delta) the score does not
    decrease; across a frame in GAME_OVER it is unchanged; a tap that
    starts or restarts the game leaves the score at 0 and the state
    PLAYING. *)
Theorem score_monotone_frozen_reset :
  (forall delta w, 0 <= delta -> score w <= score (updateGame delta w)) /\
  (forall time w, gameState w = PLAYING -> admissible (Frame time) w ->
                  score w <= score (handle (Frame time) w)) /\
  (forall time w, gameState w = GAME_OVER ->
                  score (handle (Frame time) w) = score w /\
                  gameState (handle (Frame time) w) = GAME_OVER) /\
  (forall w, gameState w = READY \/ gameState w = GAME_OVER ->
             score (handle OverlayTap w) = 0 /\
             gameState (handle OverlayTap w) = PLAYING).
Proof.
  repeat split.
  - intros delta w Hd. rewrite score_updateGame. lra.
  - intros time w HP Ha. simpl in *. unfold animate. simpl_world. rewrite HP.
    rewrite score_updateGame. simpl_world.
    pose proof (frameDelta_nonneg time w Ha). lra.
  - simpl. unfold animate. simpl_world. rewrite H. reflexivity.
  - simpl. unfold animate. simpl_world. rewrite H. exact H.
  - simpl. unfold handleOverlayTap.
    destruct (startGame_fields w) as (_ & Es & _).
    destruct H as [H | H]; rewrite H; exact Es.
  - simpl. unfold handleOverlayTap.
    destruct (startGame_fields w) as (Eg & _).
    destruct H as [H | H]; rewrite H; exact Eg.
Qed.

Lemma initialWorld_fields :
  gameState initialWorld = READY /\ score initialWorld = 0 /\
  elapsedSinceStart initialWorld = 0 /\
  forwardSpeed initialWorld = baseForwardSpeed /\
  exists pl, player initialWorld = Some pl /\
    position_x pl = laneX 1 /\ position_y pl = 1 /\ position_z pl = 0.
Proof.
  unfold initialWorld.
  destruct (createWorld_shape moduleInit) as (pl & segs & o & k & r & E & Hpl).
  rewrite E. unfold updateHud. simpl_world.
  repeat split. exists pl. split; [reflexivity | exact Hpl].
Qed.

(** ** Difficulty ramp *)

Definition speed_law (w : World) : Prop :=
  forwardSpeed w == baseForwardSpeed + (1#2) * elapsedSinceStart w /\
  0 <= elapsedSinceStart w.

Lemma speed_law_updateGame delta w :
  0 <= delta -> speed_law w -> speed_law (updateGame delta w).
Proof.
  intros Hd [Hs He]. unfold speed_law. rewrite updateGame_eq.
  destruct (checkCollisions_fields (beforeCollisions delta w))
    as (_ & Ee & Ef & _).
  destruct (beforeCollisions_fields delta w)
    as (_ & _ & _ & Ee' & Ef' & _).
  rewrite Ee, Ef, Ee', Ef'. split; lra.
Qed.

Lemma speed_law_reachable w : reachable w -> speed_law w.
Proof.
  induction 1 as [| e w Hr IH Ha].
  - destruct initialWorld_fields as (_ & _ & Ee & Ef & _).
    unfold speed_law. rewrite Ee, Ef. unfold baseForwardSpeed. split; lra.
  - destruct e.
    + simpl in *. unfold animate. simpl_world.
      destruct (gameState w).
      * exact IH.
      * apply speed_law_updateGame.
        -- apply (frameDelta_nonneg time w Ha).
        -- exact IH.
      * exact IH.
    + destruct (pointer_shape (PointerDown clientX) w) as (i & x & d & a & b & E);
        [discriminate | discriminate | rewrite E; exact IH].
    + destruct (pointer_shape (PointerMove clientX) w) as (i & x & d & a & b & E);
        [discriminate | discriminate | rewrite E; exact IH].
    + destruct (pointer_shape PointerUp w) as (i & x & d & a & b & E);
        [discriminate | discriminate | rewrite E; exact IH].
    + simpl. unfold handleOverlayTap.
      destruct (startGame_fields w) as (_ & _ & _ & Ee & Ef & _).
      destruct (gameState w); try exact IH;
        unfold speed_law; rewrite Ee, Ef; unfold baseForwardSpeed; split; lra.
Qed.

(** The running sum that the frames of a game build up: [e] grows by
    the clamped delta of each frame, [last] being the timestamp of the
    frame before. *)
Fixpoint elapsedAfter (e last : Q) (times : list Q) : Q :=
  match times with
  | [] => e
  | time :: rest =>
      elapsedAfter (e + Math_min ((time - last) / 1000) MAX_DELTA) time rest
  end.

Lemma clock_frame time w :
  gameState w = PLAYING ->
  elapsedSinceStart (handle (Frame time) w) =
    elapsedSinceStart w + frameDelta time w /\
  forwardSpeed (handle (Frame time) w) =
    baseForwardSpeed + (elapsedSinceStart w + frameDelta time w) * (1#2) /\
  lastTime (handle (Frame time) w) = time.
Proof.
  intros HP. rewrite (animate_playing time w HP).
  destruct (checkCollisions_fields (beforeCollisions (frameDelta time w)
                                      (set_lastTime time w)))
    as (_ & Ee & Ef & _ & _ & _ & _ & El).
  destruct (beforeCollisions_fields (frameDelta time w) (set_lastTime time w))
    as (_ & _ & _ & Ee' & Ef' & _ & _ & _ & El' & _).
  rewrite Ee, Ef, El, Ee', Ef', El'. simpl_world. repeat split; reflexivity.
Qed.

Lemma frames_keep_idle times : forall w,
  gameState w <> PLAYING ->
  gameState (run (map Frame times) w) = gameState w.
Proof.
  induction times as [|time rest IH]; intros w HP; [reflexivity|].
  change (run (map Frame (time :: rest)) w)
    with (run (map Frame rest) (handle (Frame time) w)).
  rewrite (animate_idle time w HP).
  rewrite IH by (simpl_world; exact HP). reflexivity.
Qed.

Lemma clock_frames times : forall w,
  gameState (run (map Frame times) w) = PLAYING ->
  elapsedSinceStart (run (map Frame times) w) =
  elapsedAfter (elapsedSinceStart w) (lastTime w) times.
Proof.
  induction times as [|time rest IH]; intros w HP; [reflexivity|].
  change (run (map Frame (time :: rest)) w)
    with (run (map Frame rest) (handle (Frame time) w)) in *.
  assert (Hw : gameState w = PLAYING).
  { destruct (gameState w) eqn:Eg; try reflexivity; exfalso;
      rewrite (animate_idle time w) in HP by congruence;
      rewrite frames_keep_idle in HP by (simpl_world; congruence);
      simpl_world; congruence. }
  rewrite (IH _ HP).
  destruct (clock_frame time w Hw) as (Ee & _ & El). rewrite Ee, El.
  reflexivity.
Qed.

(** C5.  In every reachable state the forward speed is the base speed
    plus 0.5 times the elapsed survival time, hence at least the base
    speed.  The elapsed time is what the PLAYING frames accumulate: each
    one adds its clamped delta and recomputes the speed from the sum,
    so over any run of frames that ends PLAYING the elapsed time is the
    running sum of the deltas, and with a non-decreasing timestamp
    neither the elapsed time nor the speed goes down.  A tap that
    starts or restarts the game puts the elapsed time back to 0 and the
    speed back to the base speed. *)
Theorem forwardSpeed_is_linear_ramp (w : World) :
  reachable w ->
  forwardSpeed w == baseForwardSpeed + (1#2) * elapsedSinceStart w /\
  baseForwardSpeed <= forwardSpeed w /\
  (forall time, gameState w = PLAYING -> admissible (Frame time) w ->
     elapsedSinceStart w <= elapsedSinceStart (handle (Frame time) w) /\
     forwardSpeed w <= forwardSpeed (handle (Frame time) w) /\
     forwardSpeed (handle (Frame time) w) ==
       baseForwardSpeed + (1#2) * elapsedSinceStart (handle (Frame time) w)) /\
  (forall time, gameState w = PLAYING ->
     elapsedSinceStart (handle (Frame time) w) =
       elapsedSinceStart w + frameDelta time w /\
     forwardSpeed (handle (Frame time) w) =
       baseForwardSpeed + (elapsedSinceStart w + frameDelta time w) * (1#2)) /\
  (forall times, gameState (run (map Frame times) w) = PLAYING ->
     elapsedSinceStart (run (map Frame times) w) =
       elapsedAfter (elapsedSinceStart w) (lastTime w) times) /\
  (gameState w <> PLAYING ->
     elapsedSinceStart (handle OverlayTap w) = 0 /\
     forwardSpeed (handle OverlayTap w) = baseForwardSpeed).
Proof.
  intros Hr. destruct (speed_law_reachable w Hr) as [Hs He].
  split; [exact Hs|]. split; [lra|]. split; [|split; [|split]].
  - intros time HP Ha.
    destruct (clock_frame time w HP) as (Ee & Ef & _). rewrite Ee, Ef.
    pose proof (frameDelta_nonneg time w Ha).
    unfold baseForwardSpeed in *. repeat split; lra.
  - intros time HP. destruct (clock_frame time w HP) as (Ee & Ef & _).
    split; assumption.
  - intros times HP. apply clock_frames. exact HP.
  - intros HP. simpl handle. unfold handleOverlayTap.
    destruct (startGame_fields w) as (_ & _ & _ & Ee & Ef & _).
    destruct (gameState w); try congruence; split; assumption.
Qed.

(** ** The segment ring *)

(** What one tick does to the z of a segment, given the distance
    [d = forwardSpeed * delta] travelled in that tick. *)
Definition advanceZ (d z : Q) : Q :=
  let z1 := z + d in
  if Qlt_le_dec (camera_position_z + 5) (z1 - SEGMENT_LENGTH / 2)
  then z1 - SEGMENT_LENGTH * inject_Z (Z.of_nat SEGMENT_COUNT)
  else z1.

(** The slots of the ring, counted from the segment nearest the camera. *)
Definition slots : list Z := [0; 1; 2; 3; 4; 5; 6; 7]%Z.

(** Ring invariant on the z positions [zs] of [slideSegments]: for
    some base [b] and rotation [r], the segment of index [i] sits at
    [b - 20 * ((i + r) mod 8)].  The eight segments then occupy, each
    exactly one, the eight places [b, b - 20, ..., b - 140]. *)
Definition ring_ok (zs : list Q) : Prop :=
  exists (b : Q) (r : Z),
    In r slots /\
    Forall2 (fun z i => z == b - inject_Z ((i + r) mod 8) * SEGMENT_LENGTH)
            zs slots.

(** Slot renumbering when the [j] nearest segments are recycled. *)
Definition shift (j k : Z) : Z :=
  if (k <? j)%Z then (k + 8 - j)%Z else (k - j)%Z.

Lemma updateSegment_z delta seg w :
  position_z (fst (updateSegment delta seg w)) =
  advanceZ (forwardSpeed w * delta) (position_z seg).
Proof.
  unfold updateSegment, advanceZ. simpl_world.
  destruct (Qlt_le_dec _ _); reflexivity.
Qed.

Lemma updateSegments_z delta segs : forall w,
  map position_z (fst (updateSegments delta segs w)) =
  map (advanceZ (forwardSpeed w * delta)) (map position_z segs).
Proof.
  induction segs as [|seg rest IH]; intros w; simpl; [reflexivity|].
  pose proof (updateSegment_z delta seg w) as Hz.
  destruct (updateSegment_pool delta seg w) as (o & n & r & E).
  destruct (updateSegment delta seg w) as [seg' w1]. simpl in Hz, E. subst w1.
  specialize (IH (withPool o n r w)).
  destruct (updateSegments delta rest (withPool o n r w)) as [rest' w2].
  simpl in *. rewrite Hz, IH. reflexivity.
Qed.

Lemma slideSegments_updateGame delta w :
  map position_z (slideSegments (updateGame delta w)) =
  map (advanceZ ((baseForwardSpeed + (elapsedSinceStart w + delta) * (1#2)) * delta))
      (map position_z (slideSegments w)).
Proof.
  rewrite updateGame_eq.
  destruct (checkCollisions_fields (beforeCollisions delta w))
    as (_ & _ & _ & _ & Es & _).
  rewrite Es. unfold beforeCollisions.
  match goal with
  | |- context [updateSegments ?d ?l ?v] =>
      pose proof (updateSegments_z d l v) as Hz;
      destruct (updateSegments d l v) as [segs w6]
  end.
  unfold moveObstacles, movePlayer, updateHud in *. simpl_world.
  destruct (player w); simpl_world; rewrite Hz; reflexivity.
Qed.

Lemma Forall2_map_left {A B A'} (R : A -> B -> Prop) (R' : A' -> B -> Prop)
      (f : A -> A') (l : list A) (m : list B) :
  (forall a b, In b m -> R a b -> R' (f a) b) ->
  Forall2 R l m -> Forall2 R' (map f l) m.
Proof.
  intros H F. induction F as [|a b l m Hab F IH]; simpl; constructor.
  - apply H; [left; reflexivity | exact Hab].
  - apply IH. intros a' b' Hin. apply H. right; exact Hin.
Qed.

Lemma rot_in_slots i r : In i slots -> In r slots -> In ((i + r) mod 8)%Z slots.
Proof.
  unfold slots. simpl. intros Hi Hr.
  assert (0 <= (i + r) mod 8 < 8)%Z by (apply Z.mod_pos_bound; lia).
  lia.
Qed.

(** Recycling the [j] nearest segments turns rotation [r] into
    [(r - j) mod 8]. *)
Lemma shift_rot i r j :
  In i slots -> In r slots -> In j [0; 1; 2; 3; 4; 5; 6; 7; 8]%Z ->
  shift j ((i + r) mod 8) = ((i + (r - j) mod 8) mod 8)%Z.
Proof.
  unfold slots. simpl. intros Hi Hr Hj.
  repeat (destruct Hi as [<- | Hi]); try contradiction;
    repeat (destruct Hr as [<- | Hr]); try contradiction;
      repeat (destruct Hj as [<- | Hj]); try contradiction; reflexivity.
Qed.

(** Close the case where exactly the slots below [j] are past the line. *)
Ltac pick j :=
  exists j; split; [simpl; tauto |];
  let k := fresh "k" in let Hk := fresh "Hk" in
  intros k Hk; unfold slots in Hk; simpl in Hk;
  repeat (destruct Hk as [<- | Hk]); try contradiction;
  unfold inject_Z; split; intros; first [lia | lra].

(** The segments past the recycle line are the [j] nearest ones. *)
Lemma recycled_prefix (x : Q) :
  exists j, In j [0; 1; 2; 3; 4; 5; 6; 7; 8]%Z /\
    forall k, In k slots ->
      ((k < j)%Z -> 23 < x - inject_Z k * 20) /\
      ((j <= k)%Z -> x - inject_Z k * 20 <= 23).
Proof.
  destruct (Qlt_le_dec 23 x); [|pick 0%Z].
  destruct (Qlt_le_dec 23 (x - 20)); [|pick 1%Z].
  destruct (Qlt_le_dec 23 (x - 40)); [|pick 2%Z].
  destruct (Qlt_le_dec 23 (x - 60)); [|pick 3%Z].
  destruct (Qlt_le_dec 23 (x - 80)); [|pick 4%Z].
  destruct (Qlt_le_dec 23 (x - 100)); [|pick 5%Z].
  destruct (Qlt_le_dec 23 (x - 120)); [|pick 6%Z].
  destruct (Qlt_le_dec 23 (x - 140)); [|pick 7%Z].
  pick 8%Z.
Qed.

Lemma advanceZ_slot b d j k z :
  In j [0; 1; 2; 3; 4; 5; 6; 7; 8]%Z -> In k slots ->
  ((k < j)%Z -> 23 < (b + d) - inject_Z k * 20) ->
  ((j <= k)%Z -> (b + d) - inject_Z k * 20 <= 23) ->
  z == b - inject_Z k * SEGMENT_LENGTH ->
  advanceZ d z == (b + d - inject_Z j * 20) - inject_Z (shift j k) * SEGMENT_LENGTH.
Proof.
  intros Hj Hk Hlt Hge Hz.
  unfold advanceZ, camera_position_z, SEGMENT_LENGTH, SEGMENT_COUNT, Qdiv in *.
  change (/ 2) with (1#2). change (inject_Z (Z.of_nat 8)) with 8.
  unfold shift.
  destruct (Z.ltb_spec k j) as [L | L].
  - specialize (Hlt L). clear Hge.
    unfold Z.sub. rewrite !inject_Z_plus, inject_Z_opp.
    change (inject_Z 8) with 8.
    destruct (Qlt_le_dec _ _); lra.
  - specialize (Hge L). clear Hlt.
    unfold Z.sub. rewrite inject_Z_plus, inject_Z_opp.
    destruct (Qlt_le_dec _ _); lra.
Qed.

Lemma ring_ok_advance d zs : ring_ok zs -> ring_ok (map (advanceZ d) zs).
Proof.
  intros (b & r & Hr & HF).
  destruct (recycled_prefix (b + d)) as (j & Hj & Hth).
  exists (b + d - inject_Z j * 20), ((r - j) mod 8)%Z. split.
  - unfold slots in *. simpl in *.
    assert (0 <= (r - j) mod 8 < 8)%Z by (apply Z.mod_pos_bound; lia). lia.
  - eapply Forall2_map_left; [|exact HF].
    intros z i Hi Hz. simpl in Hz.
    assert (Hk : In ((i + r) mod 8)%Z slots) by (apply rot_in_slots; assumption).
    destruct (Hth _ Hk) as [Hlt Hge].
    rewrite <- (shift_rot i r j Hi Hr Hj).
    apply advanceZ_slot; assumption.
Qed.

Lemma slideSegments_spawn seg w :
  slideSegments (spawnObstacleOnSegment seg w) = slideSegments w.
Proof.
  destruct (spawnObstacleOnSegment_pool seg w) as (o & n & r & E).
  rewrite E. reflexivity.
Qed.

Lemma createSegments_z n : forall i w,
  map position_z (slideSegments (createSegments n i w)) =
  map position_z (slideSegments w) ++
  map (fun j => - inject_Z (Z.of_nat j) * SEGMENT_LENGTH) (seq i n).
Proof.
  induction n as [|n IH]; intros i w; simpl.
  - rewrite app_nil_r. reflexivity.
  - unfold createSlideSegment, newMesh. rewrite IH, slideSegments_spawn.
    simpl_world. rewrite map_app, <- app_assoc. reflexivity.
Qed.

Lemma slideSegments_placePlayer v :
  slideSegments (placePlayer v) = slideSegments v.
Proof.
  destruct (placePlayer_shape v) as (pl & k' & E' & _). rewrite E'. reflexivity.
Qed.

Lemma slideSegments_createWorld w :
  map position_z (slideSegments (createWorld w)) =
  map (fun j => - inject_Z (Z.of_nat j) * SEGMENT_LENGTH) (seq 0 SEGMENT_COUNT).
Proof.
  unfold createWorld. cbv zeta.
  rewrite slideSegments_placePlayer, createSegments_z. reflexivity.
Qed.

Lemma ring_ok_initial :
  ring_ok (map (fun j => - inject_Z (Z.of_nat j) * SEGMENT_LENGTH)
               (seq 0 SEGMENT_COUNT)).
Proof.
  exists 0, 0%Z. split; [left; reflexivity|].
  unfold slots, SEGMENT_COUNT, SEGMENT_LENGTH. simpl.
  repeat constructor; reflexivity.
Qed.

Lemma ring_ok_createWorld w :
  ring_ok (map position_z (slideSegments (createWorld w))).
Proof. rewrite slideSegments_createWorld. apply ring_ok_initial. Qed.

Lemma ring_ok_updateGame delta w :
  ring_ok (map position_z (slideSegments w)) ->
  ring_ok (map position_z (slideSegments (updateGame delta w))).
Proof.
  intros H. rewrite slideSegments_updateGame. apply ring_ok_advance. exact H.
Qed.

(** [startGame] is [createWorld] run between two field updates. *)
Definition beforeCreate (w : World) : World :=
  set_lane 1 (laneX 1)
    (set_forwardSpeed baseForwardSpeed
       (set_elapsedSinceStart 0 (set_score 0 w))).

Definition afterCreate (v : World) : World :=
  let w1 := set_gameState PLAYING (updateHud v) in
  set_dom (mkDom (scoreEl (dom w1)) (highScoreEl (dom w1)) false
                 (overlayText (dom w1))) w1.

Lemma startGame_split w :
  startGame w = afterCreate (createWorld (beforeCreate w)).
Proof. reflexivity. Qed.

Lemma afterCreate_pool v :
  slideSegments (afterCreate v) = slideSegments v /\
  obstacles (afterCreate v) = obstacles v /\
  nextId (afterCreate v) = nextId v /\
  player (afterCreate v) = player v.
Proof. repeat split; reflexivity. Qed.

Lemma updateHud_pool v :
  slideSegments (updateHud v) = slideSegments v /\
  obstacles (updateHud v) = obstacles v /\
  nextId (updateHud v) = nextId v /\
  player (updateHud v) = player v.
Proof. repeat split; reflexivity. Qed.

Lemma slideSegments_startGame w :
  slideSegments (startGame w) = slideSegments (createWorld (beforeCreate w)).
Proof.
  rewrite startGame_split.
  destruct (afterCreate_pool (createWorld (beforeCreate w))) as (E & _).
  exact E.
Qed.

Lemma slideSegments_initialWorld :
  slideSegments initialWorld = slideSegments (createWorld moduleInit).
Proof.
  unfold initialWorld.
  destruct (updateHud_pool (createWorld moduleInit)) as (E & _). exact E.
Qed.

Lemma ring_ok_reachable w :
  reachable w -> ring_ok (map position_z (slideSegments w)).
Proof.
  induction 1 as [| e w Hr IH Ha].
  - rewrite slideSegments_initialWorld. apply ring_ok_createWorld.
  - destruct e.
    + simpl. unfold animate. simpl_world.
      destruct (gameState w); try exact IH.
      apply ring_ok_updateGame. exact IH.
    + destruct (pointer_shape (PointerDown clientX) w) as (i & x & d & a & b & E);
        [discriminate | discriminate | rewrite E; exact IH].
    + destruct (pointer_shape (PointerMove clientX) w) as (i & x & d & a & b & E);
        [discriminate | discriminate | rewrite E; exact IH].
    + destruct (pointer_shape PointerUp w) as (i & x & d & a & b & E);
        [discriminate | discriminate | rewrite E; exact IH].
    + simpl. unfold handleOverlayTap.
      destruct (gameState w); try exact IH;
        rewrite slideSegments_startGame; apply ring_ok_createWorld.
Qed.

(** What the invariant means for the positions: there are eight of
    them; any two segments of indices [i] and [j] are [20 * (j - i)]
    apart up to a multiple of the ring length 160; two different
    segments never share a position (no overlap); and every one of the
    eight places [b - 20 * k] is taken (no gap). *)
Definition ring_spaced (zs : list Q) : Prop :=
  length zs = SEGMENT_COUNT /\
  (forall i j, (i < 8)%nat -> (j < 8)%nat ->
     exists m : Z,
       nth i zs 0 - nth j zs 0 ==
       inject_Z (Z.of_nat j - Z.of_nat i) * SEGMENT_LENGTH
       + inject_Z m * (SEGMENT_LENGTH * inject_Z (Z.of_nat SEGMENT_COUNT))) /\
  (forall i j, (i < j)%nat -> (j < 8)%nat -> ~ nth i zs 0 == nth j zs 0) /\
  (exists b, forall k, In k slots ->
     exists i, (i < 8)%nat /\ nth i zs 0 == b - inject_Z k * SEGMENT_LENGTH).

Lemma ring_ok_nth zs b r :
  Forall2 (fun z i => z == b - inject_Z ((i + r) mod 8) * SEGMENT_LENGTH)
          zs slots ->
  length zs = SEGMENT_COUNT /\
  forall i, (i < 8)%nat ->
    nth i zs 0 == b - inject_Z ((Z.of_nat i + r) mod 8) * SEGMENT_LENGTH.
Proof.
  intros HF. unfold slots in HF.
  repeat match goal with
         | H : Forall2 _ _ (_ :: _) |- _ => inversion H; clear H; subst
         | H : Forall2 _ _ [] |- _ => inversion H; clear H; subst
         end.
  split; [reflexivity|].
  intros i Hi.
  do 8 (destruct i as [|i]; [simpl; assumption|]). lia.
Qed.

Lemma inject_Z_mod8 (a : Z) :
  inject_Z (a mod 8) == inject_Z a - 8 * inject_Z (a / 8).
Proof.
  rewrite (Z.mod_eq a 8) by lia. unfold Z.sub.
  rewrite inject_Z_plus, inject_Z_opp, inject_Z_mult.
  change (inject_Z 8) with 8. lra.
Qed.

Lemma ring_ok_meaning zs : ring_ok zs -> ring_spaced zs.
Proof.
  intros (b & r & Hr & HF).
  destruct (ring_ok_nth zs b r HF) as [Hlen Hnth].
  assert (Hr' : (0 <= r < 8)%Z) by (unfold slots in Hr; simpl in Hr; lia).
  unfold ring_spaced. split; [exact Hlen|]. split; [|split].
  - intros i j Hi Hj.
    exists ((Z.of_nat i + r) / 8 - (Z.of_nat j + r) / 8)%Z.
    rewrite (Hnth i Hi), (Hnth j Hj), !inject_Z_mod8.
    unfold Z.sub. rewrite !inject_Z_plus, !inject_Z_opp.
    unfold SEGMENT_LENGTH, SEGMENT_COUNT.
    change (inject_Z (Z.of_nat 8)) with 8. lra.
  - intros i j Hij Hj Heq.
    rewrite (Hnth i ltac:(lia)), (Hnth j Hj) in Heq.
    unfold SEGMENT_LENGTH in Heq.
    assert (Hq : inject_Z ((Z.of_nat i + r) mod 8) ==
                 inject_Z ((Z.of_nat j + r) mod 8)) by lra.
    apply -> inject_Z_injective in Hq.
    revert Hq. Z.div_mod_to_equations. lia.
  - exists b. intros k Hk.
    assert (Hk' : (0 <= k < 8)%Z) by (unfold slots in Hk; simpl in Hk; lia).
    exists (Z.to_nat ((k - r) mod 8)).
    assert (Hm : (0 <= (k - r) mod 8 < 8)%Z) by (apply Z.mod_pos_bound; lia).
    assert (Hi : (Z.to_nat ((k - r) mod 8) < 8)%nat) by lia.
    split; [exact Hi|].
    rewrite (Hnth _ Hi), Z2Nat.id by lia.
    assert (E : (((k - r) mod 8 + r) mod 8 = k)%Z).
    { clear - Hk' Hr'. Z.div_mod_to_equations. lia. }
    rewrite E. reflexivity.
Qed.

Lemma advanceZ_cases d z :
  advanceZ d z = z + d \/
  advanceZ d z = z + d - SEGMENT_LENGTH * inject_Z (Z.of_nat SEGMENT_COUNT).
Proof.
  unfold advanceZ. cbv zeta. destruct (Qlt_le_dec _ _); [right | left]; reflexivity.
Qed.


(** ** The obstacle pool *)

(** Obstacles are distinct objects, all allocated before [n]. *)
Definition pool_ok (obs : list Mesh) (n : nat) : Prop :=
  NoDup (map id obs) /\ Forall (fun o => (id o < n)%nat) obs.

Lemma pool_ok_weaken obs n n' : (n <= n')%nat -> pool_ok obs n -> pool_ok obs n'.
Proof.
  intros Hn [Hd Hf]. split; [exact Hd|].
  eapply Forall_impl; [|exact Hf]. simpl. intros; lia.
Qed.

Lemma pool_ok_push obs n x y z :
  pool_ok obs n -> pool_ok (obs ++ [mkMesh n x y z]) (S n).
Proof.
  intros [Hd Hf]. split.
  - rewrite map_app. simpl. apply NoDup_app.
    + exact Hd.
    + constructor; [intros [] | constructor].
    + intros a Ha [<- | []]. apply in_map_iff in Ha.
      destruct Ha as (o & Ho & Hin).
      rewrite Forall_forall in Hf. specialize (Hf o Hin). lia.
  - apply Forall_app. split.
    + eapply Forall_impl; [|exact Hf]. simpl. intros; lia.
    + constructor; [simpl; lia | constructor].
Qed.

Lemma NoDup_map_filter {A B} (f : A -> B) (g : A -> bool) l :
  NoDup (map f l) -> NoDup (map f (filter g l)).
Proof.
  induction l as [|a l IH]; simpl; intros H; [constructor|].
  inversion H as [|? ? Hn Hd]; subst.
  destruct (g a); simpl; [constructor|]; auto.
  intros Hin. apply Hn. apply in_map_iff in Hin. destruct Hin as (x & Hx & Hin).
  apply filter_In in Hin. apply in_map_iff. exists x. tauto.
Qed.

Lemma pool_ok_filter g obs n : pool_ok obs n -> pool_ok (filter g obs) n.
Proof.
  intros [Hd Hf]. split.
  - apply NoDup_map_filter. exact Hd.
  - rewrite Forall_forall in *. intros o Ho. apply filter_In in Ho.
    apply Hf. tauto.
Qed.

Lemma pool_ok_move (f : Mesh -> Mesh) obs n :
  (forall o, id (f o) = id o) -> pool_ok obs n -> pool_ok (map f obs) n.
Proof.
  intros Hid [Hd Hf]. split.
  - rewrite map_map. erewrite map_ext; [exact Hd|]. intros; apply Hid.
  - rewrite Forall_forall in *. intros o Ho. apply in_map_iff in Ho.
    destruct Ho as (o' & <- & Ho'). rewrite Hid. apply Hf. exact Ho'.
Qed.

Lemma pool_ok_spawn seg w :
  pool_ok (obstacles w) (nextId w) ->
  pool_ok (obstacles (spawnObstacleOnSegment seg w))
          (nextId (spawnObstacleOnSegment seg w)).
Proof.
  intros H. unfold spawnObstacleOnSegment, Math_random, newMesh.
  destruct (Qlt_le_dec _ _); simpl_world; [exact H|].
  apply pool_ok_push. exact H.
Qed.

Lemma pool_ok_updateSegment delta seg w :
  pool_ok (obstacles w) (nextId w) ->
  pool_ok (obstacles (snd (updateSegment delta seg w)))
          (nextId (snd (updateSegment delta seg w))).
Proof.
  intros H. unfold updateSegment, Math_random.
  destruct (Qlt_le_dec _ _); cbv beta iota zeta; unfold snd; [|exact H].
  apply pool_ok_spawn. simpl_world. apply pool_ok_filter. exact H.
Qed.

Lemma pool_ok_updateSegments delta segs : forall w,
  pool_ok (obstacles w) (nextId w) ->
  pool_ok (obstacles (snd (updateSegments delta segs w)))
          (nextId (snd (updateSegments delta segs w))).
Proof.
  induction segs as [|seg rest IH]; intros w H; simpl; [exact H|].
  pose proof (pool_ok_updateSegment delta seg w H) as H1.
  destruct (updateSegment delta seg w) as [seg' w1]. simpl in H1.
  specialize (IH w1 H1).
  destruct (updateSegments delta rest w1) as [rest' w2]. exact IH.
Qed.

Lemma pool_ok_createSegments n : forall i w,
  pool_ok (obstacles w) (nextId w) ->
  pool_ok (obstacles (createSegments n i w)) (nextId (createSegments n i w)).
Proof.
  induction n as [|n IH]; intros i w H; simpl; [exact H|].
  unfold createSlideSegment, newMesh. apply IH. apply pool_ok_spawn.
  simpl_world. eapply pool_ok_weaken; [|exact H]. lia.
Qed.

Lemma pool_ok_placePlayer v :
  pool_ok (obstacles v) (nextId v) ->
  pool_ok (obstacles (placePlayer v)) (nextId (placePlayer v)).
Proof.
  intros H. destruct (placePlayer_shape v) as (pl & k & E & Hk & _).
  rewrite E. simpl_world. eapply pool_ok_weaken; eassumption.
Qed.

Lemma pool_ok_createWorld w :
  pool_ok (obstacles (createWorld w)) (nextId (createWorld w)).
Proof.
  unfold createWorld. cbv zeta.
  apply pool_ok_placePlayer, pool_ok_createSegments.
  simpl_world. split; constructor.
Qed.

(** *** Removal by [indexOf] and [splice] *)

Definition far (o : Mesh) : bool :=
  if Qlt_le_dec (camera_position_z + 10) (position_z o) then true else false.

Definition hits (p o : Mesh) : bool :=
  if Qlt_le_dec (distSq o p) (combined * combined) then true else false.

Lemma scanObstacles_Some p obs : forall acc tr,
  scanObstacles p obs acc = Some tr ->
  tr = acc ++ filter far obs /\ forallb (fun o => negb (hits p o)) obs = true.
Proof.
  induction obs as [|o rest IH]; intros acc tr H; simpl in *.
  - inversion H. rewrite app_nil_r. split; reflexivity.
  - unfold far at 1, hits at 1.
    destruct (Qlt_le_dec (distSq o p) _); [discriminate|].
    destruct (Qlt_le_dec (camera_position_z + 10) _);
      apply IH in H; destruct H as [-> Hh]; simpl;
      rewrite <- ?app_assoc; split; auto.
Qed.

Lemma scanObstacles_None p obs : forall acc,
  scanObstacles p obs acc = None <-> existsb (hits p) obs = true.
Proof.
  induction obs as [|o rest IH]; intros acc; simpl.
  - split; discriminate.
  - unfold hits at 1. destruct (Qlt_le_dec (distSq o p) _); simpl.
    + split; reflexivity.
    + destruct (Qlt_le_dec (camera_position_z + 10) _); apply IH.
Qed.

Lemma filter_other_ids (o : Mesh) rest :
  ~ In (id o) (map id rest) ->
  filter (fun m => negb (Nat.eqb (id m) (id o))) rest = rest.
Proof.
  induction rest as [|m rest IH]; simpl; intros Hn; [reflexivity|].
  destruct (Nat.eqb (id m) (id o)) eqn:E; simpl.
  - exfalso. apply Hn. left. apply Nat.eqb_eq. exact E.
  - f_equal. apply IH. intros Hin. apply Hn. right. exact Hin.
Qed.

Lemma removeObstacle_filter obs o :
  NoDup (map id obs) ->
  removeObstacle obs o = filter (fun m => negb (Nat.eqb (id m) (id o))) obs.
Proof.
  unfold removeObstacle.
  induction obs as [|m rest IH]; simpl; intros Hd; [reflexivity|].
  inversion Hd as [|? ? Hn Hd']; subst.
  destruct (Nat.eqb (id m) (id o)) eqn:E; simpl.
  - apply Nat.eqb_eq in E. rewrite E in Hn.
    unfold splice1. simpl. symmetry. apply filter_other_ids. exact Hn.
  - specialize (IH Hd').
    destruct (indexOf o rest) as [idx|]; simpl.
    + unfold splice1 in *. simpl. f_equal. exact IH.
    + f_equal. exact IH.
Qed.

Lemma removeAll_filter tr : forall obs,
  NoDup (map id obs) ->
  fold_left removeObstacle tr obs =
  filter (fun m => negb (existsb (fun o => Nat.eqb (id m) (id o)) tr)) obs.
Proof.
  induction tr as [|o tr IH]; intros obs Hd; simpl.
  - symmetry.
    induction obs as [|m obs IHo]; simpl; [reflexivity|].
    f_equal. apply IHo. inversion Hd; assumption.
  - rewrite removeObstacle_filter by exact Hd.
    rewrite IH by (apply NoDup_map_filter; exact Hd).
    clear. induction obs as [|m obs IHo]; simpl; [reflexivity|].
    destruct (Nat.eqb (id m) (id o)); simpl; [exact IHo|].
    destruct (existsb _ tr); simpl; [exact IHo | f_equal; exact IHo].
Qed.

Lemma sweep_removes_far obs :
  NoDup (map id obs) ->
  Forall (fun o => position_z o <= camera_position_z + 10)
         (fold_left removeObstacle (filter far obs) obs).
Proof.
  intros Hd. rewrite removeAll_filter by exact Hd.
  rewrite Forall_forall. intros m Hm. apply filter_In in Hm.
  destruct Hm as [Hin Hk].
  destruct (Qlt_le_dec (camera_position_z + 10) (position_z m)) as [Hfar|]; [|assumption].
  exfalso.
  assert (Hex : existsb (fun o => Nat.eqb (id m) (id o)) (filter far obs) = true).
  { apply existsb_exists. exists m. split.
    - apply filter_In. split; [exact Hin|]. unfold far.
      destruct (Qlt_le_dec _ _); [reflexivity | lra].
    - apply Nat.eqb_refl. }
  rewrite Hex in Hk. discriminate.
Qed.

Lemma pool_ok_removeAll tr obs n :
  pool_ok obs n -> pool_ok (fold_left removeObstacle tr obs) n.
Proof.
  intros H. rewrite removeAll_filter by apply H. apply pool_ok_filter. exact H.
Qed.

(** The sweep at the end of a [checkCollisions] that found no hit. *)
Lemma checkCollisions_no_hit w p tr :
  player w = Some p ->
  scanObstacles p (obstacles w) [] = Some tr ->
  checkCollisions w =
    set_obstacles (fold_left removeObstacle (filter far (obstacles w))
                             (obstacles w)) w.
Proof.
  intros Hp Hs. unfold checkCollisions. rewrite Hp, Hs.
  apply scanObstacles_Some in Hs. destruct Hs as [-> _]. reflexivity.
Qed.

Lemma checkCollisions_hit w p :
  player w = Some p ->
  existsb (hits p) (obstacles w) = true ->
  checkCollisions w = triggerGameOver w.
Proof.
  intros Hp Hh. unfold checkCollisions. rewrite Hp.
  apply (scanObstacles_None p (obstacles w) []) in Hh. rewrite Hh. reflexivity.
Qed.

(** *** Invariants of the reachable states *)

Lemma pool_ok_beforeCollisions delta w :
  pool_ok (obstacles w) (nextId w) ->
  pool_ok (obstacles (beforeCollisions delta w))
          (nextId (beforeCollisions delta w)).
Proof.
  intros H. unfold beforeCollisions. cbv zeta.
  match goal with
  | |- context [updateSegments ?d ?l ?v] =>
      assert (H1 : pool_ok (obstacles v) (nextId v))
        by (unfold movePlayer, updateHud; simpl_world;
            destruct (player w); simpl_world; exact H);
      pose proof (pool_ok_updateSegments d l v H1) as H2;
      destruct (updateSegments d l v) as [segs w6]
  end.
  simpl in H2. unfold moveObstacles. simpl_world.
  apply pool_ok_move; [reflexivity | exact H2].
Qed.

Lemma pool_ok_checkCollisions w :
  pool_ok (obstacles w) (nextId w) ->
  pool_ok (obstacles (checkCollisions w)) (nextId (checkCollisions w)).
Proof.
  intros H. unfold checkCollisions.
  destruct (player w) as [p|]; [|exact H].
  destruct (scanObstacles p (obstacles w) []) as [tr|].
  - simpl_world. apply pool_ok_removeAll. exact H.
  - destruct (triggerGameOver_fields w) as (_ & _ & _ & Eo).
    rewrite Eo.
    replace (nextId (triggerGameOver w)) with (nextId w); [exact H|].
    unfold triggerGameOver, updateHud. simpl_world.
    destruct (Qlt_le_dec _ _); reflexivity.
Qed.

Definition player_ok (w : World) : Prop :=
  exists p, player w = Some p /\ position_y p = 1 /\ position_z p = 0.

Definition world_ok (w : World) : Prop :=
  pool_ok (obstacles w) (nextId w) /\ player_ok w.

Lemma player_ok_updateGame delta w : player_ok w -> player_ok (updateGame delta w).
Proof.
  intros (p & Hp & Hy & Hz). unfold player_ok. rewrite updateGame_eq.
  destruct (checkCollisions_fields (beforeCollisions delta w))
    as (_ & _ & _ & Epl & _).
  destruct (beforeCollisions_fields delta w)
    as (_ & _ & _ & _ & _ & _ & _ & Epl' & _).
  rewrite Epl, Epl'. unfold movePlayer. rewrite Hp. simpl_world.
  eexists. split; [reflexivity|]. simpl_world. split; assumption.
Qed.

Lemma world_ok_updateGame delta w : world_ok w -> world_ok (updateGame delta w).
Proof.
  intros [Hpool Hpl]. split.
  - rewrite updateGame_eq.
    apply pool_ok_checkCollisions, pool_ok_beforeCollisions. exact Hpool.
  - apply player_ok_updateGame. exact Hpl.
Qed.

Lemma world_ok_createWorld_then (f : World -> World) w :
  (forall v, obstacles (f v) = obstacles v /\ nextId (f v) = nextId v /\
             player (f v) = player v) ->
  world_ok (f (createWorld w)).
Proof.
  intros Hf. destruct (Hf (createWorld w)) as (Eo & En & Ep).
  unfold world_ok, player_ok. rewrite Eo, En, Ep. split.
  - apply pool_ok_createWorld.
  - destruct (createWorld_shape w) as (pl & segs & o & k & r & E & _ & Hy & Hz).
    rewrite E. simpl_world. exists pl. auto.
Qed.

Lemma world_ok_initial : world_ok initialWorld.
Proof.
  unfold initialWorld. apply world_ok_createWorld_then.
  intros v. destruct (updateHud_pool v) as (_ & Eo & En & Ep). auto.
Qed.

Lemma world_ok_startGame w : world_ok (startGame w).
Proof.
  rewrite startGame_split. apply world_ok_createWorld_then.
  intros v. destruct (afterCreate_pool v) as (_ & Eo & En & Ep). auto.
Qed.

Lemma world_ok_reachable w : reachable w -> world_ok w.
Proof.
  induction 1 as [| e w Hr IH Ha].
  - apply world_ok_initial.
  - destruct e.
    + simpl. unfold animate. simpl_world.
      destruct (gameState w); try exact IH.
      apply world_ok_updateGame. exact IH.
    + destruct (pointer_shape (PointerDown clientX) w) as (i & x & d & a & b & E);
        [discriminate | discriminate | rewrite E; exact IH].
    + destruct (pointer_shape (PointerMove clientX) w) as (i & x & d & a & b & E);
        [discriminate | discriminate | rewrite E; exact IH].
    + destruct (pointer_shape PointerUp w) as (i & x & d & a & b & E);
        [discriminate | discriminate | rewrite E; exact IH].
    + simpl. unfold handleOverlayTap.
      destruct (gameState w); try exact IH; apply world_ok_startGame.
Qed.

Lemma world_ok_beforeCollisions delta w :
  world_ok w -> world_ok (beforeCollisions delta w).
Proof.
  intros [Hpool (p & Hp & Hy & Hz)]. split.
  - apply pool_ok_beforeCollisions. exact Hpool.
  - destruct (beforeCollisions_fields delta w)
      as (_ & _ & _ & _ & _ & _ & _ & Epl' & _).
    unfold player_ok. rewrite Epl'. unfold movePlayer. rewrite Hp.
    eexists. split; [reflexivity|]. split; assumption.
Qed.

Lemma sweep_after_checkCollisions wb :
  world_ok wb ->
  gameState (checkCollisions wb) = PLAYING ->
  Forall (fun o => position_z o <= camera_position_z + 10)
         (obstacles (checkCollisions wb)).
Proof.
  intros [[Hd _] (p & Hp & _)] HP'.
  destruct (scanObstacles p (obstacles wb) []) as [tr|] eqn:Hs.
  - rewrite (checkCollisions_no_hit wb p tr Hp Hs).
    apply sweep_removes_far. exact Hd.
  - exfalso. unfold checkCollisions in HP'. rewrite Hp, Hs in HP'.
    destruct (triggerGameOver_fields wb) as (Eg & _). congruence.
Qed.

(** C3, as the code has it.  After a PLAYING frame that ends without a
    collision (the game is still PLAYING), no obstacle of the live
    collection has a z beyond the camera z plus 10.  This holds from
    every reachable state, and more generally from every state whose
    obstacles are distinct objects allocated before [nextId] and whose
    player stands at height 1 and depth 0, as in every reachable
    state. *)
Theorem no_stale_obstacle_after_hitless_tick (time : Q) (w : World) :
  reachable w \/ world_ok w ->
  gameState w = PLAYING ->
  gameState (handle (Frame time) w) = PLAYING ->
  Forall (fun o => position_z o <= camera_position_z + 10)
         (obstacles (handle (Frame time) w)).
Proof.
  intros Hw HP HP'.
  assert (Hok : world_ok w).
  { destruct Hw as [Hr | Hok]; [apply world_ok_reachable; exact Hr | exact Hok]. }
  rewrite (animate_playing time w HP) in HP' |- *.
  apply sweep_after_checkCollisions; [|exact HP'].
  apply world_ok_beforeCollisions. exact Hok.
Qed.

(** ** Collision with an obstacle placed on the player *)

(** The obstacle [o] is outside the cleanup window of every segment
    that is recycled when the ring advances by [d]. *)
Definition not_swept (d : Q) (segs : list Mesh) (o : Mesh) : Prop :=
  forall seg, In seg segs ->
    camera_position_z + 5 < position_z seg + d - SEGMENT_LENGTH / 2 ->
    SEGMENT_LENGTH * (6#10) <=
    Qabs (position_z o
          - (position_z seg + d
             - SEGMENT_LENGTH * inject_Z (Z.of_nat SEGMENT_COUNT))).

Lemma In_obstacles_spawn seg w o :
  In o (obstacles w) -> In o (obstacles (spawnObstacleOnSegment seg w)).
Proof.
  intros H. unfold spawnObstacleOnSegment, Math_random, newMesh.
  destruct (Qlt_le_dec _ _); simpl_world; [exact H|].
  apply in_or_app. left. exact H.
Qed.

Lemma In_obstacles_updateSegment delta seg w o :
  In o (obstacles w) ->
  not_swept (forwardSpeed w * delta) [seg] o ->
  In o (obstacles (snd (updateSegment delta seg w))).
Proof.
  intros Hin Hns. unfold updateSegment, Math_random.
  destruct (Qlt_le_dec _ _) as [Hrec|]; cbv beta iota zeta; unfold snd;
    [|exact Hin].
  apply In_obstacles_spawn. simpl_world.
  apply filter_In. split; [exact Hin|].
  unfold nearSegment. simpl_world.
  destruct (Qlt_le_dec _ _) as [Hnear|]; [|reflexivity].
  exfalso. specialize (Hns seg (or_introl eq_refl) Hrec). lra.
Qed.

Lemma In_obstacles_updateSegments delta segs o : forall w,
  In o (obstacles w) ->
  not_swept (forwardSpeed w * delta) segs o ->
  In o (obstacles (snd (updateSegments delta segs w))).
Proof.
  induction segs as [|seg rest IH]; intros w Hin Hns; simpl; [exact Hin|].
  assert (H1 : In o (obstacles (snd (updateSegment delta seg w)))).
  { apply In_obstacles_updateSegment; [exact Hin|].
    intros s [<- | []]. apply Hns. left; reflexivity. }
  destruct (updateSegment_pool delta seg w) as (o1 & n1 & r1 & E1).
  destruct (updateSegment delta seg w) as [seg' w1]. simpl in E1, H1.
  assert (Hs : forwardSpeed w1 = forwardSpeed w) by (rewrite E1; reflexivity).
  assert (H2 : In o (obstacles (snd (updateSegments delta rest w1)))).
  { apply IH; [exact H1|]. rewrite Hs.
    intros s Hs'. apply Hns. right; exact Hs'. }
  destruct (updateSegments delta rest w1) as [rest' w2]. exact H2.
Qed.

Lemma In_obstacles_beforeCollisions delta w o :
  In o (obstacles w) ->
  not_swept ((baseForwardSpeed + (elapsedSinceStart w + delta) * (1#2)) * delta)
            (slideSegments w) o ->
  In (set_position_z
        (position_z o
         + (baseForwardSpeed + (elapsedSinceStart w + delta) * (1#2)) * delta) o)
     (obstacles (beforeCollisions delta w)).
Proof.
  intros Hin Hns. unfold beforeCollisions. cbv zeta.
  match goal with
  | |- context [updateSegments ?d ?l ?v] =>
      assert (H1 : In o (obstacles (snd (updateSegments d l v))))
        by (apply In_obstacles_updateSegments;
            unfold movePlayer, updateHud; simpl_world;
            destruct (player w); simpl_world; assumption);
      destruct (updateSegments_pool d l v) as (o1 & n1 & r1 & E1);
      destruct (updateSegments d l v) as [segs w6]
  end.
  simpl in E1, H1. subst w6. unfold moveObstacles, movePlayer, updateHud in *.
  simpl_world. destruct (player w); simpl_world;
    apply (in_map (fun o0 => set_position_z (position_z o0 + _) o0)); exact H1.
Qed.

Lemma hit_after_tick delta target (p o : Mesh) d :
  position_x o == position_x p ->
  position_y o == position_y p ->
  position_z o == position_z p ->
  let s := (target - position_x p) * Math_min (LERP_FACTOR * delta) 1 in
  s * s + d * d < combined * combined ->
  hits (set_position_x (lerpX delta target (position_x p)) p)
       (set_position_z (position_z o + d) o) = true.
Proof.
  intros Hx Hy Hz s Hlt. unfold hits, distSq, lerpX. simpl_world.
  fold s. destruct (Qlt_le_dec _ _) as [|Hge]; [reflexivity|].
  exfalso. revert Hge Hlt. generalize (combined * combined). intros c Hge Hlt.
  rewrite Hx, Hy, Hz in Hge.
  assert (E : (position_x p - (position_x p + s)) * (position_x p - (position_x p + s))
              + (position_y p - position_y p) * (position_y p - position_y p)
              + (position_z p + d - position_z p) * (position_z p + d - position_z p)
              == s * s + d * d) by ring.
  rewrite E in Hge. lra.
Qed.

Lemma scan_stops_at_hit q x pre rest acc :
  hits q x = true -> scanObstacles q (pre ++ x :: rest) acc = None.
Proof.
  intros H. apply scanObstacles_None. rewrite existsb_app. simpl.
  rewrite H. apply orb_true_iff. right. reflexivity.
Qed.

(** C2, as the code has it.  An obstacle placed exactly on the player
    before a PLAYING tick ends the game within that tick provided the
    tick does not carry the two apart: with [s] the player's lane step
    and [d] the distance the world advances in the tick,
    [s^2 + d^2 < (0.5 + 0.6)^2], and the obstacle is not in the cleanup
    window of a segment recycled in this tick.  The scan stops at the
    first hit whatever follows it in the list; the world returned is
    [triggerGameOver] of the state before the scan (no sweep), and a
    later frame changes nothing but the frame clock. *)
Theorem obstacle_on_player_ends_game (delta : Q) (w : World) (p o : Mesh) :
  gameState w = PLAYING ->
  player w = Some p ->
  In o (obstacles w) ->
  position_x o == position_x p ->
  position_y o == position_y p ->
  position_z o == position_z p ->
  let d := (baseForwardSpeed + (elapsedSinceStart w + delta) * (1#2)) * delta in
  let s := (targetLaneX w - position_x p) * Math_min (LERP_FACTOR * delta) 1 in
  s * s + d * d < combined * combined ->
  not_swept d (slideSegments w) o ->
  gameState (updateGame delta w) = GAME_OVER /\
  updateGame delta w = triggerGameOver (beforeCollisions delta w) /\
  (forall q x pre rest acc,
     hits q x = true -> scanObstacles q (pre ++ x :: rest) acc = None) /\
  (forall time,
     handle (Frame time) (updateGame delta w) =
     set_lastTime time (updateGame delta w)).
Proof.
  intros HP Hp Hin Hx Hy Hz d s Hlt Hns.
  assert (E : updateGame delta w = triggerGameOver (beforeCollisions delta w)).
  { rewrite updateGame_eq.
    apply (checkCollisions_hit _
             (set_position_x (lerpX delta (targetLaneX w) (position_x p)) p)).
    - destruct (beforeCollisions_fields delta w)
        as (_ & _ & _ & _ & _ & _ & _ & Epl & _).
      rewrite Epl. unfold movePlayer. rewrite Hp. reflexivity.
    - apply existsb_exists.
      exists (set_position_z (position_z o + d) o). split.
      + apply In_obstacles_beforeCollisions; assumption.
      + apply hit_after_tick; assumption. }
  assert (G : gameState (updateGame delta w) = GAME_OVER).
  { rewrite E. apply triggerGameOver_fields. }
  repeat split.
  - exact G.
  - exact E.
  - intros. apply scan_stops_at_hit. assumption.
  - intros time. apply animate_idle. rewrite G. discriminate.
Qed.

(** ** Runs *)

Definition admissibleb (e : Event) (w : World) : bool :=
  match e with
  | Frame time => Qle_bool (lastTime w) time
  | _ => true
  end.

Fixpoint run_admissible (es : list Event) (w : World) : bool :=
  match es with
  | [] => true
  | e :: es' => admissibleb e w && run_admissible es' (handle e w)
  end.

Lemma reachable_run es : forall w,
  reachable w -> run_admissible es w = true -> reachable (run es w).
Proof.
  induction es as [|e es IH]; intros w Hr Ha; simpl in *; [exact Hr|].
  apply andb_true_iff in Ha. destruct Ha as [Ha Hrest].
  apply IH; [|exact Hrest].
  apply reach_step; [exact Hr|].
  destruct e; simpl in *; try exact I. apply Qle_bool_iff. exact Ha.
Qed.

Definition not_sweptb (d : Q) (segs : list Mesh) (o : Mesh) : bool :=
  forallb
    (fun seg =>
       if Qlt_le_dec (camera_position_z + 5)
                     (position_z seg + d - SEGMENT_LENGTH / 2)
       then if Qlt_le_dec
                 (Qabs (position_z o
                        - (position_z seg + d
                           - SEGMENT_LENGTH * inject_Z (Z.of_nat SEGMENT_COUNT))))
                 (SEGMENT_LENGTH * (6#10))
            then false else true
       else true)
    segs.

Lemma not_sweptb_correct d segs o :
  not_sweptb d segs o = true -> not_swept d segs o.
Proof.
  unfold not_sweptb, not_swept. rewrite forallb_forall.
  intros H seg Hin Hrec. specialize (H seg Hin).
  destruct (Qlt_le_dec (camera_position_z + 5) _) as [|Hno]; [|lra].
  destruct (Qlt_le_dec (Qabs _) _); [discriminate | assumption].
Qed.

(** * Further properties of the loop *)

(** ** Lanes and the player *)

Definition lane_ok (w : World) : Prop :=
  (0 <= currentLaneIndex w <= 2)%Z /\
  targetLaneX w = laneX (currentLaneIndex w).

Lemma pointer_lane e w :
  (forall time, e <> Frame time) -> e <> OverlayTap ->
  (currentLaneIndex (handle e w) = currentLaneIndex w /\
   targetLaneX (handle e w) = targetLaneX w) \/
  exists k, currentLaneIndex (handle e w) = clampLane k /\
            targetLaneX (handle e w) = laneX (clampLane k).
Proof.
  intros Hf Ht. destruct e; simpl.
  - exfalso. eapply Hf; reflexivity.
  - left. split; reflexivity.
  - left. unfold onPointerMove. destruct (negb (isDragging w)); split; reflexivity.
  - unfold onPointerUp, setLane. destruct (negb (isDragging w)).
    + left. split; reflexivity.
    + destruct (Qlt_le_dec _ _); [|destruct (Qlt_le_dec _ _)]; simpl_world.
      * right. eexists. split; reflexivity.
      * right. eexists. split; reflexivity.
      * left. split; reflexivity.
  - exfalso. apply Ht; reflexivity.
Qed.

Lemma lane_fields_updateGame delta w :
  currentLaneIndex (updateGame delta w) = currentLaneIndex w /\
  targetLaneX (updateGame delta w) = targetLaneX w.
Proof.
  rewrite updateGame_eq.
  destruct (checkCollisions_fields (beforeCollisions delta w))
    as (_ & _ & _ & _ & _ & Ei & Et & _).
  destruct (beforeCollisions_fields delta w)
    as (_ & _ & _ & _ & _ & Ei' & Et' & _).
  rewrite Ei, Et, Ei', Et'. split; reflexivity.
Qed.

Lemma lane_ok_step e w : lane_ok w -> lane_ok (handle e w).
Proof.
  intros [Hi Ht]. destruct e.
  - simpl. unfold animate. simpl_world.
    destruct (gameState w); try (split; assumption).
    destruct (lane_fields_updateGame (frameDelta time w) (set_lastTime time w))
      as [Ei Et].
    unfold lane_ok. rewrite Ei, Et. split; assumption.
  - destruct (pointer_lane (PointerDown clientX) w) as [[Ei Et] | (k & Ei & Et)];
      try discriminate; unfold lane_ok; rewrite Ei, Et;
      [split; assumption | split; [apply clampLane_range | reflexivity]].
  - destruct (pointer_lane (PointerMove clientX) w) as [[Ei Et] | (k & Ei & Et)];
      try discriminate; unfold lane_ok; rewrite Ei, Et;
      [split; assumption | split; [apply clampLane_range | reflexivity]].
  - destruct (pointer_lane PointerUp w) as [[Ei Et] | (k & Ei & Et)];
      try discriminate; unfold lane_ok; rewrite Ei, Et;
      [split; assumption | split; [apply clampLane_range | reflexivity]].
  - simpl. unfold handleOverlayTap.
    destruct (startGame_fields w) as (_ & _ & _ & _ & _ & Ei & Et & _).
    destruct (gameState w); try (split; assumption);
      unfold lane_ok; rewrite Ei, Et; split; try reflexivity; lia.
Qed.

Lemma lane_ok_initial : lane_ok initialWorld.
Proof.
  unfold initialWorld.
  destruct (createWorld_shape moduleInit) as (pl & segs & o & k & r & E & _).
  rewrite E. unfold lane_ok, updateHud. simpl_world. split; [lia | reflexivity].
Qed.

Lemma laneX_bounds i : (0 <= i <= 2)%Z -> -(3#2) <= laneX i <= 3#2.
Proof.
  intros Hi.
  assert (Hc : i = 0%Z \/ i = 1%Z \/ i = 2%Z) by lia.
  destruct Hc as [-> | [-> | ->]]; vm_compute; split; discriminate.
Qed.

(** The lane index is always one of the three lanes, the pending
    target X is the X of that lane, the player exists at height 1 and
    depth 0, and its x never leaves the band between the outer lanes. *)
Definition track_ok (w : World) : Prop :=
  lane_ok w /\
  exists p, player w = Some p /\ position_y p = 1 /\ position_z p = 0 /\
            -(3#2) <= position_x p <= 3#2.

Lemma track_ok_updateGame delta w :
  0 <= delta -> track_ok w -> track_ok (updateGame delta w).
Proof.
  intros Hd [[Hi Ht] (p & Hp & Hy & Hz & Hx)].
  destruct (lane_fields_updateGame delta w) as [Ei Et].
  split; [unfold lane_ok; rewrite Ei, Et; split; assumption|].
  rewrite updateGame_eq.
  destruct (checkCollisions_fields (beforeCollisions delta w))
    as (_ & _ & _ & Epl & _).
  destruct (beforeCollisions_fields delta w)
    as (_ & _ & _ & _ & _ & _ & _ & Epl' & _).
  rewrite Epl, Epl'. unfold movePlayer. rewrite Hp.
  eexists. split; [reflexivity|]. simpl_world.
  split; [exact Hy|]. split; [exact Hz|].
  pose proof (laneX_bounds _ Hi) as Hb. rewrite <- Ht in Hb.
  destruct (lerpX_between delta (targetLaneX w) (position_x p) Hd) as [[B|B] _];
    lra.
Qed.

Lemma track_ok_of_fields w :
  currentLaneIndex w = 1%Z -> targetLaneX w = laneX 1 ->
  (exists pl, player w = Some pl /\
     position_x pl = laneX 1 /\ position_y pl = 1 /\ position_z pl = 0) ->
  track_ok w.
Proof.
  intros Ei Et (pl & Hp & Hx & Hy & Hz). split.
  - unfold lane_ok. rewrite Ei, Et. split; [lia | reflexivity].
  - exists pl. rewrite Hx. repeat split; try assumption; vm_compute; discriminate.
Qed.

Lemma track_ok_reachable w : reachable w -> track_ok w.
Proof.
  induction 1 as [| e w Hr IH Ha].
  - destruct initialWorld_fields as (_ & _ & _ & _ & Hpl).
    destruct lane_ok_initial as [Hi Ht].
    split; [split; assumption|].
    destruct Hpl as (pl & Hp & Hx & Hy & Hz). exists pl. rewrite Hx.
    repeat split; try assumption; vm_compute; discriminate.
  - destruct e.
    + simpl in *. unfold animate. simpl_world.
      destruct (gameState w); try exact IH.
      apply track_ok_updateGame; [apply (frameDelta_nonneg time w Ha) | exact IH].
    + split; [apply lane_ok_step; apply IH|].
      destruct (pointer_shape (PointerDown clientX) w) as (i & x & d & a & b & E);
        [discriminate | discriminate | rewrite E; apply IH].
    + split; [apply lane_ok_step; apply IH|].
      destruct (pointer_shape (PointerMove clientX) w) as (i & x & d & a & b & E);
        [discriminate | discriminate | rewrite E; apply IH].
    + split; [apply lane_ok_step; apply IH|].
      destruct (pointer_shape PointerUp w) as (i & x & d & a & b & E);
        [discriminate | discriminate | rewrite E; apply IH].
    + simpl. unfold handleOverlayTap.
      destruct (startGame_fields w) as (_ & _ & _ & _ & _ & Ei & Et & _ & Hpl).
      destruct (gameState w); try exact IH;
        apply track_ok_of_fields; assumption.
Qed.

(** X1.  In every reachable state the lane index is 0, 1 or 2 and the
    pending target X is the X of that lane. *)
Theorem lane_index_always_valid (w : World) :
  reachable w ->
  (0 <= currentLaneIndex w <= 2)%Z /\
  targetLaneX w = laneX (currentLaneIndex w) /\
  In (targetLaneX w) LANE_X_POSITIONS.
Proof.
  intros Hr. destruct (track_ok_reachable w Hr) as [[Hi Ht] _].
  split; [exact Hi|]. split; [exact Ht|]. rewrite Ht.
  assert (Hc : currentLaneIndex w = 0%Z \/ currentLaneIndex w = 1%Z \/
               currentLaneIndex w = 2%Z) by lia.
  destruct Hc as [-> | [-> | ->]]; simpl; auto.
Qed.

(** X2.  In every reachable state the player exists, sits at height 1
    and depth 0, and its x lies between the two outer lanes. *)
Theorem player_stays_on_track (w : World) :
  reachable w ->
  exists p, player w = Some p /\ position_y p = 1 /\ position_z p = 0 /\
            -(3#2) <= position_x p <= 3#2.
Proof. intros Hr. apply (track_ok_reachable w Hr). Qed.

(** ** Score, high score and the state machine *)

Lemma pointer_keeps e w :
  (forall time, e <> Frame time) -> e <> OverlayTap ->
  gameState (handle e w) = gameState w /\ score (handle e w) = score w /\
  highScore (handle e w) = highScore w /\
  elapsedSinceStart (handle e w) = elapsedSinceStart w /\
  forwardSpeed (handle e w) = forwardSpeed w /\
  player (handle e w) = player w /\
  slideSegments (handle e w) = slideSegments w /\
  obstacles (handle e w) = obstacles w /\
  lastTime (handle e w) = lastTime w.
Proof.
  intros Hf Ht. destruct (pointer_shape e w Hf Ht) as (i & x & d & a & b & E).
  rewrite E. repeat split; reflexivity.
Qed.

Lemma Math_max_ge a b : a <= Math_max a b /\ b <= Math_max a b.
Proof. unfold Math_max. destruct (Qlt_le_dec a b); split; lra. Qed.

Lemma highScore_updateGame delta w :
  highScore (updateGame delta w) = highScore w \/
  (gameState (updateGame delta w) = GAME_OVER /\
   highScore (updateGame delta w) =
   Math_max (highScore w) (score (updateGame delta w))).
Proof.
  rewrite updateGame_eq.
  destruct (beforeCollisions_fields delta w) as (_ & _ & Fh & _).
  destruct (checkCollisions_cases (beforeCollisions delta w)) as [E | [obs E]];
    rewrite E.
  - right. destruct (triggerGameOver_fields (beforeCollisions delta w))
      as (Tg & Th & Ts & _).
    rewrite Tg, Th, Ts, Fh. split; reflexivity.
  - left. exact Fh.
Qed.

Lemma score_le_highScore_at_game_over wb :
  gameState wb = PLAYING -> gameState (checkCollisions wb) = GAME_OVER ->
  score (checkCollisions wb) <= highScore (checkCollisions wb).
Proof.
  intros HP HG. rewrite (checkCollisions_game_over wb HP HG).
  destruct (triggerGameOver_fields wb) as (_ & Th & Ts & _).
  rewrite Th, Ts. apply Math_max_ge.
Qed.

(** X4.  No event ever lowers the high score (a restart keeps it), and
    in every reachable GAME_OVER state the score is at most the high
    score. *)
Theorem highScore_never_decreases :
  (forall e w, highScore w <= highScore (handle e w)) /\
  (forall w, reachable w -> gameState w = GAME_OVER -> score w <= highScore w).
Proof.
  assert (Hmono : forall e w, highScore w <= highScore (handle e w)).
  { intros e w. destruct e.
    - simpl. unfold animate. simpl_world.
      destruct (gameState w); try apply Qle_refl.
      destruct (highScore_updateGame (frameDelta time w) (set_lastTime time w))
        as [E | [_ E]]; rewrite E; [apply Qle_refl|].
      apply Math_max_ge.
    - destruct (pointer_keeps (PointerDown clientX) w) as (_ & _ & Eh & _);
        try discriminate. rewrite Eh. apply Qle_refl.
    - destruct (pointer_keeps (PointerMove clientX) w) as (_ & _ & Eh & _);
        try discriminate. rewrite Eh. apply Qle_refl.
    - destruct (pointer_keeps PointerUp w) as (_ & _ & Eh & _);
        try discriminate. rewrite Eh. apply Qle_refl.
    - simpl. unfold handleOverlayTap.
      destruct (startGame_fields w) as (_ & _ & Eh & _).
      destruct (gameState w); try apply Qle_refl; rewrite Eh; apply Qle_refl. }
  split; [exact Hmono|].
  induction 1 as [| e w Hr IH Ha]; intros HG.
  - destruct initialWorld_fields as (Eg & _). congruence.
  - destruct e.
    + destruct (gameState w) eqn:Eg.
      * rewrite animate_idle in HG by congruence. simpl_world. congruence.
      * rewrite (animate_playing time w Eg) in HG |- *.
        apply score_le_highScore_at_game_over; [|exact HG].
        rewrite gameState_beforeCollisions. exact Eg.
      * rewrite animate_idle by congruence. simpl_world. apply IH. reflexivity.
    + destruct (pointer_keeps (PointerDown clientX) w) as (Eg & Es & Eh & _);
        try discriminate. rewrite Es, Eh. apply IH. congruence.
    + destruct (pointer_keeps (PointerMove clientX) w) as (Eg & Es & Eh & _);
        try discriminate. rewrite Es, Eh. apply IH. congruence.
    + destruct (pointer_keeps PointerUp w) as (Eg & Es & Eh & _);
        try discriminate. rewrite Es, Eh. apply IH. congruence.
    + revert HG. simpl. unfold handleOverlayTap.
      destruct (startGame_fields w) as (Eg' & _).
      destruct (gameState w) eqn:Eg; try congruence.
Qed.

Lemma gameState_set_obstacles obs v :
  gameState (set_obstacles obs v) = gameState v.
Proof. reflexivity. Qed.

Lemma gameState_frame time w :
  gameState (handle (Frame time) w) = gameState w \/
  (gameState w = PLAYING /\ gameState (handle (Frame time) w) = GAME_OVER).
Proof.
  destruct (gameState w) eqn:Eg.
  - left. rewrite animate_idle by congruence. exact Eg.
  - rewrite (animate_playing time w Eg).
    assert (Hb : gameState (beforeCollisions (frameDelta time w)
                              (set_lastTime time w)) = PLAYING)
      by (rewrite gameState_beforeCollisions; exact Eg).
    destruct (checkCollisions_cases
                (beforeCollisions (frameDelta time w) (set_lastTime time w)))
      as [E | [obs E]]; rewrite E.
    + right. split; [reflexivity|]. apply triggerGameOver_fields.
    + left. rewrite gameState_set_obstacles. exact Hb.
  - left. rewrite animate_idle by congruence. exact Eg.
Qed.

Lemma gameState_tap w : gameState (handle OverlayTap w) = PLAYING.
Proof.
  simpl. unfold handleOverlayTap.
  destruct (gameState w) eqn:Eg; try apply startGame_fields. exact Eg.
Qed.

(** X5.  The state machine has exactly three moves: a tap on the
    overlay takes READY or GAME_OVER to PLAYING, a frame may take
    PLAYING to GAME_OVER, and nothing else changes the state; READY is
    never entered again. *)
Theorem state_machine_transitions (e : Event) (w : World) :
  (gameState (handle e w) = gameState w \/
   (e = OverlayTap /\ gameState w <> PLAYING /\
    gameState (handle e w) = PLAYING) \/
   ((exists time, e = Frame time) /\ gameState w = PLAYING /\
    gameState (handle e w) = GAME_OVER)) /\
  (gameState (handle e w) = READY -> gameState w = READY) /\
  (e = OverlayTap -> gameState (handle e w) = PLAYING).
Proof.
  destruct e.
  - destruct (gameState_frame time w) as [E | [E1 E2]].
    + rewrite E. repeat split; try discriminate; tauto.
    + rewrite E2. repeat split; try discriminate.
      right. right. split; [eexists; reflexivity | split; [exact E1 | reflexivity]].
  - destruct (pointer_keeps (PointerDown clientX) w) as (Eg & _);
      try discriminate. rewrite Eg. repeat split; try discriminate; tauto.
  - destruct (pointer_keeps (PointerMove clientX) w) as (Eg & _);
      try discriminate. rewrite Eg. repeat split; try discriminate; tauto.
  - destruct (pointer_keeps PointerUp w) as (Eg & _);
      try discriminate. rewrite Eg. repeat split; try discriminate; tauto.
  - rewrite gameState_tap.
    destruct (gameState w) eqn:Eg; repeat split; try discriminate; try tauto;
      right; left; repeat split; discriminate.
Qed.

(** X6.  A frame never advances the simulation by more than 0.05 s:
    with a non-decreasing timestamp, a PLAYING frame adds to the
    elapsed time a delta in [0, 0.05], adds ten times that delta (at
    most 0.5) to the score, and records the timestamp; a stall of any
    length counts as 0.05 s. *)
Theorem frame_step_is_clamped (time : Q) (w : World) :
  gameState w = PLAYING ->
  lastTime w <= time ->
  let w' := handle (Frame time) w in
  0 <= frameDelta time w <= 1#20 /\
  elapsedSinceStart w' = elapsedSinceStart w + frameDelta time w /\
  score w' = score w + frameDelta time w * 10 /\
  score w' <= score w + (1#2) /\
  lastTime w' = time /\
  (lastTime w + 50 <= time -> frameDelta time w == 1#20).
Proof.
  intros HP Ha. cbv zeta.
  pose proof (frameDelta_nonneg time w Ha) as H0.
  pose proof (frameDelta_le_max time w) as H1. unfold MAX_DELTA in H1.
  assert (Hs : score (handle (Frame time) w) = score w + frameDelta time w * 10).
  { simpl. unfold animate. simpl_world. rewrite HP.
    rewrite score_updateGame. reflexivity. }
  rewrite (animate_playing time w HP) in *.
  destruct (checkCollisions_fields
              (beforeCollisions (frameDelta time w) (set_lastTime time w)))
    as (_ & Ee & _ & _ & _ & _ & _ & El).
  destruct (beforeCollisions_fields (frameDelta time w) (set_lastTime time w))
    as (_ & _ & _ & Ee' & _ & _ & _ & _ & El' & _).
  rewrite Ee, Ee', El, El', Hs. simpl_world.
  repeat split; try lra; try reflexivity.
  intros Hstall. unfold frameDelta, Math_min, MAX_DELTA.
  destruct (Qlt_le_dec (5#100) ((time - lastTime w) / 1000)) as [|Hle].
  - reflexivity.
  - unfold Qdiv in *. change (/ 1000) with (1#1000) in *. lra.
Qed.

(** ** Collision test and sweep *)

Lemma same_id_same_obstacle (obs : list Mesh) a b :
  NoDup (map id obs) -> In a obs -> In b obs -> id a = id b -> a = b.
Proof.
  induction obs as [|m rest IH]; simpl; intros Hd Ha Hb E; [contradiction|].
  inversion Hd as [|? ? Hn Hd']; subst.
  destruct Ha as [<- | Ha], Hb as [<- | Hb].
  - reflexivity.
  - exfalso. apply Hn. rewrite E. apply in_map. exact Hb.
  - exfalso. apply Hn. rewrite <- E. apply in_map. exact Ha.
  - apply IH; assumption.
Qed.

Lemma sweep_is_filter obs :
  NoDup (map id obs) ->
  fold_left removeObstacle (filter far obs) obs =
  filter (fun o => negb (far o)) obs.
Proof.
  intros Hd. rewrite removeAll_filter by exact Hd.
  apply filter_ext_in. intros m Hm. f_equal.
  destruct (far m) eqn:Fm.
  - apply existsb_exists. exists m. split.
    + apply filter_In. split; assumption.
    + apply Nat.eqb_refl.
  - destruct (existsb _ (filter far obs)) eqn:Ex; [|reflexivity].
    apply existsb_exists in Ex. destruct Ex as (o & Ho & Eo).
    apply filter_In in Ho. destruct Ho as [Ho Fo].
    apply Nat.eqb_eq in Eo.
    rewrite (same_id_same_obstacle obs m o Hd Hm Ho Eo) in Fm. congruence.
Qed.

Lemma existsb_hits_false p obs :
  existsb (hits p) obs = false -> exists tr, scanObstacles p obs [] = Some tr.
Proof.
  intros H. destruct (scanObstacles p obs []) as [tr|] eqn:Hs; [eauto|].
  apply scanObstacles_None in Hs. congruence.
Qed.

(** X7.  When no obstacle is within the combined radius and the
    obstacles are distinct objects, [checkCollisions] keeps exactly the
    obstacles whose z is at most the camera z plus 10, in their order,
    and changes nothing else: the sweep never drops an obstacle that
    is still ahead of the line. *)
Theorem sweep_keeps_exactly_the_near_obstacles (w : World) (p : Mesh) :
  player w = Some p ->
  NoDup (map id (obstacles w)) ->
  existsb (hits p) (obstacles w) = false ->
  checkCollisions w =
  set_obstacles (filter (fun o => negb (far o)) (obstacles w)) w.
Proof.
  intros Hp Hd Hh. destruct (existsb_hits_false p _ Hh) as [tr Hs].
  rewrite (checkCollisions_no_hit w p tr Hp Hs), sweep_is_filter by exact Hd.
  reflexivity.
Qed.

Lemma hits_iff p o : hits p o = true <-> distSq o p < combined * combined.
Proof.
  unfold hits. destruct (Qlt_le_dec _ _); split; intros; try reflexivity;
    try assumption; try discriminate. lra.
Qed.


(** X9.  A hit needs the two centres to be closer than 1.1 along every
    axis; an obstacle whose x differs from the player's by a lane
    width (1.5) or more therefore never hits, wherever it is in z. *)
Theorem hit_needs_closeness_on_every_axis (p o : Mesh) :
  hits p o = true ->
  Qabs (position_x o - position_x p) < 11#10 /\
  Qabs (position_y o - position_y p) < 11#10 /\
  Qabs (position_z o - position_z p) < 11#10.
Proof.
  intros H. apply hits_iff in H. unfold distSq, combined, playerRadius,
    obstacleRadius in H. cbv zeta in H.
  set (dx := position_x o - position_x p) in *.
  set (dy := position_y o - position_y p) in *.
  set (dz := position_z o - position_z p) in *.
  repeat split; apply Qabs_case; intros; nra.
Qed.

(** ** Spawning and rebuilding the world *)

Lemma laneX_in_lanes i : (0 <= i <= 2)%Z -> In (laneX i) LANE_X_POSITIONS.
Proof.
  intros Hi.
  assert (Hc : i = 0%Z \/ i = 1%Z \/ i = 2%Z) by lia.
  destruct Hc as [-> | [-> | ->]]; simpl; auto.
Qed.

(** X10.  [spawnObstacleOnSegment] draws once and, when the draw is
    above 0.5, adds nothing.  Otherwise it draws twice more and appends
    one new obstacle: a fresh object in one of the three lanes, at
    height 0.6, within half a segment length of the segment's centre. *)
Theorem spawn_places_at_most_one_obstacle_on_segment (seg : Mesh) (w : World) :
  let n := randomCalls w in
  let w' := spawnObstacleOnSegment seg w in
  (OBSTACLE_CHANCE_PER_SEGMENT < rand n -> w' = set_randomCalls (S n) w) /\
  (rand n <= OBSTACLE_CHANCE_PER_SEGMENT ->
   0 <= rand (S n) -> rand (S n) < 1 ->
   0 <= rand (S (S n)) -> rand (S (S n)) < 1 ->
   exists box,
     obstacles w' = obstacles w ++ [box] /\
     id box = nextId w /\
     In (position_x box) LANE_X_POSITIONS /\
     position_y box = 6#10 /\
     position_z seg - SEGMENT_LENGTH / 2 <= position_z box /\
     position_z box < position_z seg + SEGMENT_LENGTH / 2 /\
     nextId w' = S (nextId w) /\
     randomCalls w' = S (S (S n))).
Proof.
  cbv zeta. unfold spawnObstacleOnSegment, Math_random, newMesh.
  destruct (Qlt_le_dec OBSTACLE_CHANCE_PER_SEGMENT (rand (randomCalls w)))
    as [Hno | Hyes]; simpl_world; split.
  - intros _. reflexivity.
  - intros Hle. lra.
  - intros Hlt. lra.
  - intros _ H20 H21 H30 H31. eexists. split; [reflexivity|]. simpl_world.
    split; [reflexivity|]. split.
    { apply laneX_in_lanes. apply laneIndex_of_random_range; assumption. }
    split; [reflexivity|].
    unfold SEGMENT_LENGTH, Qdiv. change (/ 2) with (1#2).
    repeat split; try reflexivity; lra.
Qed.

Lemma spawn_extends seg w :
  exists new,
    obstacles (spawnObstacleOnSegment seg w) = obstacles w ++ new /\
    (length new <= 1)%nat /\
    Forall (fun o => position_y o = 6#10) new.
Proof.
  unfold spawnObstacleOnSegment, Math_random, newMesh.
  destruct (Qlt_le_dec _ _); simpl_world.
  - exists []. rewrite app_nil_r. repeat split; [simpl; lia | constructor].
  - eexists. split; [reflexivity|]. split; [simpl; lia|].
    constructor; [reflexivity | constructor].
Qed.

Lemma createSegments_extends n : forall i w,
  exists new,
    obstacles (createSegments n i w) = obstacles w ++ new /\
    (length new <= n)%nat /\
    Forall (fun o => position_y o = 6#10) new.
Proof.
  induction n as [|n IH]; intros i w; simpl.
  - exists []. rewrite app_nil_r. repeat split; [simpl; lia | constructor].
  - unfold createSlideSegment, newMesh.
    match goal with
    | |- context [createSegments n ?j (spawnObstacleOnSegment ?sg ?v)] =>
        destruct (spawn_extends sg v) as (n1 & E1 & L1 & F1);
        destruct (IH j (spawnObstacleOnSegment sg v)) as (n2 & E2 & L2 & F2)
    end.
    exists (n1 ++ n2). rewrite E2, E1. simpl_world. rewrite app_assoc.
    split; [reflexivity|]. split.
    + rewrite length_app. lia.
    + apply Forall_app. split; assumption.
Qed.

Lemma obstacles_placePlayer v : obstacles (placePlayer v) = obstacles v.
Proof.
  destruct (placePlayer_shape v) as (pl & k & E & _). rewrite E. reflexivity.
Qed.

(** X11.  [createWorld] rebuilds the pool from scratch whatever was
    there before: exactly eight segments, at z = 0, -20, ..., -140; at
    most eight obstacles, all distinct objects at height 0.6; the lane
    reset to the centre with the player on it at (0, 1, 0); game state,
    score, high score, elapsed time and speed untouched. *)
Theorem createWorld_rebuilds_the_pool (w : World) :
  let w' := createWorld w in
  map position_z (slideSegments w') =
    [0; -(20); -(40); -(60); -(80); -(100); -(120); -(140)] /\
  length (slideSegments w') = 8%nat /\
  (length (obstacles w') <= 8)%nat /\
  Forall (fun o => position_y o = 6#10) (obstacles w') /\
  NoDup (map id (obstacles w')) /\
  currentLaneIndex w' = 1%Z /\ targetLaneX w' = 0 /\
  (exists p, player w' = Some p /\ position_x p = 0 /\
             position_y p = 1 /\ position_z p = 0) /\
  gameState w' = gameState w /\ score w' = score w /\
  highScore w' = highScore w /\
  elapsedSinceStart w' = elapsedSinceStart w /\
  forwardSpeed w' = forwardSpeed w.
Proof.
  cbv zeta.
  pose proof (slideSegments_createWorld w) as Hz.
  assert (Hz' : map position_z (slideSegments (createWorld w)) =
                [0; -(20); -(40); -(60); -(80); -(100); -(120); -(140)])
    by (rewrite Hz; reflexivity).
  split; [exact Hz'|]. split.
  { rewrite <- (length_map position_z), Hz'. reflexivity. }
  assert (Ho : exists new,
             obstacles (createWorld w) = new /\ (length new <= 8)%nat /\
             Forall (fun o => position_y o = 6#10) new).
  { unfold createWorld. cbv zeta. rewrite obstacles_placePlayer.
    destruct (createSegments_extends SEGMENT_COUNT 0
                (set_obstacles [] (set_slideSegments [] w)))
      as (new & E & L & F).
    exists new. rewrite E. simpl_world. auto. }
  destruct Ho as (new & Eo & Lo & Fo). rewrite Eo.
  split; [exact Lo|]. split; [exact Fo|]. split.
  { rewrite <- Eo. apply pool_ok_createWorld. }
  destruct (createWorld_shape w) as (pl & segs & o & k & r & E & Hx & Hy & Hz0).
  rewrite E. simpl_world.
  repeat split; try reflexivity.
  exists pl. repeat split; assumption.
Qed.

(** ** Gestures *)

(** A press at [x0], any number of moves, and a release. *)
Definition gesture (x0 : Q) (xs : list Q) : list Event :=
  PointerDown x0 :: map PointerMove xs ++ [PointerUp].

Lemma run_app es1 es2 w : run (es1 ++ es2) w = run es2 (run es1 w).
Proof. unfold run. apply fold_left_app. Qed.

Lemma last_cons_default {A} (xs : list A) : forall x d,
  last (x :: xs) d = last xs x.
Proof.
  induction xs as [|y ys IH]; intros x d; [reflexivity|].
  change (last (x :: y :: ys) d) with (last (y :: ys) d).
  rewrite (IH y d), (IH y x). reflexivity.
Qed.

Lemma run_moves xs : forall w,
  isDragging w = true ->
  run (map PointerMove xs) w =
  set_drag true (dragStartX w) (last xs (dragCurrentX w)) w.
Proof.
  induction xs as [|x xs IH]; intros w Hd.
  - simpl. rewrite <- Hd. destruct w; reflexivity.
  - change (run (map PointerMove (x :: xs)) w)
      with (run (map PointerMove xs) (onPointerMove x w)).
    unfold onPointerMove. rewrite Hd. simpl negb. cbv iota.
    rewrite IH by reflexivity. simpl_world.
    rewrite (last_cons_default xs x (dragCurrentX w)). reflexivity.
Qed.

(** X12.  A whole gesture is resolved at the release, from the last
    pointer position only: the lane index moves one lane right when
    the final displacement exceeds 40, one lane left when it is below
    -40 (both clamped to the three lanes), and stays otherwise, with
    the target X that of the new lane; intermediate moves do not
    matter.  The world after the gesture is the world before it with
    that lane and with the drag variables set (not dragging, start at
    the press, current at the last position): game state, score, high
    score, elapsed time, speed, player, segments, obstacles, clock,
    page and counters are untouched.  A move or a release without a
    press does nothing at all. *)
Theorem gesture_resolves_on_release (x0 : Q) (xs : list Q) (w : World) :
  let dx := last xs x0 - x0 in
  let w' := run (gesture x0 xs) w in
  w' = set_drag false x0 (last xs x0)
         (if Qlt_le_dec SWIPE_THRESHOLD dx
          then setLane (currentLaneIndex w + 1) w
          else if Qlt_le_dec dx (- SWIPE_THRESHOLD)
               then setLane (currentLaneIndex w - 1) w
               else w) /\
  currentLaneIndex w' =
    (if Qlt_le_dec SWIPE_THRESHOLD dx then clampLane (currentLaneIndex w + 1)
     else if Qlt_le_dec dx (- SWIPE_THRESHOLD)
          then clampLane (currentLaneIndex w - 1)
          else currentLaneIndex w) /\
  targetLaneX w' =
    (if Qlt_le_dec SWIPE_THRESHOLD dx
     then laneX (clampLane (currentLaneIndex w + 1))
     else if Qlt_le_dec dx (- SWIPE_THRESHOLD)
          then laneX (clampLane (currentLaneIndex w - 1))
          else targetLaneX w) /\
  ((0 <= currentLaneIndex w <= 2)%Z ->
   (currentLaneIndex w - 1 <= currentLaneIndex w' <= currentLaneIndex w + 1)%Z) /\
  isDragging w' = false /\ dragStartX w' = x0 /\
  dragCurrentX w' = last xs x0 /\
  gameState w' = gameState w /\ score w' = score w /\
  highScore w' = highScore w /\
  elapsedSinceStart w' = elapsedSinceStart w /\
  forwardSpeed w' = forwardSpeed w /\
  player w' = player w /\ obstacles w' = obstacles w /\
  slideSegments w' = slideSegments w /\
  lastTime w' = lastTime w /\ dom w' = dom w /\
  nextId w' = nextId w /\ randomCalls w' = randomCalls w /\
  (isDragging w = false ->
   handle PointerUp w = w /\ forall x, handle (PointerMove x) w = w).
Proof.
  cbv zeta.
  assert (E : run (gesture x0 xs) w =
              set_drag false x0 (last xs x0)
                (if Qlt_le_dec SWIPE_THRESHOLD (last xs x0 - x0)
                 then setLane (currentLaneIndex w + 1) w
                 else if Qlt_le_dec (last xs x0 - x0) (- SWIPE_THRESHOLD)
                      then setLane (currentLaneIndex w - 1) w
                      else w)).
  { unfold gesture.
    change (run (PointerDown x0 :: map PointerMove xs ++ [PointerUp]) w)
      with (run (map PointerMove xs ++ [PointerUp]) (onPointerDown x0 w)).
    rewrite run_app, run_moves by reflexivity.
    unfold onPointerDown. simpl_world.
    change (run [PointerUp] ?v) with (onPointerUp v).
    unfold run. simpl fold_left. simpl handle.
    unfold onPointerUp, setLane. simpl_world.
    destruct (Qlt_le_dec SWIPE_THRESHOLD (last xs x0 - x0));
      [|destruct (Qlt_le_dec (last xs x0 - x0) (- SWIPE_THRESHOLD))];
      reflexivity. }
  split; [exact E|]. rewrite E. unfold setLane.
  split; [|split; [|split]].
  - destruct (Qlt_le_dec SWIPE_THRESHOLD (last xs x0 - x0));
      [|destruct (Qlt_le_dec (last xs x0 - x0) (- SWIPE_THRESHOLD))];
      reflexivity.
  - destruct (Qlt_le_dec SWIPE_THRESHOLD (last xs x0 - x0));
      [|destruct (Qlt_le_dec (last xs x0 - x0) (- SWIPE_THRESHOLD))];
      reflexivity.
  - intros Hi.
    destruct (Qlt_le_dec SWIPE_THRESHOLD (last xs x0 - x0));
      [|destruct (Qlt_le_dec (last xs x0 - x0) (- SWIPE_THRESHOLD))];
      simpl_world; unfold clampLane; simpl; lia.
  - repeat (split;
      [destruct (Qlt_le_dec SWIPE_THRESHOLD (last xs x0 - x0));
         [|destruct (Qlt_le_dec (last xs x0 - x0) (- SWIPE_THRESHOLD))];
         reflexivity|]).
    intros Hd. simpl handle. split.
    + unfold onPointerUp. rewrite Hd. reflexivity.
    + intros x. unfold onPointerMove. rewrite Hd. reflexivity.
Qed.

(** ** Obstacle heights *)

Definition heights_ok (obs : list Mesh) : Prop :=
  Forall (fun o => position_y o = 6#10) obs.

Lemma heights_ok_filter g obs : heights_ok obs -> heights_ok (filter g obs).
Proof.
  unfold heights_ok. rewrite !Forall_forall. intros H o Ho.
  apply filter_In in Ho. apply H. tauto.
Qed.

Lemma heights_ok_spawn seg w :
  heights_ok (obstacles w) -> heights_ok (obstacles (spawnObstacleOnSegment seg w)).
Proof.
  intros H. destruct (spawn_extends seg w) as (new & E & _ & F).
  rewrite E. apply Forall_app. split; assumption.
Qed.

Lemma heights_ok_updateSegment delta seg w :
  heights_ok (obstacles w) ->
  heights_ok (obstacles (snd (updateSegment delta seg w))).
Proof.
  intros H. unfold updateSegment, Math_random.
  destruct (Qlt_le_dec _ _); cbv beta iota zeta; unfold snd; [|exact H].
  apply heights_ok_spawn. simpl_world. apply heights_ok_filter. exact H.
Qed.

Lemma heights_ok_updateSegments delta segs : forall w,
  heights_ok (obstacles w) ->
  heights_ok (obstacles (snd (updateSegments delta segs w))).
Proof.
  induction segs as [|seg rest IH]; intros w H; simpl; [exact H|].
  pose proof (heights_ok_updateSegment delta seg w H) as H1.
  destruct (updateSegment delta seg w) as [seg' w1]. simpl in H1.
  specialize (IH w1 H1).
  destruct (updateSegments delta rest w1) as [rest' w2]. exact IH.
Qed.

Lemma heights_ok_beforeCollisions delta w :
  heights_ok (obstacles w) -> heights_ok (obstacles (beforeCollisions delta w)).
Proof.
  intros H. unfold beforeCollisions. cbv zeta.
  match goal with
  | |- context [updateSegments ?d ?l ?v] =>
      assert (H1 : heights_ok (obstacles v))
        by (unfold movePlayer, updateHud; simpl_world;
            destruct (player w); simpl_world; exact H);
      pose proof (heights_ok_updateSegments d l v H1) as H2;
      destruct (updateSegments d l v) as [segs w6]
  end.
  simpl in H2. unfold moveObstacles. simpl_world.
  unfold heights_ok in *. rewrite Forall_forall in *.
  intros o Ho. apply in_map_iff in Ho. destruct Ho as (o' & <- & Ho').
  simpl_world. apply H2. exact Ho'.
Qed.

Lemma heights_ok_checkCollisions w :
  NoDup (map id (obstacles w)) ->
  heights_ok (obstacles w) -> heights_ok (obstacles (checkCollisions w)).
Proof.
  intros Hd H. unfold checkCollisions.
  destruct (player w) as [p|]; [|exact H].
  destruct (scanObstacles p (obstacles w) []) as [tr|].
  - simpl_world. rewrite removeAll_filter by exact Hd.
    apply heights_ok_filter. exact H.
  - destruct (triggerGameOver_fields w) as (_ & _ & _ & Eo). rewrite Eo. exact H.
Qed.

Lemma heights_ok_createWorld w : heights_ok (obstacles (createWorld w)).
Proof.
  unfold createWorld. cbv zeta. rewrite obstacles_placePlayer.
  destruct (createSegments_extends SEGMENT_COUNT 0
              (set_obstacles [] (set_slideSegments [] w)))
    as (new & E & _ & F).
  rewrite E. exact F.
Qed.

Lemma heights_ok_reachable w : reachable w -> heights_ok (obstacles w).
Proof.
  induction 1 as [| e w Hr IH Ha].
  - unfold initialWorld.
    destruct (updateHud_pool (createWorld moduleInit)) as (_ & Eo & _).
    rewrite Eo. apply heights_ok_createWorld.
  - destruct e.
    + destruct (gameState w) eqn:Eg.
      * rewrite animate_idle by congruence. exact IH.
      * rewrite (animate_playing time w Eg).
        apply heights_ok_checkCollisions.
        -- apply pool_ok_beforeCollisions. apply (world_ok_reachable w Hr).
        -- apply heights_ok_beforeCollisions. exact IH.
      * rewrite animate_idle by congruence. exact IH.
    + destruct (pointer_keeps (PointerDown clientX) w)
        as (_ & _ & _ & _ & _ & _ & _ & Eo & _); try discriminate.
      rewrite Eo. exact IH.
    + destruct (pointer_keeps (PointerMove clientX) w)
        as (_ & _ & _ & _ & _ & _ & _ & Eo & _); try discriminate.
      rewrite Eo. exact IH.
    + destruct (pointer_keeps PointerUp w)
        as (_ & _ & _ & _ & _ & _ & _ & Eo & _); try discriminate.
      rewrite Eo. exact IH.
    + simpl. unfold handleOverlayTap.
      destruct (gameState w); try exact IH; rewrite startGame_split;
        destruct (afterCreate_pool (createWorld (beforeCreate w)))
          as (_ & Eo & _); rewrite Eo; apply heights_ok_createWorld.
Qed.


(** ** Lanes of the obstacles *)

(** [Math.random()] returns a number in [0, 1). *)
Definition fair : Prop := forall n, 0 <= rand n /\ rand n < 1.

Definition lanes_ok (obs : list Mesh) : Prop :=
  Forall (fun o => In (position_x o) LANE_X_POSITIONS) obs.

Lemma lanes_ok_filter g obs : lanes_ok obs -> lanes_ok (filter g obs).
Proof.
  unfold lanes_ok. rewrite !Forall_forall. intros H o Ho.
  apply filter_In in Ho. apply H. tauto.
Qed.

Lemma lanes_ok_spawn seg w :
  fair ->
  lanes_ok (obstacles w) -> lanes_ok (obstacles (spawnObstacleOnSegment seg w)).
Proof.
  intros Hf H. unfold spawnObstacleOnSegment, Math_random, newMesh.
  destruct (Qlt_le_dec _ _); simpl_world; [exact H|].
  apply Forall_app. split; [exact H|]. constructor; [|constructor].
  simpl_world. apply laneX_in_lanes.
  apply laneIndex_of_random_range; apply Hf.
Qed.

Lemma lanes_ok_updateSegment delta seg w :
  fair ->
  lanes_ok (obstacles w) ->
  lanes_ok (obstacles (snd (updateSegment delta seg w))).
Proof.
  intros Hf H. unfold updateSegment, Math_random.
  destruct (Qlt_le_dec _ _); cbv beta iota zeta; unfold snd; [|exact H].
  apply lanes_ok_spawn; [exact Hf|]. simpl_world. apply lanes_ok_filter. exact H.
Qed.

Lemma lanes_ok_updateSegments delta segs : forall w,
  fair ->
  lanes_ok (obstacles w) ->
  lanes_ok (obstacles (snd (updateSegments delta segs w))).
Proof.
  induction segs as [|seg rest IH]; intros w Hf H; simpl; [exact H|].
  pose proof (lanes_ok_updateSegment delta seg w Hf H) as H1.
  destruct (updateSegment delta seg w) as [seg' w1]. simpl in H1.
  specialize (IH w1 Hf H1).
  destruct (updateSegments delta rest w1) as [rest' w2]. exact IH.
Qed.

Lemma lanes_ok_beforeCollisions delta w :
  fair ->
  lanes_ok (obstacles w) -> lanes_ok (obstacles (beforeCollisions delta w)).
Proof.
  intros Hf H. unfold beforeCollisions. cbv zeta.
  match goal with
  | |- context [updateSegments ?d ?l ?v] =>
      assert (H1 : lanes_ok (obstacles v))
        by (unfold movePlayer, updateHud; simpl_world;
            destruct (player w); simpl_world; exact H);
      pose proof (lanes_ok_updateSegments d l v Hf H1) as H2;
      destruct (updateSegments d l v) as [segs w6]
  end.
  simpl in H2. unfold moveObstacles. simpl_world.
  unfold lanes_ok in *. rewrite Forall_forall in *.
  intros o Ho. apply in_map_iff in Ho. destruct Ho as (o' & <- & Ho').
  simpl_world. apply H2. exact Ho'.
Qed.

Lemma lanes_ok_checkCollisions w :
  NoDup (map id (obstacles w)) ->
  lanes_ok (obstacles w) -> lanes_ok (obstacles (checkCollisions w)).
Proof.
  intros Hd H. unfold checkCollisions.
  destruct (player w) as [p|]; [|exact H].
  destruct (scanObstacles p (obstacles w) []) as [tr|].
  - simpl_world. rewrite removeAll_filter by exact Hd.
    apply lanes_ok_filter. exact H.
  - destruct (triggerGameOver_fields w) as (_ & _ & _ & Eo). rewrite Eo. exact H.
Qed.

Lemma lanes_ok_createSegments n : forall i w,
  fair ->
  lanes_ok (obstacles w) -> lanes_ok (obstacles (createSegments n i w)).
Proof.
  induction n as [|n IH]; intros i w Hf H; simpl; [exact H|].
  unfold createSlideSegment, newMesh.
  apply IH; [exact Hf|]. apply lanes_ok_spawn; [exact Hf|].
  simpl_world. exact H.
Qed.

Lemma lanes_ok_createWorld w : fair -> lanes_ok (obstacles (createWorld w)).
Proof.
  intros Hf. unfold createWorld. cbv zeta. rewrite obstacles_placePlayer.
  apply lanes_ok_createSegments; [exact Hf|]. simpl_world. constructor.
Qed.

Lemma lanes_ok_reachable w : fair -> reachable w -> lanes_ok (obstacles w).
Proof.
  intros Hf. induction 1 as [| e w Hr IH Ha].
  - unfold initialWorld.
    destruct (updateHud_pool (createWorld moduleInit)) as (_ & Eo & _).
    rewrite Eo. apply lanes_ok_createWorld. exact Hf.
  - destruct e.
    + destruct (gameState w) eqn:Eg.
      * rewrite animate_idle by congruence. exact IH.
      * rewrite (animate_playing time w Eg).
        apply lanes_ok_checkCollisions.
        -- apply pool_ok_beforeCollisions. apply (world_ok_reachable w Hr).
        -- apply lanes_ok_beforeCollisions; [exact Hf | exact IH].
      * rewrite animate_idle by congruence. exact IH.
    + destruct (pointer_keeps (PointerDown clientX) w)
        as (_ & _ & _ & _ & _ & _ & _ & Eo & _); try discriminate.
      rewrite Eo. exact IH.
    + destruct (pointer_keeps (PointerMove clientX) w)
        as (_ & _ & _ & _ & _ & _ & _ & Eo & _); try discriminate.
      rewrite Eo. exact IH.
    + destruct (pointer_keeps PointerUp w)
        as (_ & _ & _ & _ & _ & _ & _ & Eo & _); try discriminate.
      rewrite Eo. exact IH.
    + simpl. unfold handleOverlayTap.
      destruct (gameState w); try exact IH; rewrite startGame_split;
        destruct (afterCreate_pool (createWorld (beforeCreate w)))
          as (_ & Eo & _); rewrite Eo; apply lanes_ok_createWorld; exact Hf.
Qed.

Lemma other_lane_is_far (a b : Q) :
  In a LANE_X_POSITIONS -> In b LANE_X_POSITIONS -> ~ a == b ->
  3#2 <= Qabs (a - b).
Proof.
  unfold LANE_X_POSITIONS. simpl.
  intros [<- | [<- | [<- | []]]] [<- | [<- | [<- | []]]] Hne;
    try (exfalso; apply Hne; reflexivity); vm_compute; discriminate.
Qed.

(** X28.  With random draws in [0, 1), every obstacle of every
    reachable state stands on one of the three lane positions, wherever
    the recycling has put it.  So once the player is within 0.4 of the
    X of its lane, and in particular once it has settled there, an
    obstacle that stands on another lane is at least 1.1 away in x and
    cannot hit, whatever its depth. *)
Theorem obstacles_stay_in_their_lanes (w : World) :
  (forall n, 0 <= rand n /\ rand n < 1) ->
  reachable w ->
  Forall (fun o => In (position_x o) LANE_X_POSITIONS) (obstacles w) /\
  forall p o, player w = Some p -> In o (obstacles w) ->
    Qabs (position_x p - targetLaneX w) <= 4#10 ->
    ~ position_x o == targetLaneX w ->
    hits p o = false.
Proof.
  intros Hf Hr. pose proof (lanes_ok_reachable w Hf Hr) as Hl.
  split; [exact Hl|].
  intros p o Hp Ho Hnear Hne.
  destruct (track_ok_reachable w Hr) as [[Hi Ht] _].
  assert (Htl : In (targetLaneX w) LANE_X_POSITIONS).
  { rewrite Ht. apply laneX_in_lanes. exact Hi. }
  unfold lanes_ok in Hl. rewrite Forall_forall in Hl.
  pose proof (other_lane_is_far _ _ (Hl o Ho) Htl Hne) as Hfar.
  destruct (hits p o) eqn:Eh; [|reflexivity]. exfalso.
  apply hits_iff in Eh. unfold distSq, combined, playerRadius, obstacleRadius in Eh.
  cbv zeta in Eh.
  set (a := position_x o - targetLaneX w) in *.
  set (b := position_x p - targetLaneX w) in *.
  set (dx := position_x o - position_x p) in *.
  set (dy := position_y o - position_y p) in *.
  set (dz := position_z o - position_z p) in *.
  assert (Edx : dx == a - b) by (unfold dx, a, b; ring).
  assert (Hdx : 11#10 <= dx \/ dx <= -(11#10)).
  { revert Hfar Hnear. apply Qabs_case; intros; revert Hnear;
      apply Qabs_case; intros; lra. }
  destruct Hdx; nra.
Qed.

End Game.

(** * Concrete sessions *)

(** A random source under which no obstacle is ever spawned. *)
Definition quiet : nat -> Q := fun _ => 9#10.

Definition swipeRight : list Event := [PointerDown 0; PointerMove 100; PointerUp].
Definition swipeLeft : list Event := [PointerDown 100; PointerMove 0; PointerUp].

(** The page just after the first tap on the overlay. *)
Definition started : World := handle quiet OverlayTap (initialWorld quiet).

Lemma started_reachable : reachable quiet started.
Proof. apply reach_step; [apply reach_init | exact I]. Qed.


Lemma setLane_requests_in_session :
  currentLaneIndex (setLane 5 started) = 2%Z /\
  currentLaneIndex (setLane (-7) started) = 0%Z /\
  targetLaneX (setLane 5 started) = 3#2.
Proof. vm_compute. repeat split. Qed.

Lemma forwardSpeed_is_linear_ramp_witness :
  elapsedSinceStart (handle quiet (Frame 50) started) == 1#20 /\
  elapsedSinceStart (handle quiet (Frame 50) started) =
    elapsedSinceStart started + frameDelta 50 started /\
  forwardSpeed (handle quiet (Frame 50) started) == 10 + (1#2) * (1#20) /\
  forwardSpeed started <= forwardSpeed (handle quiet (Frame 50) started) /\
  elapsedSinceStart (run quiet (map Frame [50; 100]) started) =
    elapsedAfter 0 0 [50; 100] /\
  elapsedAfter 0 0 [50; 100] == 1#10.
Proof.
  destruct (forwardSpeed_is_linear_ramp quiet started started_reachable)
    as (_ & _ & H3 & H4 & H5 & _).
  destruct (H3 50) as (_ & Hup & _);
    [vm_compute; reflexivity | vm_compute; discriminate |].
  destruct (H4 50) as (Ee & Ef); [vm_compute; reflexivity|].
  assert (H2 : gameState (run quiet (map Frame [50; 100]) started) = PLAYING)
    by (vm_compute; reflexivity).
  pose proof (H5 [50; 100] H2) as Erun.
  split; [vm_compute; reflexivity|]. split; [exact Ee|].
  split; [vm_compute; reflexivity|]. split; [exact Hup|].
  split; [exact Erun | vm_compute; reflexivity].
Defined.

Lemma score_monotone_frozen_reset_witness :
  score started <= score (updateGame quiet (1#20) started) /\
  score (handle quiet OverlayTap (initialWorld quiet)) = 0.
Proof.
  destruct (score_monotone_frozen_reset quiet) as (H1 & _ & _ & H4).
  split.
  - apply H1. vm_compute. discriminate.
  - apply H4. left. vm_compute. reflexivity.
Defined.

(** A started game with one obstacle put in the player's lane, level
    with the player. *)
Definition blocked : World :=
  set_obstacles [mkMesh 17 0 (6#10) 0] (set_nextId 18 started).

Lemma highScore_is_max_at_game_over_witness :
  highScore (handle quiet (Frame 50) blocked) =
  Math_max (highScore blocked) (score (handle quiet (Frame 50) blocked)).
Proof.
  apply (highScore_is_max_at_game_over quiet (Frame 50) blocked).
  - vm_compute. reflexivity.
  - vm_compute. reflexivity.
Defined.

(** The started game after one swipe to the right. *)
Definition swiped : World := run quiet swipeRight started.


(** *** An obstacle on the player *)

(** A started game with an obstacle at exactly the player's position. *)
Definition onPlayer : World :=
  set_obstacles [mkMesh 17 0 1 0] (set_nextId 18 started).

Lemma obstacle_on_player_ends_game_witness :
  gameState (updateGame quiet (1#20) onPlayer) = GAME_OVER /\
  updateGame quiet (1#20) onPlayer =
    triggerGameOver (beforeCollisions quiet (1#20) onPlayer).
Proof.
  destruct (obstacle_on_player_ends_game quiet (1#20) onPlayer
              (mkMesh 8 0 1 0) (mkMesh 17 0 1 0)) as (H1 & H2 & _).
  - vm_compute. reflexivity.
  - vm_compute. reflexivity.
  - left. reflexivity.
  - reflexivity.
  - reflexivity.
  - reflexivity.
  - vm_compute. reflexivity.
  - apply not_sweptb_correct. vm_compute. reflexivity.
  - split; assumption.
Defined.

(** The player is half-way to the left lane when two swipes to the
    right retarget it to the right lane; the obstacle sits exactly on
    the player.  In the next tick the player steps 1.125 to the right,
    so the scan sees the obstacle 1.125 away in x (and 0.5025 in z):
    beyond the combined radius 1.1.  The game goes on. *)
Definition retargeted : World :=
  run quiet ([OverlayTap] ++ swipeLeft ++ [Frame 50] ++ swipeRight ++ swipeRight)
      (initialWorld quiet).

Definition retargetedOnPlayer : World :=
  set_obstacles [mkMesh 17 (-1500#2000) 1 0] (set_nextId 18 retargeted).

Lemma obstacle_on_player_can_be_missed :
  reachable quiet retargeted /\
  gameState retargetedOnPlayer = PLAYING /\
  player retargetedOnPlayer = Some (mkMesh 8 (-1500#2000) 1 0) /\
  obstacles retargetedOnPlayer = [mkMesh 17 (-1500#2000) 1 0] /\
  0 <= 1#20 <= MAX_DELTA /\
  gameState (updateGame quiet (1#20) retargetedOnPlayer) = PLAYING.
Proof.
  split.
  - apply reachable_run; [apply reach_init | vm_compute; reflexivity].
  - vm_compute. repeat split; discriminate.
Qed.

(** *** A stale obstacle at game over *)

(** Seventeen frames into a game: obstacle 17 (right lane) has almost
    reached the cleanup line behind the camera, obstacle 18 (centre
    lane) is about to reach the player. *)
Definition closing : World :=
  set_obstacles [mkMesh 17 (3#2) (6#10) (14073#800);
                 mkMesh 18 0 (6#10) (-(1207#800))]
    (set_nextId 19
       (set_slideSegments
          (map (fun seg => set_position_z (position_z seg + (6953#800)) seg)
               (slideSegments started))
          (set_lastTime 850
             (set_score (17#2)
                (set_forwardSpeed (417#40)
                   (set_elapsedSinceStart (17#20) started)))))).

Lemma stale_obstacle_survives_game_over_tick :
  gameState closing = PLAYING /\
  lastTime closing <= 900 /\
  pool_ok (obstacles closing) (nextId closing) /\
  forwardSpeed closing == baseForwardSpeed + (1#2) * elapsedSinceStart closing /\
  gameState (handle quiet (Frame 900) closing) = GAME_OVER /\
  exists o, In o (obstacles (handle quiet (Frame 900) closing)) /\
            camera_position_z + 10 < position_z o.
Proof.
  split; [reflexivity|]. split; [vm_compute; discriminate|]. split.
  - split.
    + simpl. repeat constructor; simpl; intuition discriminate.
    + repeat constructor; simpl; lia.
  - split; [vm_compute; reflexivity|]. split; [vm_compute; reflexivity|].
    eexists. split.
    + vm_compute. left. reflexivity.
    + vm_compute. reflexivity.
Qed.

(** A started game with one obstacle in the right lane about to cross
    the cleanup line behind the camera and one far ahead in the centre
    lane. *)
Definition crossing : World :=
  set_obstacles [mkMesh 17 (3#2) (6#10) (178#10); mkMesh 18 0 (6#10) (-(30))]
    (set_nextId 19 started).

Lemma no_stale_obstacle_after_hitless_tick_witness :
  Forall (fun o => position_z o <= camera_position_z + 10)
         (obstacles (handle quiet (Frame 50) crossing)) /\
  map id (obstacles crossing) = [17; 18]%nat /\
  map id (obstacles (handle quiet (Frame 50) crossing)) = [18]%nat /\
  Forall (fun o => position_z o <= camera_position_z + 10)
         (obstacles (handle quiet (Frame 50) started)).
Proof.
  split; [|split; [|split]].
  - apply (no_stale_obstacle_after_hitless_tick quiet 50 crossing).
    + right. split.
      * split; [repeat constructor; simpl; intuition discriminate
               | repeat constructor; simpl; lia].
      * exists (mkMesh 8 0 1 0). repeat split.
    + vm_compute. reflexivity.
    + vm_compute. reflexivity.
  - reflexivity.
  - vm_compute. reflexivity.
  - apply (no_stale_obstacle_after_hitless_tick quiet 50 started).
    + left. exact started_reachable.
    + vm_compute. reflexivity.
    + vm_compute. reflexivity.
Defined.

(** *** Swiping while the overlay is up *)

(** C8 on this code.  The pointer handlers never look at [gameState]:
    a swipe to the right made in READY moves the lane index from 1 to 2
    and the target X from 0 to 1.5; the same swipe in GAME_OVER does
    likewise.  The state itself is untouched. *)
Theorem swipe_outside_play_changes_lane :
  gameState (initialWorld quiet) = READY /\
  currentLaneIndex (initialWorld quiet) = 1%Z /\
  targetLaneX (initialWorld quiet) = 0 /\
  currentLaneIndex (run quiet swipeRight (initialWorld quiet)) = 2%Z /\
  targetLaneX (run quiet swipeRight (initialWorld quiet)) = 3#2 /\
  gameState (run quiet swipeRight (initialWorld quiet)) = READY /\
  gameState (handle quiet (Frame 50) blocked) = GAME_OVER /\
  currentLaneIndex (run quiet swipeRight (handle quiet (Frame 50) blocked)) = 2%Z /\
  gameState (run quiet swipeRight (handle quiet (Frame 50) blocked)) = GAME_OVER.
Proof. vm_compute. repeat split. Qed.

(** *** The loop's invariants in a session *)

Lemma lane_index_always_valid_witness :
  (0 <= currentLaneIndex started <= 2)%Z /\
  targetLaneX started = laneX (currentLaneIndex started).
Proof.
  destruct (lane_index_always_valid quiet started started_reachable)
    as (H1 & H2 & _).
  split; assumption.
Defined.

Lemma player_stays_on_track_witness :
  exists p, player started = Some p /\ position_y p = 1 /\ position_z p = 0 /\
            -(3#2) <= position_x p <= 3#2.
Proof. exact (player_stays_on_track quiet started started_reachable). Defined.

(** A random source under which every segment gets an obstacle in the
    centre lane, at the segment's centre: the first one sits on the
    player, and the first frame ends the game. *)
Definition crowded : nat -> Q := fun _ => 1#2.

Definition crashed : World :=
  run crowded [OverlayTap; Frame 50] (initialWorld crowded).

Lemma crashed_reachable : reachable crowded crashed.
Proof. apply reachable_run; [apply reach_init | vm_compute; reflexivity]. Qed.

Lemma highScore_never_decreases_witness :
  highScore blocked <= highScore (handle crowded (Frame 50) blocked) /\
  score crashed <= highScore crashed.
Proof.
  destruct (highScore_never_decreases crowded) as [H1 H2]. split.
  - apply H1.
  - apply H2; [exact crashed_reachable | vm_compute; reflexivity].
Defined.

Lemma state_machine_transitions_witness :
  gameState (handle quiet OverlayTap (initialWorld quiet)) = PLAYING /\
  (gameState (handle quiet PointerUp (initialWorld quiet)) = READY ->
   gameState (initialWorld quiet) = READY).
Proof.
  split.
  - destruct (state_machine_transitions quiet OverlayTap (initialWorld quiet))
      as (_ & _ & H3).
    apply H3. reflexivity.
  - destruct (state_machine_transitions quiet PointerUp (initialWorld quiet))
      as (_ & H2 & _).
    exact H2.
Defined.

Lemma frame_step_is_clamped_witness :
  0 <= frameDelta 50 started <= 1#20 /\
  score (handle quiet (Frame 50) started) = score started + frameDelta 50 started * 10 /\
  lastTime (handle quiet (Frame 50) started) = 50 /\
  frameDelta 50 started == 1#20.
Proof.
  destruct (frame_step_is_clamped quiet 50 started)
    as (H1 & _ & H3 & _ & H5 & H6).
  - vm_compute. reflexivity.
  - vm_compute. discriminate.
  - split; [exact H1|]. split; [exact H3|]. split; [exact H5|].
    apply H6. vm_compute. discriminate.
Defined.

(** A started game with one obstacle behind the cleanup line and one
    far ahead. *)
Definition passing : World :=
  set_obstacles [mkMesh 17 (3#2) (6#10) 20; mkMesh 18 0 (6#10) (-(30))]
    (set_nextId 19 started).

Lemma sweep_keeps_exactly_the_near_obstacles_witness :
  checkCollisions passing =
  set_obstacles (filter (fun o => negb (far o)) (obstacles passing)) passing.
Proof.
  apply (sweep_keeps_exactly_the_near_obstacles passing (mkMesh 8 0 1 0)).
  - vm_compute. reflexivity.
  - repeat constructor; simpl; intuition discriminate.
  - vm_compute. reflexivity.
Defined.


Lemma hit_needs_closeness_on_every_axis_witness :
  Qabs (position_x (mkMesh 17 (1#2) (6#10) (1#2)) - position_x (mkMesh 8 0 1 0)) < 11#10 /\
  Qabs (position_y (mkMesh 17 (1#2) (6#10) (1#2)) - position_y (mkMesh 8 0 1 0)) < 11#10 /\
  Qabs (position_z (mkMesh 17 (1#2) (6#10) (1#2)) - position_z (mkMesh 8 0 1 0)) < 11#10.
Proof.
  apply (hit_needs_closeness_on_every_axis (mkMesh 8 0 1 0)
           (mkMesh 17 (1#2) (6#10) (1#2))).
  vm_compute. reflexivity.
Defined.

Lemma spawn_places_at_most_one_obstacle_on_segment_witness :
  spawnObstacleOnSegment quiet (mkMesh 0 0 0 0) started =
    set_randomCalls (S (randomCalls started)) started /\
  exists box,
    obstacles (spawnObstacleOnSegment crowded (mkMesh 0 0 0 0) started) =
      obstacles started ++ [box] /\
    id box = nextId started /\
    In (position_x box) LANE_X_POSITIONS /\
    position_y box = 6#10.
Proof.
  split.
  - destruct (spawn_places_at_most_one_obstacle_on_segment quiet
                (mkMesh 0 0 0 0) started) as [H1 _].
    apply H1. vm_compute. reflexivity.
  - destruct (spawn_places_at_most_one_obstacle_on_segment crowded
                (mkMesh 0 0 0 0) started) as [_ H2].
    assert (Ha : crowded (randomCalls started) <= OBSTACLE_CHANCE_PER_SEGMENT)
      by (vm_compute; discriminate).
    assert (Hb : 0 <= crowded (S (randomCalls started)))
      by (vm_compute; discriminate).
    assert (Hc : crowded (S (randomCalls started)) < 1)
      by (vm_compute; reflexivity).
    assert (Hd : 0 <= crowded (S (S (randomCalls started))))
      by (vm_compute; discriminate).
    assert (He : crowded (S (S (randomCalls started))) < 1)
      by (vm_compute; reflexivity).
    destruct (H2 Ha Hb Hc Hd He) as (box & E1 & E2 & E3 & E4 & _).
    exists box. exact (conj E1 (conj E2 (conj E3 E4))).
Defined.

Lemma gesture_resolves_on_release_witness :
  currentLaneIndex (run quiet (gesture 0 [30#1; 100#1]) started) = 2%Z /\
  targetLaneX (run quiet (gesture 0 [30#1; 100#1]) started) = 3#2 /\
  (currentLaneIndex started - 1
   <= currentLaneIndex (run quiet (gesture 0 [30#1; 100#1]) started)
   <= currentLaneIndex started + 1)%Z /\
  handle quiet PointerUp started = started.
Proof.
  destruct (gesture_resolves_on_release quiet 0 [30#1; 100#1] started)
    as (_ & H1 & Ht & H2 & H).
  split; [exact H1|]. split; [exact Ht|]. split.
  - destruct H2 as [Hlo Hhi]; [vm_compute; split; discriminate|].
    split; [exact Hlo | exact Hhi].
  - destruct H as (_ & _ & _ & _ & _ & _ & _ & _ & _ & _ & _ & _ & _ & _ & _ & H9).
    destruct H9 as [Hup _]; [vm_compute; reflexivity | exact Hup].
Defined.


(** A random source under which every segment gets an obstacle in the
    left lane, a quarter of the way along the segment. *)
Definition leftish : nat -> Q := fun _ => 1#4.

(** One frame into a game under [leftish]: the player has not left the
    centre lane, the eight obstacles are all on the left one. *)
Definition leftLane : World :=
  run leftish [OverlayTap; Frame 50] (initialWorld leftish).

Lemma leftLane_reachable : reachable leftish leftLane.
Proof. apply reachable_run; [apply reach_init | vm_compute; reflexivity]. Qed.

Lemma leftLane_obstacles_left :
  forallb (fun o => negb (Qeq_bool (position_x o) (targetLaneX leftLane)))
          (obstacles leftLane) = true.
Proof. vm_compute. reflexivity. Qed.

Lemma obstacles_stay_in_their_lanes_witness :
  gameState leftLane = PLAYING /\
  length (obstacles leftLane) = 8%nat /\
  Forall (fun o => In (position_x o) LANE_X_POSITIONS) (obstacles leftLane) /\
  Forall (fun o => In (position_x o) LANE_X_POSITIONS) (obstacles crashed) /\
  exists p, player leftLane = Some p /\
            position_x p == targetLaneX leftLane /\
            forall o, In o (obstacles leftLane) -> hits p o = false.
Proof.
  assert (Hfair : forall r : Q, 0 <= r -> r < 1 ->
                  forall n : nat, 0 <= (fun _ : nat => r) n /\ (fun _ : nat => r) n < 1)
    by (intros r H0 H1 n; split; assumption).
  destruct (obstacles_stay_in_their_lanes leftish leftLane) as [H1 H2].
  { apply (Hfair (1#4)); [vm_compute; discriminate | vm_compute; reflexivity]. }
  { exact leftLane_reachable. }
  destruct (obstacles_stay_in_their_lanes crowded crashed) as [H3 _].
  { apply (Hfair (1#2)); [vm_compute; discriminate | vm_compute; reflexivity]. }
  { exact crashed_reachable. }
  split; [vm_compute; reflexivity|]. split; [vm_compute; reflexivity|].
  split; [exact H1|]. split; [exact H3|].
  exists (match player leftLane with Some p => p | None => mkMesh 0 0 0 0 end).
  split; [vm_compute; reflexivity|]. split; [vm_compute; reflexivity|].
  intros o Ho.
  apply (H2 _ o); [vm_compute; reflexivity | exact Ho | vm_compute; discriminate |].
  intros Hq. apply Qeq_bool_iff in Hq.
  pose proof leftLane_obstacles_left as Hall.
  rewrite forallb_forall in Hall. specialize (Hall o Ho).
  rewrite Hq in Hall. discriminate Hall.
Defined.

(** * The page shell: [src/main.ts]

    The shell has the same state machine and score variables as the
    game loop, a lane counter in -1..1 driven by touch and mouse moves,
    a high score saved to local storage, and a placeholder [updateGame]
    that only touches the score. *)

Module MainTs.

Record State := mkState {
  gameState : GameState;
  score : Q;
  highScore : Q;
  elapsedSinceStart : Q;
  forwardSpeed : Q;
  touchStartX : Q;
  touchStartY : Q;
  isDragging : bool;
  currentLane : Z;
  lastTime : Q;
  (** value last written under the key [blueSlideParkHighScore] *)
  savedHighScore : option Q;
  overlayShown : bool
}.

Definition baseForwardSpeed : Q := 10.

Definition set_gameState (v : GameState) (s : State) : State :=
  mkState v (score s) (highScore s) (elapsedSinceStart s) (forwardSpeed s)
    (touchStartX s) (touchStartY s) (isDragging s) (currentLane s)
    (lastTime s) (savedHighScore s) (overlayShown s).

Definition set_score (v : Q) (s : State) : State :=
  mkState (gameState s) v (highScore s) (elapsedSinceStart s) (forwardSpeed s)
    (touchStartX s) (touchStartY s) (isDragging s) (currentLane s)
    (lastTime s) (savedHighScore s) (overlayShown s).

Definition set_highScore (v : Q) (s : State) : State :=
  mkState (gameState s) (score s) v (elapsedSinceStart s) (forwardSpeed s)
    (touchStartX s) (touchStartY s) (isDragging s) (currentLane s)
    (lastTime s) (savedHighScore s) (overlayShown s).

Definition set_clock (e f : Q) (s : State) : State :=
  mkState (gameState s) (score s) (highScore s) e f
    (touchStartX s) (touchStartY s) (isDragging s) (currentLane s)
    (lastTime s) (savedHighScore s) (overlayShown s).

Definition set_touch (x y : Q) (d : bool) (lane : Z) (s : State) : State :=
  mkState (gameState s) (score s) (highScore s) (elapsedSinceStart s)
    (forwardSpeed s) x y d lane
    (lastTime s) (savedHighScore s) (overlayShown s).

Definition set_lastTime (v : Q) (s : State) : State :=
  mkState (gameState s) (score s) (highScore s) (elapsedSinceStart s)
    (forwardSpeed s) (touchStartX s) (touchStartY s) (isDragging s)
    (currentLane s) v (savedHighScore s) (overlayShown s).

Definition set_saved (v : option Q) (s : State) : State :=
  mkState (gameState s) (score s) (highScore s) (elapsedSinceStart s)
    (forwardSpeed s) (touchStartX s) (touchStartY s) (isDragging s)
    (currentLane s) (lastTime s) v (overlayShown s).

Definition set_overlay (v : bool) (s : State) : State :=
  mkState (gameState s) (score s) (highScore s) (elapsedSinceStart s)
    (forwardSpeed s) (touchStartX s) (touchStartY s) (isDragging s)
    (currentLane s) (lastTime s) (savedHighScore s) v.

(** [saveHighScore(score)]: writes the store, then [highScore = score]. *)
Definition saveHighScore (v : Q) (s : State) : State :=
  set_highScore v (set_saved (Some v) s).

Definition updateScore (newScore : Q) (s : State) : State :=
  let s1 := set_score newScore s in
  if Qlt_le_dec (highScore s1) (score s1) then saveHighScore (score s1) s1
  else s1.

(** [handleTouchStart] and [handleMouseDown]: the same body, on the
    first touch or on the mouse position. *)
Definition handleTouchStart (clientX clientY : Q) (s : State) : State :=
  match gameState s with
  | PLAYING => set_touch clientX clientY true (currentLane s) s
  | _ => s
  end.

(** [a < b] as a boolean, for conditions joined by [&&]. *)
Definition ltb (a b : Q) : bool := if Qlt_le_dec a b then true else false.

(** [handleTouchMove] and [handleMouseMove]. *)
Definition handleTouchMove (clientX clientY : Q) (s : State) : State :=
  if negb (isDragging s) || negb (GameState_eqb (gameState s) PLAYING) then s
  else
    let deltaX := clientX - touchStartX s in
    let deltaY := clientY - touchStartY s in
    if ltb (Qabs deltaY) (Qabs deltaX) && ltb 30 (Qabs deltaX) then
      if ltb 0 deltaX && (currentLane s <? 1)%Z then
        set_touch clientX (touchStartY s) (isDragging s) (currentLane s + 1) s
      else if ltb deltaX 0 && (-1 <? currentLane s)%Z then
        set_touch clientX (touchStartY s) (isDragging s) (currentLane s - 1) s
      else s
    else s.

(** [handleTouchEnd] and [handleMouseUp]. *)
Definition handleTouchEnd (s : State) : State :=
  set_touch (touchStartX s) (touchStartY s) false (currentLane s) s.

Definition resetGame (s : State) : State :=
  set_clock 0 baseForwardSpeed (set_score 0 s).

Definition startGame (s : State) : State :=
  set_overlay false (set_gameState PLAYING (resetGame s)).

Definition triggerGameOver (s : State) : State :=
  let s1 := set_gameState GAME_OVER s in
  let s2 := if Qlt_le_dec (highScore s1) (score s1)
            then set_highScore (score s1) s1 else s1 in
  set_overlay true s2.

Definition updateGame (delta : Q) (s : State) : State :=
  match gameState s with
  | PLAYING => updateScore (score s + inject_Z (Qfloor (delta * 10))) s
  | _ => s
  end.

Definition animate (time : Q) (s : State) : State :=
  let delta := Math_min ((time - lastTime s) / 1000) (5#100) in
  let s1 := set_lastTime time s in
  match gameState s1 with
  | PLAYING => updateGame delta s1
  | _ => s1
  end.

Definition handleTap (s : State) : State :=
  match gameState s with
  | READY | GAME_OVER => startGame s
  | PLAYING => s
  end.

(** The page as loaded, [loaded] being what [loadHighScore()] read. *)
Definition initial (loaded : Q) : State :=
  mkState READY 0 loaded 0 10 0 0 false 0 0 None true.

Inductive Event :=
| Frame (time : Q)
| Press (clientX clientY : Q)
| Move (clientX clientY : Q)
| Release
| Tap
| GameOverCall.

Definition handle (e : Event) (s : State) : State :=
  match e with
  | Frame time => animate time s
  | Press x y => handleTouchStart x y s
  | Move x y => handleTouchMove x y s
  | Release => handleTouchEnd s
  | Tap => handleTap s
  | GameOverCall => triggerGameOver s
  end.

Definition run (es : list Event) (s : State) : State :=
  fold_left (fun s e => handle e s) es s.

Definition admissible (e : Event) (s : State) : Prop :=
  match e with
  | Frame time => lastTime s <= time
  | _ => True
  end.

Inductive reachable (loaded : Q) : State -> Prop :=
| reach_init : reachable loaded (initial loaded)
| reach_step e s :
    reachable loaded s -> admissible e s -> reachable loaded (handle e s).

Definition isPointer (e : Event) : bool :=
  match e with
  | Press _ _ | Move _ _ | Release => true
  | _ => false
  end.

(** ** Properties of the shell *)

Lemma pointer_outside_play e s :
  isPointer e = true -> gameState s <> PLAYING ->
  gameState (handle e s) = gameState s /\
  currentLane (handle e s) = currentLane s /\
  score (handle e s) = score s /\ highScore (handle e s) = highScore s /\
  touchStartX (handle e s) = touchStartX s.
Proof.
  intros He Hs. destruct e; try discriminate; simpl.
  - unfold handleTouchStart. destruct (gameState s) eqn:Eg; try congruence;
      rewrite ?Eg; repeat split; reflexivity.
  - unfold handleTouchMove.
    destruct (gameState s) eqn:Eg; try congruence; simpl;
      rewrite orb_true_r, ?Eg; repeat split; reflexivity.
  - repeat split; reflexivity.
Qed.

(** X14.  Outside PLAYING the shell ignores pointer input: whatever
    presses, moves and releases arrive in READY or GAME_OVER, the lane,
    the game state, the scores and the drag origin stay as they are. *)
Theorem pointer_input_ignored_outside_play (es : list Event) (s : State) :
  gameState s <> PLAYING ->
  forallb isPointer es = true ->
  gameState (run es s) = gameState s /\
  currentLane (run es s) = currentLane s /\
  score (run es s) = score s /\ highScore (run es s) = highScore s /\
  touchStartX (run es s) = touchStartX s.
Proof.
  revert s. induction es as [|e es IH]; intros s Hs Hp; simpl in *.
  - repeat split; reflexivity.
  - apply andb_true_iff in Hp. destruct Hp as [He Hes].
    destruct (pointer_outside_play e s He Hs) as (Eg & El & Esc & Eh & Ex).
    destruct (IH (handle e s)) as (Eg' & El' & Esc' & Eh' & Ex');
      [congruence | exact Hes |].
    unfold run in *. rewrite Eg', El', Esc', Eh', Ex'.
    repeat split; assumption.
Qed.

Lemma lane_step e s :
  (-1 <= currentLane s <= 1)%Z ->
  (-1 <= currentLane (handle e s) <= 1)%Z /\
  (currentLane s - 1 <= currentLane (handle e s) <= currentLane s + 1)%Z.
Proof.
  intros Hl. destruct e; simpl.
  - unfold animate, updateGame, updateScore. simpl.
    destruct (gameState s); simpl; try lia.
    destruct (Qlt_le_dec _ _); simpl; lia.
  - unfold handleTouchStart. destruct (gameState s); simpl; lia.
  - unfold handleTouchMove.
    destruct (negb (isDragging s) || _); [lia|]. cbv zeta.
    destruct (ltb _ _ && ltb _ _); [|lia].
    destruct (ltb 0 _ && (currentLane s <? 1)%Z) eqn:E1.
    + apply andb_true_iff in E1. destruct E1 as [_ E1].
      apply Z.ltb_lt in E1. simpl. lia.
    + destruct (ltb _ 0 && (-1 <? currentLane s)%Z) eqn:E2; [|lia].
      apply andb_true_iff in E2. destruct E2 as [_ E2].
      apply Z.ltb_lt in E2. simpl. lia.
  - lia.
  - unfold handleTap, startGame. destruct (gameState s); simpl; lia.
  - unfold triggerGameOver. simpl. destruct (Qlt_le_dec _ _); simpl; lia.
Qed.

(** X15.  The shell's lane counter never leaves -1..1, and no single
    event moves it by more than one lane. *)
Theorem currentLane_stays_in_range (loaded : Q) (s : State) :
  reachable loaded s ->
  (-1 <= currentLane s <= 1)%Z /\
  forall e,
    (currentLane s - 1 <= currentLane (handle e s) <= currentLane s + 1)%Z.
Proof.
  intros Hr.
  assert (Hl : (-1 <= currentLane s <= 1)%Z).
  { induction Hr as [| e s Hr IH Ha]; [simpl; lia|].
    apply lane_step. exact IH. }
  split; [exact Hl|]. intros e. apply lane_step. exact Hl.
Qed.

(** X16.  [updateScore] stores the new score and keeps the high score
    at the maximum of its old value and the new score, saving it to the
    store exactly when it grows; afterwards score <= highScore. *)
Theorem updateScore_keeps_high_score_maximal (n : Q) (s : State) :
  let s' := updateScore n s in
  score s' = n /\
  highScore s' = Math_max (highScore s) n /\
  score s' <= highScore s' /\
  savedHighScore s' =
    (if Qlt_le_dec (highScore s) n then Some n else savedHighScore s) /\
  gameState s' = gameState s /\ currentLane s' = currentLane s.
Proof.
  cbv zeta. unfold updateScore, saveHighScore, Math_max. simpl.
  destruct (Qlt_le_dec (highScore s) n); simpl; repeat split;
    try reflexivity; lra.
Qed.

Lemma floor_of_small_step delta :
  0 <= delta -> delta <= 5#100 -> Qfloor (delta * 10) = 0%Z.
Proof.
  intros H0 H1.
  pose proof (Qfloor_le (delta * 10)) as Hle.
  pose proof (Qlt_floor (delta * 10)) as Hlt.
  assert (A : (Qfloor (delta * 10) <= 0)%Z).
  { apply Z.lt_succ_r. rewrite Zlt_Qlt.
    eapply Qle_lt_trans; [exact Hle|].
    change (inject_Z (Z.succ 0)) with 1. lra. }
  assert (B : (0 <= Qfloor (delta * 10))%Z).
  { apply Z.lt_succ_r. unfold Z.succ. rewrite Zlt_Qlt.
    eapply Qle_lt_trans; [|exact Hlt].
    change (inject_Z 0) with 0. lra. }
  lia.
Qed.

Definition frozen (loaded : Q) (s : State) : Prop :=
  score s == 0 /\ highScore s = loaded /\ savedHighScore s = None.

Ltac simpl_state :=
  cbn [gameState score highScore elapsedSinceStart forwardSpeed touchStartX
       touchStartY isDragging currentLane lastTime savedHighScore overlayShown
       set_gameState set_score set_highScore set_clock set_touch set_lastTime
       set_saved set_overlay saveHighScore] in *.

Lemma frozen_step loaded e s :
  0 <= loaded -> admissible e s -> frozen loaded s -> frozen loaded (handle e s).
Proof.
  intros Hl Ha (Hs & Hh & Hv). unfold frozen. destruct e; simpl handle.
  - simpl in Ha. unfold animate. cbv zeta. simpl_state.
    destruct (gameState s) eqn:Eg; simpl_state;
      try (repeat split; assumption).
    unfold updateGame. simpl_state. rewrite Eg.
    rewrite floor_of_small_step.
    + unfold updateScore. cbv zeta. simpl_state.
      destruct (Qlt_le_dec (highScore s) (score s + inject_Z 0)) as [Hlt|];
        simpl_state.
      * exfalso. rewrite Hh in Hlt. unfold inject_Z in Hlt. lra.
      * repeat split; try assumption. unfold inject_Z. lra.
    + unfold Math_min, Qdiv. change (/ 1000) with (1#1000).
      destruct (Qlt_le_dec _ _); lra.
    + unfold Math_min. destruct (Qlt_le_dec _ _); lra.
  - unfold handleTouchStart.
    destruct (gameState s); simpl_state; repeat split; assumption.
  - unfold handleTouchMove.
    destruct (negb (isDragging s) || _); [repeat split; assumption|].
    cbv zeta.
    destruct (ltb _ _ && ltb _ _); [|repeat split; assumption].
    destruct (ltb 0 _ && _); [simpl_state; repeat split; assumption|].
    destruct (ltb _ 0 && _); simpl_state; repeat split; assumption.
  - unfold handleTouchEnd. simpl_state. repeat split; assumption.
  - unfold handleTap, startGame, resetGame.
    destruct (gameState s); simpl_state; repeat split;
      try assumption; reflexivity.
  - unfold triggerGameOver. cbv zeta. simpl_state.
    destruct (Qlt_le_dec (highScore s) (score s)) as [Hlt|]; simpl_state.
    + exfalso. rewrite Hh in Hlt. lra.
    + repeat split; assumption.
Qed.

(** X17.  The shell's placeholder update never accrues score: frames
    are clamped to 0.05 s, so [Math.floor(delta * 10)] is 0 on every
    frame with a non-decreasing timestamp.  With a non-negative loaded
    high score, every reachable state has score 0, the loaded high
    score, and nothing written to the store. *)
Theorem shell_score_never_accrues (loaded : Q) (s : State) :
  0 <= loaded ->
  reachable loaded s ->
  score s == 0 /\ highScore s = loaded /\ savedHighScore s = None.
Proof.
  intros Hl Hr. induction Hr as [| e s Hr IH Ha].
  - repeat split; reflexivity.
  - apply (frozen_step loaded e s Hl Ha IH).
Qed.

(** ** A session of the shell *)

(** The shell after the first tap. *)
Definition shell_playing : State := handle Tap (initial 7).

Lemma shell_playing_reachable : reachable 7 shell_playing.
Proof. apply reach_step; [apply reach_init | exact I]. Qed.

Lemma pointer_input_ignored_outside_play_witness :
  currentLane (run [Press 0 0; Move 100 0; Release] (initial 7)) =
    currentLane (initial 7) /\
  gameState (run [Press 0 0; Move 100 0; Release] (initial 7)) = READY.
Proof.
  destruct (pointer_input_ignored_outside_play
              [Press 0 0; Move 100 0; Release] (initial 7))
    as (H1 & H2 & _).
  - discriminate.
  - reflexivity.
  - split; [exact H2 | exact H1].
Defined.

Lemma currentLane_stays_in_range_witness :
  (-1 <= currentLane (run [Press 0 0; Move 100 0] shell_playing) <= 1)%Z.
Proof.
  apply (currentLane_stays_in_range 7 (run [Press 0 0; Move 100 0] shell_playing)).
  apply reach_step; [apply reach_step; [exact shell_playing_reachable | exact I]
                    | exact I].
Defined.

Lemma shell_score_never_accrues_witness :
  score (handle (Frame 50) shell_playing) == 0 /\
  highScore (handle (Frame 50) shell_playing) = 7 /\
  savedHighScore (handle (Frame 50) shell_playing) = None.
Proof.
  apply (shell_score_never_accrues 7 (handle (Frame 50) shell_playing)).
  - vm_compute. discriminate.
  - apply reach_step; [exact shell_playing_reachable | vm_compute; discriminate].
Defined.

End MainTs.

(** * The fixed-step prototype (last listing of the loop file)

    An earlier version of the game: twenty track segments of length 10
    moved by a fixed 0.25 per frame, lanes at -2, 0, 2 switched by
    swipes, obstacles spawned in rows ahead of the track, and a box
    test for collisions.  [Box3.setFromObject] and [intersectsBox]
    belong to the rendering library; their combination is the parameter
    [intersects]. *)

Module Prototype.

Inductive State := Menu | Playing | GameOver.

Inductive OverlayText := TapToStartText | GameOverText.

Record Game := mkGame {
  gameState : State;
  playerMesh : option Mesh;
  trackSegments : list Mesh;
  obstacles : list Mesh;
  currentScore : Q;
  bestScore : Q;
  lastObstacleZ : Q;
  currentLaneIndex : Z;
  touchStartX : option Q;
  (** [None] when the overlay is hidden *)
  overlay : option OverlayText;
  nextId : nat;
  randomCalls : nat
}.

Definition TRACK_SEGMENT_LENGTH : Q := 10.
Definition TRACK_SPEED : Q := 25#100.
Definition LANES : list Q := [-(2); 0; 2].
Definition segmentCount : nat := 20.
Definition maxZ : Q := 5.

(** [LANES[i]]; every read in the program is at an index in 0..2. *)
Definition lane (i : Z) : Q :=
  if (i <? 0)%Z then 0 else nth (Z.to_nat i) LANES 0.

Definition set_gameState (v : State) (g : Game) : Game :=
  mkGame v (playerMesh g) (trackSegments g) (obstacles g) (currentScore g)
    (bestScore g) (lastObstacleZ g) (currentLaneIndex g) (touchStartX g)
    (overlay g) (nextId g) (randomCalls g).

Definition set_player (v : option Mesh) (i : Z) (g : Game) : Game :=
  mkGame (gameState g) v (trackSegments g) (obstacles g) (currentScore g)
    (bestScore g) (lastObstacleZ g) i (touchStartX g)
    (overlay g) (nextId g) (randomCalls g).

Definition set_trackSegments (v : list Mesh) (g : Game) : Game :=
  mkGame (gameState g) (playerMesh g) v (obstacles g) (currentScore g)
    (bestScore g) (lastObstacleZ g) (currentLaneIndex g) (touchStartX g)
    (overlay g) (nextId g) (randomCalls g).

Definition set_obstacles (v : list Mesh) (g : Game) : Game :=
  mkGame (gameState g) (playerMesh g) (trackSegments g) v (currentScore g)
    (bestScore g) (lastObstacleZ g) (currentLaneIndex g) (touchStartX g)
    (overlay g) (nextId g) (randomCalls g).

Definition set_currentScore (v : Q) (g : Game) : Game :=
  mkGame (gameState g) (playerMesh g) (trackSegments g) (obstacles g) v
    (bestScore g) (lastObstacleZ g) (currentLaneIndex g) (touchStartX g)
    (overlay g) (nextId g) (randomCalls g).

Definition set_bestScore (v : Q) (g : Game) : Game :=
  mkGame (gameState g) (playerMesh g) (trackSegments g) (obstacles g)
    (currentScore g) v (lastObstacleZ g) (currentLaneIndex g) (touchStartX g)
    (overlay g) (nextId g) (randomCalls g).

Definition set_lastObstacleZ (v : Q) (g : Game) : Game :=
  mkGame (gameState g) (playerMesh g) (trackSegments g) (obstacles g)
    (currentScore g) (bestScore g) v (currentLaneIndex g) (touchStartX g)
    (overlay g) (nextId g) (randomCalls g).

Definition set_touchStartX (v : option Q) (g : Game) : Game :=
  mkGame (gameState g) (playerMesh g) (trackSegments g) (obstacles g)
    (currentScore g) (bestScore g) (lastObstacleZ g) (currentLaneIndex g) v
    (overlay g) (nextId g) (randomCalls g).

Definition setOverlay (text : option OverlayText) (g : Game) : Game :=
  mkGame (gameState g) (playerMesh g) (trackSegments g) (obstacles g)
    (currentScore g) (bestScore g) (lastObstacleZ g) (currentLaneIndex g)
    (touchStartX g) text (nextId g) (randomCalls g).

Definition set_nextId (v : nat) (g : Game) : Game :=
  mkGame (gameState g) (playerMesh g) (trackSegments g) (obstacles g)
    (currentScore g) (bestScore g) (lastObstacleZ g) (currentLaneIndex g)
    (touchStartX g) (overlay g) v (randomCalls g).

Definition set_randomCalls (v : nat) (g : Game) : Game :=
  mkGame (gameState g) (playerMesh g) (trackSegments g) (obstacles g)
    (currentScore g) (bestScore g) (lastObstacleZ g) (currentLaneIndex g)
    (touchStartX g) (overlay g) (nextId g) v.

Ltac simpl_game :=
  cbn [gameState playerMesh trackSegments obstacles currentScore bestScore
       lastObstacleZ currentLaneIndex touchStartX overlay nextId randomCalls
       set_gameState set_player set_trackSegments set_obstacles
       set_currentScore set_bestScore set_lastObstacleZ set_touchStartX
       setOverlay set_nextId set_randomCalls
       id position_x position_y position_z set_position_x set_position_z
       fst snd] in *.

Section Loop.

Variable rand : nat -> Q.

(** [new Box3().setFromObject(player).intersectsBox(new Box3().setFromObject(ob))] *)
Variable intersects : Mesh -> Mesh -> bool.

Definition createPlayer (g : Game) : Game :=
  set_nextId (S (nextId g))
    (set_player (Some (mkMesh (nextId g) (lane 1) (1#2) 0)) 1 g).

(** The [for] loop of [createInitialTrack]. *)
Fixpoint createTrack (n i : nat) (g : Game) : Game :=
  match n with
  | O => g
  | S n' =>
      let mesh := mkMesh (nextId g) 0 0
                         (- inject_Z (Z.of_nat i) * TRACK_SEGMENT_LENGTH) in
      createTrack n' (S i)
        (set_nextId (S (nextId g))
           (set_trackSegments (trackSegments g ++ [mesh]) g))
  end.

Definition createInitialTrack (g : Game) : Game :=
  let g1 := set_obstacles [] (set_trackSegments [] g) in
  let g2 := set_lastObstacleZ (-(20)) g1 in
  createTrack segmentCount 0 g2.

Definition spawnObstacleRow (zPos : Q) (g : Game) : Game :=
  let r := rand (randomCalls g) in
  let g1 := set_randomCalls (S (randomCalls g)) g in
  let laneIndex := Qfloor (r * inject_Z (Z.of_nat (length LANES))) in
  let obstacle := mkMesh (nextId g1) (lane laneIndex) (1#2) zPos in
  set_lastObstacleZ zPos
    (set_nextId (S (nextId g1)) (set_obstacles (obstacles g1 ++ [obstacle]) g1)).

Definition movePlayerToLane (index : Z) (g : Game) : Game :=
  match playerMesh g, gameState g with
  | Some p, Playing =>
      if (index <? 0)%Z || (Z.of_nat (length LANES) <=? index)%Z then g
      else set_player (Some (set_position_x (lane index) p)) index g
  | _, _ => g
  end.

Definition startGame (g : Game) : Game :=
  let g1 := set_gameState Playing g in
  let g2 := set_currentScore 0 g1 in
  let g3 := createPlayer g2 in
  let g4 := createInitialTrack g3 in
  let g5 := spawnObstacleRow (-(25)) g4 in
  setOverlay None g5.

Definition endGame (g : Game) : Game :=
  let g1 := set_gameState GameOver g in
  let g2 := if Qlt_le_dec (bestScore g1) (currentScore g1)
            then set_bestScore (currentScore g1) g1 else g1 in
  setOverlay (Some GameOverText) g2.

Definition handleTapOrClick (g : Game) : Game :=
  match gameState g with
  | Menu | GameOver => startGame g
  | Playing => g
  end.

Definition onPointerDown (clientX : Q) (g : Game) : Game :=
  set_touchStartX (Some clientX) g.

Definition onPointerUp (clientX : Q) (g : Game) : Game :=
  match touchStartX g with
  | None => handleTapOrClick g
  | Some x0 =>
      let dx := clientX - x0 in
      let absDx := Qabs dx in
      let g1 :=
        if Qlt_le_dec absDx 20 then handleTapOrClick g
        else match gameState g with
             | Playing =>
                 if Qlt_le_dec dx 0
                 then movePlayerToLane (currentLaneIndex g - 1) g
                 else movePlayerToLane (currentLaneIndex g + 1) g
             | _ => g
             end in
      set_touchStartX None g1
  end.

(** [Math.min(...trackSegments.map(s => s.position.z))]; [None] is the
    [Infinity] of an empty track. *)
Definition minTrackZ (segs : list Mesh) : option Q :=
  match map position_z segs with
  | [] => None
  | z :: zs => Some (fold_left Math_min zs z)
  end.

(** [l[i] = v]. *)
Fixpoint replaceNth (i : nat) (v : Mesh) (l : list Mesh) : list Mesh :=
  match l, i with
  | [], _ => []
  | _ :: rest, O => v :: rest
  | m :: rest, S i' => m :: replaceNth i' v rest
  end.

(** Rounds [i], [i+1], ... of the recycling [forEach], [n] of them.
    Each round reads the minimum over the list as it then is. *)
Fixpoint recycleFrom (n i : nat) (segs : list Mesh) : list Mesh :=
  match n with
  | O => segs
  | S n' =>
      let segs' :=
        match nth_error segs i, minTrackZ segs with
        | Some seg, Some minZ =>
            if Qlt_le_dec maxZ (position_z seg)
            then replaceNth i (set_position_z (minZ - TRACK_SEGMENT_LENGTH) seg) segs
            else segs
        | _, _ => segs
        end in
      recycleFrom n' (S i) segs'
  end.

(** The collision [for] loop: does some obstacle intersect the player
    (the loop breaks at the first one)? *)
Definition anyIntersects (p : Mesh) (obs : list Mesh) : bool :=
  existsb (intersects p) obs.

Definition animate (g : Game) : Game :=
  match gameState g with
  | Playing =>
      let moved := map (fun seg => set_position_z (position_z seg + TRACK_SPEED) seg)
                       (trackSegments g) in
      let recycled := recycleFrom (length moved) 0 moved in
      let g1 := set_trackSegments recycled g in
      let g2 := set_obstacles
                  (map (fun o => set_position_z (position_z o + TRACK_SPEED) o)
                       (obstacles g1)) g1 in
      let g3 := match minTrackZ (trackSegments g2) with
                | Some m =>
                    if Qlt_le_dec (m - 20) (lastObstacleZ g2)
                    then spawnObstacleRow (lastObstacleZ g2 - 12) g2
                    else g2
                | None => g2
                end in
      let g4 := set_currentScore (currentScore g3 + TRACK_SPEED * (1#10)) g3 in
      match playerMesh g4 with
      | Some p => if anyIntersects p (obstacles g4) then endGame g4 else g4
      | None => g4
      end
  | _ => g
  end.

(** The page as loaded: [updateScoreUI(); setOverlay("Tap to start")]. *)
Definition initial : Game :=
  mkGame Menu None [] [] 0 0 0 1 None (Some TapToStartText) O O.

Inductive Event :=
| Frame
| PointerDown (clientX : Q)
| PointerUp (clientX : Q).

Definition handle (e : Event) (g : Game) : Game :=
  match e with
  | Frame => animate g
  | PointerDown x => onPointerDown x g
  | PointerUp x => onPointerUp x g
  end.

Definition run (es : list Event) (g : Game) : Game :=
  fold_left (fun g e => handle e g) es g.

Inductive reachable : Game -> Prop :=
| reach_init : reachable initial
| reach_step e g : reachable g -> reachable (handle e g).

(** ** Properties of the prototype *)

Lemma lane_in_LANES i : (0 <= i <= 2)%Z -> In (lane i) LANES.
Proof.
  intros Hi. assert (Hc : i = 0%Z \/ i = 1%Z \/ i = 2%Z) by lia.
  destruct Hc as [-> | [-> | ->]]; simpl; auto.
Qed.

(** X18.  [movePlayerToLane] rejects, rather than clamps, an index
    outside 0..2, and does nothing unless a player exists and the game
    is Playing; otherwise it sets the lane index and puts the player on
    that lane's x at once. *)
Theorem movePlayerToLane_rejects_bad_requests (index : Z) (g : Game) :
  ((index < 0)%Z \/ (3 <= index)%Z -> movePlayerToLane index g = g) /\
  (gameState g <> Playing -> movePlayerToLane index g = g) /\
  (playerMesh g = None -> movePlayerToLane index g = g) /\
  (forall p, (0 <= index <= 2)%Z -> gameState g = Playing ->
             playerMesh g = Some p ->
             movePlayerToLane index g =
             set_player (Some (set_position_x (lane index) p)) index g /\
             In (lane index) LANES).
Proof.
  unfold movePlayerToLane. repeat split.
  - intros Hbad. destruct (playerMesh g); [|reflexivity].
    destruct (gameState g); try reflexivity.
    destruct ((index <? 0)%Z || (Z.of_nat (length LANES) <=? index)%Z) eqn:E;
      [reflexivity|].
    apply orb_false_iff in E. destruct E as [E1 E2].
    apply Z.ltb_ge in E1. apply Z.leb_gt in E2. simpl in E2. lia.
  - intros Hs. destruct (playerMesh g); [|reflexivity].
    destruct (gameState g); try reflexivity. congruence.
  - intros Hp. rewrite Hp. reflexivity.
  - rewrite H1, H0.
    destruct ((index <? 0)%Z || (Z.of_nat (length LANES) <=? index)%Z) eqn:E;
      [|reflexivity].
    apply orb_true_iff in E. simpl in E. destruct E as [E | E].
    + apply Z.ltb_lt in E. lia.
    + apply Z.leb_le in E. lia.
  - apply lane_in_LANES. assumption.
Qed.

Lemma createTrack_shape n : forall i g,
  exists segs k,
    createTrack n i g = set_nextId k (set_trackSegments segs g) /\
    map position_z segs =
      map position_z (trackSegments g) ++
      map (fun j => - inject_Z (Z.of_nat j) * TRACK_SEGMENT_LENGTH) (seq i n).
Proof.
  induction n as [|n IH]; intros i g; simpl.
  - exists (trackSegments g), (nextId g). split; [destruct g; reflexivity|].
    rewrite app_nil_r. reflexivity.
  - match goal with
    | |- context [createTrack n ?j ?v] =>
        destruct (IH j v) as (segs & k & E & Hz); rewrite E
    end.
    exists segs, k. split; [reflexivity|].
    rewrite Hz. simpl_game. rewrite map_app, <- app_assoc. reflexivity.
Qed.

(** [startGame] is the track loop run between two groups of updates. *)
Definition beforeTrack (g : Game) : Game :=
  set_lastObstacleZ (-(20))
    (set_obstacles []
       (set_trackSegments []
          (createPlayer (set_currentScore 0 (set_gameState Playing g))))).

Definition afterTrack (v : Game) : Game :=
  setOverlay None (spawnObstacleRow (-(25)) v).

Lemma proto_startGame_split g :
  startGame g = afterTrack (createTrack segmentCount 0 (beforeTrack g)).
Proof. reflexivity. Qed.

Lemma afterTrack_beforeTrack segs k g :
  afterTrack (set_nextId k (set_trackSegments segs (beforeTrack g))) =
  mkGame Playing (Some (mkMesh (nextId g) 0 (1#2) 0)) segs
         [mkMesh k (lane (Qfloor (rand (randomCalls g) * 3))) (1#2) (-(25))]
         0 (bestScore g) (-(25)) 1 (touchStartX g) None (S k)
         (S (randomCalls g)).
Proof. reflexivity. Qed.

Lemma startGame_shape g :
  exists segs k,
    startGame g =
      mkGame Playing (Some (mkMesh (nextId g) 0 (1#2) 0)) segs
             [mkMesh k (lane (Qfloor (rand (randomCalls g) * 3))) (1#2) (-(25))]
             0 (bestScore g) (-(25)) 1 (touchStartX g) None (S k)
             (S (randomCalls g)) /\
    map position_z segs =
      map (fun j => - inject_Z (Z.of_nat j) * TRACK_SEGMENT_LENGTH)
          (seq 0 segmentCount).
Proof.
  rewrite proto_startGame_split.
  destruct (createTrack_shape segmentCount 0 (beforeTrack g))
    as (segs & k & E & Hz).
  rewrite E, afterTrack_beforeTrack.
  exists segs, k. split; [reflexivity | exact Hz].
Qed.

(** The part of a Playing frame before the score and collision steps. *)
Definition advanceWorld (g : Game) : Game :=
  let moved := map (fun seg => set_position_z (position_z seg + TRACK_SPEED) seg)
                   (trackSegments g) in
  let recycled := recycleFrom (length moved) 0 moved in
  let g1 := set_trackSegments recycled g in
  let g2 := set_obstacles
              (map (fun o => set_position_z (position_z o + TRACK_SPEED) o)
                   (obstacles g1)) g1 in
  match minTrackZ (trackSegments g2) with
  | Some m =>
      if Qlt_le_dec (m - 20) (lastObstacleZ g2)
      then spawnObstacleRow (lastObstacleZ g2 - 12) g2
      else g2
  | None => g2
  end.

(** The score and collision steps. *)
Definition scoreAndCollide (v : Game) : Game :=
  let g4 := set_currentScore (currentScore v + TRACK_SPEED * (1#10)) v in
  match playerMesh g4 with
  | Some p => if anyIntersects p (obstacles g4) then endGame g4 else g4
  | None => g4
  end.

Lemma animate_eq g :
  gameState g = Playing -> animate g = scoreAndCollide (advanceWorld g).
Proof. intros HP. unfold animate. rewrite HP. reflexivity. Qed.

Lemma proto_animate_idle g : gameState g <> Playing -> animate g = g.
Proof. intros HP. unfold animate. destruct (gameState g); congruence. Qed.

Lemma advanceWorld_fields g :
  gameState (advanceWorld g) = gameState g /\
  playerMesh (advanceWorld g) = playerMesh g /\
  currentLaneIndex (advanceWorld g) = currentLaneIndex g /\
  touchStartX (advanceWorld g) = touchStartX g /\
  currentScore (advanceWorld g) = currentScore g /\
  bestScore (advanceWorld g) = bestScore g.
Proof.
  unfold advanceWorld. cbv zeta.
  destruct (minTrackZ _) as [m|]; [destruct (Qlt_le_dec _ _)|];
    repeat split; reflexivity.
Qed.

Lemma scoreAndCollide_fields v :
  playerMesh (scoreAndCollide v) = playerMesh v /\
  currentLaneIndex (scoreAndCollide v) = currentLaneIndex v /\
  touchStartX (scoreAndCollide v) = touchStartX v /\
  currentScore (scoreAndCollide v) = currentScore v + TRACK_SPEED * (1#10) /\
  ((gameState (scoreAndCollide v) = gameState v /\
    bestScore (scoreAndCollide v) = bestScore v) \/
   (gameState (scoreAndCollide v) = GameOver /\
    bestScore (scoreAndCollide v) =
    Math_max (bestScore v) (currentScore v + TRACK_SPEED * (1#10)))).
Proof.
  unfold scoreAndCollide. cbv zeta. simpl_game.
  destruct (playerMesh v) as [p|] eqn:Ep.
  - destruct (anyIntersects p _).
    + unfold endGame, Math_max. cbv zeta. simpl_game.
      destruct (Qlt_le_dec _ _); simpl_game; repeat split; try assumption;
        right; split; reflexivity.
    + simpl_game. repeat split; try assumption. left. split; reflexivity.
  - simpl_game. repeat split; try assumption. left. split; reflexivity.
Qed.

(** What a Playing frame leaves alone and what it adds to the score. *)
Lemma proto_animate_playing g :
  gameState g = Playing ->
  playerMesh (animate g) = playerMesh g /\
  currentLaneIndex (animate g) = currentLaneIndex g /\
  touchStartX (animate g) = touchStartX g /\
  currentScore (animate g) = currentScore g + TRACK_SPEED * (1#10) /\
  ((gameState (animate g) = Playing /\ bestScore (animate g) = bestScore g) \/
   (gameState (animate g) = GameOver /\
    bestScore (animate g) =
    Math_max (bestScore g) (currentScore g + TRACK_SPEED * (1#10)))).
Proof.
  intros HP. rewrite (animate_eq g HP).
  destruct (advanceWorld_fields g) as (A0 & A1 & A2 & A3 & A4 & A5).
  destruct (scoreAndCollide_fields (advanceWorld g))
    as (S1 & S2 & S3 & S4 & S5).
  rewrite S1, S2, S3, S4, A1, A2, A3, A4.
  repeat split.
  destruct S5 as [[Sg Sb] | [Sg Sb]]; rewrite Sg, Sb.
  - left. rewrite A0, A5. split; [exact HP | reflexivity].
  - right. rewrite A4, A5. split; reflexivity.
Qed.

Lemma proto_startGame_fields g :
  gameState (startGame g) = Playing /\
  currentScore (startGame g) = 0 /\
  currentLaneIndex (startGame g) = 1%Z /\
  bestScore (startGame g) = bestScore g /\
  touchStartX (startGame g) = touchStartX g /\
  playerMesh (startGame g) = Some (mkMesh (nextId g) 0 (1#2) 0) /\
  lastObstacleZ (startGame g) = -(25) /\
  length (obstacles (startGame g)) = 1%nat.
Proof.
  destruct (startGame_shape g) as (segs & k & E & _). rewrite E.
  repeat split; reflexivity.
Qed.

(** X19.  A press followed by a release is a tap when the pointer moved
    less than 20 and a swipe otherwise.  A tap starts the game from the
    menu or after a game over and does nothing during play; a swipe
    changes lane during play (left for a negative displacement, right
    otherwise) and does nothing outside play: it never starts a game.
    A release with no press pending counts as a tap. *)
Theorem press_release_is_tap_or_swipe (x0 x1 : Q) (g : Game) :
  let g' := run [PointerDown x0; PointerUp x1] g in
  touchStartX g' = None /\
  (Qabs (x1 - x0) < 20 -> gameState g = Playing ->
   g' = set_touchStartX None g) /\
  (Qabs (x1 - x0) < 20 -> gameState g <> Playing ->
   gameState g' = Playing /\ currentScore g' = 0 /\
   currentLaneIndex g' = 1%Z /\ bestScore g' = bestScore g) /\
  (20 <= Qabs (x1 - x0) -> gameState g <> Playing ->
   g' = set_touchStartX None g) /\
  (20 <= Qabs (x1 - x0) -> gameState g = Playing ->
   g' = set_touchStartX None
          (movePlayerToLane
             (if Qlt_le_dec (x1 - x0) 0 then currentLaneIndex g - 1
              else currentLaneIndex g + 1)%Z
             (onPointerDown x0 g))) /\
  (touchStartX g = None -> onPointerUp x1 g = handleTapOrClick g).
Proof.
  cbv zeta.
  assert (E : run [PointerDown x0; PointerUp x1] g =
              set_touchStartX None
                (if Qlt_le_dec (Qabs (x1 - x0)) 20
                 then handleTapOrClick (onPointerDown x0 g)
                 else match gameState g with
                      | Playing =>
                          if Qlt_le_dec (x1 - x0) 0
                          then movePlayerToLane (currentLaneIndex g - 1)
                                                (onPointerDown x0 g)
                          else movePlayerToLane (currentLaneIndex g + 1)
                                                (onPointerDown x0 g)
                      | _ => onPointerDown x0 g
                      end)) by reflexivity.
  rewrite E. clear E.
  split; [reflexivity|]. split; [|split; [|split; [|split]]].
  - intros Hlt HP. destruct (Qlt_le_dec (Qabs (x1 - x0)) 20); [|lra].
    unfold handleTapOrClick, onPointerDown. simpl_game. rewrite HP. reflexivity.
  - intros Hlt HP. destruct (Qlt_le_dec (Qabs (x1 - x0)) 20); [|lra].
    unfold handleTapOrClick, onPointerDown. simpl_game.
    destruct (proto_startGame_fields (set_touchStartX (Some x0) g))
      as (E1 & E2 & E3 & E4 & _).
    destruct (gameState g); try congruence; simpl_game;
      rewrite E1, E2, E3, E4; repeat split; reflexivity.
  - intros Hge HP. destruct (Qlt_le_dec (Qabs (x1 - x0)) 20); [lra|].
    destruct (gameState g); try congruence; reflexivity.
  - intros Hge HP. destruct (Qlt_le_dec (Qabs (x1 - x0)) 20); [lra|].
    rewrite HP. destruct (Qlt_le_dec (x1 - x0) 0); reflexivity.
  - intros Hn. unfold onPointerUp. rewrite Hn. reflexivity.
Qed.

Definition player_ok (g : Game) : Prop :=
  (0 <= currentLaneIndex g <= 2)%Z /\
  (gameState g = Menu -> playerMesh g = None) /\
  (forall p, playerMesh g = Some p ->
     position_x p = lane (currentLaneIndex g) /\
     position_y p = 1#2 /\ position_z p = 0) /\
  (gameState g <> Menu -> exists p, playerMesh g = Some p).

Lemma player_ok_fresh id0 segs obs sc b lz t ov k r :
  player_ok (mkGame Playing (Some (mkMesh id0 0 (1#2) 0)) segs obs sc b lz 1
                    t ov k r).
Proof.
  unfold player_ok. simpl_game. split; [lia|]. split; [discriminate|].
  split.
  - intros p Hp. inversion Hp. simpl. repeat split; reflexivity.
  - intros _. eexists. reflexivity.
Qed.

Lemma player_ok_startGame g : player_ok (startGame g).
Proof.
  destruct (startGame_shape g) as (segs & k & E & _). rewrite E.
  apply player_ok_fresh.
Qed.

Lemma player_ok_tap g : player_ok g -> player_ok (handleTapOrClick g).
Proof.
  intros H. unfold handleTapOrClick.
  destruct (gameState g); try exact H; apply player_ok_startGame.
Qed.

Lemma player_ok_touch t g : player_ok g -> player_ok (set_touchStartX t g).
Proof. intros H. exact H. Qed.

Lemma player_ok_move index g : player_ok g -> player_ok (movePlayerToLane index g).
Proof.
  intros H. unfold movePlayerToLane.
  destruct (playerMesh g) as [p|] eqn:Ep; [|exact H].
  destruct (gameState g) eqn:Eg; try exact H.
  destruct ((index <? 0)%Z || (Z.of_nat (length LANES) <=? index)%Z) eqn:E;
    [exact H|].
  apply orb_false_iff in E. destruct E as [E1 E2].
  apply Z.ltb_ge in E1. apply Z.leb_gt in E2. simpl in E2.
  destruct H as (Hl & Hm & Hp & He).
  destruct (Hp p Ep) as (_ & Hy & Hz).
  unfold player_ok. simpl_game. rewrite Eg. split; [lia|].
  split; [discriminate|]. split.
  - intros p' Hp'. inversion Hp'. simpl. repeat split; assumption.
  - intros _. eexists. reflexivity.
Qed.

Lemma player_ok_step e g : player_ok g -> player_ok (handle e g).
Proof.
  intros H. destruct e; simpl.
  - destruct (gameState g) eqn:Eg.
    + rewrite proto_animate_idle by congruence. exact H.
    + destruct (proto_animate_playing g Eg) as (E1 & E2 & _ & _ & E5).
      destruct H as (Hl & Hm & Hp & He).
      unfold player_ok. rewrite E1, E2.
      repeat split; try lia; try assumption.
      * intros HM. destruct E5 as [[Sg _] | [Sg _]]; congruence.
      * apply Hp. assumption.
      * apply Hp. assumption.
      * apply Hp. assumption.
      * intros _. apply He. congruence.
    + rewrite proto_animate_idle by congruence. exact H.
  - apply player_ok_touch. exact H.
  - unfold onPointerUp. destruct (touchStartX g) as [x0|].
    + cbv zeta. apply player_ok_touch.
      destruct (Qlt_le_dec _ 20); [apply player_ok_tap; exact H|].
      destruct (gameState g); try exact H.
      destruct (Qlt_le_dec _ 0); apply player_ok_move; exact H.
    + apply player_ok_tap. exact H.
Qed.

(** X20.  In every reachable state of the prototype the lane index is
    0, 1 or 2; there is no player in the menu and there is one ever
    after; and the player stands exactly on its lane's x, at height
    0.5 and depth 0. *)
Theorem prototype_player_is_on_its_lane (g : Game) :
  reachable g ->
  (0 <= currentLaneIndex g <= 2)%Z /\
  (gameState g = Menu -> playerMesh g = None) /\
  (forall p, playerMesh g = Some p ->
     position_x p = lane (currentLaneIndex g) /\
     position_y p = 1#2 /\ position_z p = 0) /\
  (gameState g <> Menu -> exists p, playerMesh g = Some p).
Proof.
  induction 1 as [| e g Hr IH].
  - unfold initial. repeat split; simpl; try lia; try discriminate; congruence.
  - apply player_ok_step. exact IH.
Qed.

Lemma movePlayerToLane_scores index g :
  gameState (movePlayerToLane index g) = gameState g /\
  currentScore (movePlayerToLane index g) = currentScore g /\
  bestScore (movePlayerToLane index g) = bestScore g /\
  trackSegments (movePlayerToLane index g) = trackSegments g /\
  obstacles (movePlayerToLane index g) = obstacles g /\
  lastObstacleZ (movePlayerToLane index g) = lastObstacleZ g.
Proof.
  unfold movePlayerToLane.
  destruct (playerMesh g); [|repeat split; reflexivity].
  destruct (gameState g) eqn:Eg;
    try (repeat split; try reflexivity; exact Eg).
  destruct ((index <? 0)%Z || (Z.of_nat (length LANES) <=? index)%Z);
    repeat split; try reflexivity; exact Eg.
Qed.

Lemma tap_scores g :
  (gameState (handleTapOrClick g) = gameState g /\
   currentScore (handleTapOrClick g) = currentScore g /\
   bestScore (handleTapOrClick g) = bestScore g) \/
  (gameState (handleTapOrClick g) = Playing /\
   currentScore (handleTapOrClick g) = 0 /\
   bestScore (handleTapOrClick g) = bestScore g).
Proof.
  unfold handleTapOrClick.
  destruct (proto_startGame_fields g) as (E1 & E2 & _ & E4 & _).
  destruct (gameState g) eqn:Eg.
  - right. repeat split; assumption.
  - left. repeat split; try reflexivity. exact Eg.
  - right. repeat split; assumption.
Qed.

Lemma pointerUp_scores x g :
  (gameState (onPointerUp x g) = gameState g /\
   currentScore (onPointerUp x g) = currentScore g /\
   bestScore (onPointerUp x g) = bestScore g) \/
  (gameState (onPointerUp x g) = Playing /\
   currentScore (onPointerUp x g) = 0 /\
   bestScore (onPointerUp x g) = bestScore g).
Proof.
  unfold onPointerUp. destruct (touchStartX g) as [x0|]; [|apply tap_scores].
  cbv zeta.
  destruct (Qlt_le_dec _ 20).
  - destruct (tap_scores g) as [(A & B & C) | (A & B & C)]; [left | right];
      simpl_game; repeat split; assumption.
  - left. destruct (gameState g) eqn:Eg; simpl_game;
      try (repeat split; try reflexivity; exact Eg).
    destruct (Qlt_le_dec _ 0);
      match goal with
      | |- context [movePlayerToLane ?i g] =>
          destruct (movePlayerToLane_scores i g) as (A & B & C & _)
      end; rewrite A, B, C, Eg; repeat split; reflexivity.
Qed.

Definition scores_ok (g : Game) : Prop :=
  0 <= currentScore g /\
  (gameState g = GameOver -> currentScore g <= bestScore g).

Lemma scores_ok_step e g : scores_ok g -> scores_ok (handle e g).
Proof.
  intros [H0 HG]. destruct e; simpl.
  - destruct (gameState g) eqn:Eg.
    + rewrite proto_animate_idle by congruence. split; [exact H0|]. congruence.
    + destruct (proto_animate_playing g Eg) as (_ & _ & _ & Es & Eb).
      unfold scores_ok. rewrite Es. unfold TRACK_SPEED. split; [lra|].
      destruct Eb as [[Sg Sb] | [Sg Sb]]; rewrite Sg, Sb; [discriminate|].
      intros _. apply Math_max_ge.
    + rewrite proto_animate_idle by congruence. split; [exact H0|].
      intros _. apply HG. reflexivity.
  - split; [exact H0 | exact HG].
  - destruct (pointerUp_scores clientX g) as [(A & B & C) | (A & B & C)];
      unfold scores_ok; rewrite A, B, C.
    + split; assumption.
    + split; [lra | discriminate].
Qed.

(** X21.  In the prototype the best score is never lowered by any
    event; every Playing frame, including the one that ends the game,
    adds exactly TRACK_SPEED / 10 to the score; and in every reachable
    state the score is non-negative and, once the game is over, at
    most the best score. *)
Theorem prototype_scores_are_consistent :
  (forall e g, bestScore g <= bestScore (handle e g)) /\
  (forall g, gameState g = Playing ->
             currentScore (handle Frame g) = currentScore g + (25#1000)) /\
  (forall g, reachable g ->
             0 <= currentScore g /\
             (gameState g = GameOver -> currentScore g <= bestScore g)).
Proof.
  split; [|split].
  - intros e g. destruct e; simpl.
    + destruct (gameState g) eqn:Eg.
      * rewrite proto_animate_idle by congruence. apply Qle_refl.
      * destruct (proto_animate_playing g Eg) as (_ & _ & _ & _ & Eb).
        destruct Eb as [[_ Sb] | [_ Sb]]; rewrite Sb;
          [apply Qle_refl | apply Math_max_ge].
      * rewrite proto_animate_idle by congruence. apply Qle_refl.
    + apply Qle_refl.
    + destruct (pointerUp_scores clientX g) as [(_ & _ & C) | (_ & _ & C)];
        rewrite C; apply Qle_refl.
  - intros g HP. simpl.
    destruct (proto_animate_playing g HP) as (_ & _ & _ & Es & _). rewrite Es.
    reflexivity.
  - intros g Hr. induction Hr as [| e g Hr IH].
    + split; [apply Qle_refl | discriminate].
    + apply scores_ok_step. exact IH.
Qed.

(** ** The prototype's track and obstacle supply *)

Lemma fold_min_spec zs : forall z,
  In (fold_left Math_min zs z) (z :: zs) /\
  Forall (fun x => fold_left Math_min zs z <= x) (z :: zs).
Proof.
  induction zs as [|y ys IH]; intros z; simpl.
  - split; [left; reflexivity | constructor; [apply Qle_refl | constructor]].
  - destruct (IH (Math_min z y)) as [Hin Hall]. split.
    + destruct Hin as [E | Hin]; [|right; right; exact Hin].
      rewrite <- E. unfold Math_min. destruct (Qlt_le_dec y z); auto.
    + inversion Hall as [|? ? Hm Hrest]; subst.
      assert (Hz : Math_min z y <= z /\ Math_min z y <= y)
        by (unfold Math_min; destruct (Qlt_le_dec y z); split; lra).
      constructor; [lra|]. constructor; [lra | exact Hrest].
Qed.

Lemma minTrackZ_spec segs m :
  minTrackZ segs = Some m ->
  (exists seg, In seg segs /\ position_z seg = m) /\
  (forall seg, In seg segs -> m <= position_z seg).
Proof.
  unfold minTrackZ. destruct segs as [|s0 rest]; simpl; [discriminate|].
  intros E. inversion E as [Em]. clear E.
  destruct (fold_min_spec (map position_z rest) (position_z s0)) as [Hin Hall].
  split.
  - change (position_z s0 :: map position_z rest)
      with (map position_z (s0 :: rest)) in Hin.
    apply in_map_iff in Hin. destruct Hin as (seg & E & Hin).
    exists seg. split; [exact Hin | exact E].
  - intros seg Hseg. rewrite Forall_forall in Hall. apply Hall.
    change (position_z s0 :: map position_z rest)
      with (map position_z (s0 :: rest)).
    apply in_map. exact Hseg.
Qed.

Lemma minTrackZ_nonempty s0 rest : exists m, minTrackZ (s0 :: rest) = Some m.
Proof. unfold minTrackZ. simpl. eexists. reflexivity. Qed.

Lemma recycleFrom_split a : forall b i segs,
  recycleFrom (a + b) i segs = recycleFrom b (i + a) (recycleFrom a i segs).
Proof.
  induction a as [|a IH]; intros b i segs; simpl.
  - rewrite Nat.add_0_r. reflexivity.
  - rewrite IH. f_equal. lia.
Qed.

(** Rounds that only visit segments at or before the line change
    nothing. *)
Lemma recycleFrom_noop n : forall i segs,
  (forall j seg, (i <= j < i + n)%nat -> nth_error segs j = Some seg ->
                 position_z seg <= maxZ) ->
  recycleFrom n i segs = segs.
Proof.
  induction n as [|n IH]; intros i segs H; simpl; [reflexivity|].
  assert (E : match nth_error segs i, minTrackZ segs with
              | Some seg, Some minZ =>
                  if Qlt_le_dec maxZ (position_z seg)
                  then replaceNth i (set_position_z (minZ - TRACK_SEGMENT_LENGTH) seg) segs
                  else segs
              | _, _ => segs
              end = segs).
  { destruct (nth_error segs i) as [seg|] eqn:En; [|reflexivity].
    destruct (minTrackZ segs); [|reflexivity].
    destruct (Qlt_le_dec maxZ (position_z seg)) as [Hlt|]; [|reflexivity].
    exfalso. specialize (H i seg ltac:(lia) En). lra. }
  rewrite E. apply IH. intros j seg Hj. apply H. lia.
Qed.

Lemma nth_error_middle {A} (pre : list A) x post :
  nth_error (pre ++ x :: post) (length pre) = Some x.
Proof. induction pre; simpl; auto. Qed.

Lemma replaceNth_middle pre x v post :
  replaceNth (length pre) v (pre ++ x :: post) = pre ++ v :: post.
Proof. induction pre as [|a pre IH]; simpl; [reflexivity|]. rewrite IH. reflexivity. Qed.

(** When exactly one segment is past the line, the loop moves that one
    to ten behind the farthest segment and leaves the others. *)
Lemma recycleFrom_one pre s post m :
  Forall (fun seg => position_z seg <= maxZ) pre ->
  Forall (fun seg => position_z seg <= maxZ) post ->
  maxZ < position_z s ->
  minTrackZ (pre ++ s :: post) = Some m ->
  m - TRACK_SEGMENT_LENGTH <= maxZ ->
  recycleFrom (length (pre ++ s :: post)) 0 (pre ++ s :: post) =
  pre ++ set_position_z (m - TRACK_SEGMENT_LENGTH) s :: post.
Proof.
  intros Hpre Hpost Hs Hm Hnew.
  rewrite length_app. simpl length.
  replace (length pre + S (length post))%nat
    with (length pre + (1 + length post))%nat by lia.
  rewrite recycleFrom_split, recycleFrom_split. simpl Nat.add.
  rewrite (recycleFrom_noop (length pre) 0).
  - simpl recycleFrom at 2. rewrite nth_error_middle, Hm.
    destruct (Qlt_le_dec maxZ (position_z s)) as [_|Hno]; [|lra].
    rewrite replaceNth_middle.
    apply recycleFrom_noop.
    intros j seg Hj Hn.
    assert (Hin : In seg post).
    { replace j with (length pre + S (j - S (length pre)))%nat in Hn by lia.
      rewrite nth_error_app2 in Hn by lia.
      replace (length pre + S (j - S (length pre)) - length pre)%nat
        with (S (j - S (length pre))) in Hn by lia.
      simpl in Hn. eapply nth_error_In. exact Hn. }
    rewrite Forall_forall in Hpost. apply Hpost. exact Hin.
  - intros j seg Hj Hn.
    rewrite nth_error_app1 in Hn by lia.
    rewrite Forall_forall in Hpre. apply Hpre. eapply nth_error_In. exact Hn.
Qed.

Definition slots20 : list Z := map Z.of_nat (seq 0 segmentCount).

Definition onSlot (b : Q) (seg : Mesh) (k : Z) : Prop :=
  position_z seg == b - inject_Z k * TRACK_SEGMENT_LENGTH.

(** The twenty segments occupy, each exactly one, the places
    [b, b - 10, ..., b - 190]. *)
Definition track_at (b : Q) (segs : list Mesh) : Prop :=
  exists ks, Permutation ks slots20 /\ Forall2 (onSlot b) segs ks.

Lemma in_slots20 k : In k slots20 <-> (0 <= k <= 19)%Z.
Proof.
  unfold slots20, segmentCount. rewrite in_map_iff. split.
  - intros (n & <- & Hn). apply in_seq in Hn. lia.
  - intros Hk. exists (Z.to_nat k). split; [lia|]. apply in_seq. lia.
Qed.

Lemma slot_bounds k :
  In k slots20 -> 0 <= inject_Z k /\ inject_Z k <= 19.
Proof.
  intros Hk. apply in_slots20 in Hk. destruct Hk as [H0 H1].
  rewrite Zle_Qle in H0, H1. split; assumption.
Qed.

Lemma Forall2_In_r {A B} (R : A -> B -> Prop) l m b :
  Forall2 R l m -> In b m -> exists a, In a l /\ R a b.
Proof.
  induction 1 as [|x y l m Hxy F IH]; simpl; [contradiction|].
  intros [<- | Hin].
  - exists x. auto.
  - destruct (IH Hin) as (a & Ha & Hr). exists a. auto.
Qed.

Lemma Forall2_In_l {A B} (R : A -> B -> Prop) l m a :
  Forall2 R l m -> In a l -> exists b, In b m /\ R a b.
Proof.
  induction 1 as [|x y l m Hxy F IH]; simpl; [contradiction|].
  intros [<- | Hin].
  - exists y. auto.
  - destruct (IH Hin) as (b & Hb & Hr). exists b. auto.
Qed.

Lemma track_at_length b segs : track_at b segs -> length segs = segmentCount.
Proof.
  intros (ks & HP & HF). rewrite (Forall2_length HF).
  rewrite (Permutation_length HP). unfold slots20.
  rewrite length_map, length_seq. reflexivity.
Qed.

Lemma track_at_bounds b segs seg :
  track_at b segs -> In seg segs ->
  b - 190 <= position_z seg /\ position_z seg <= b.
Proof.
  intros (ks & HP & HF) Hin.
  destruct (Forall2_In_l _ _ _ _ HF Hin) as (k & Hk & Hr).
  assert (Hs : In k slots20) by (eapply Permutation_in; eassumption).
  destruct (slot_bounds k Hs) as [H0 H1].
  unfold onSlot, TRACK_SEGMENT_LENGTH in Hr. split; lra.
Qed.

(** The farthest segment of a well-formed track is 190 behind its
    nearest one. *)
Lemma track_at_min b segs :
  track_at b segs -> exists m, minTrackZ segs = Some m /\ m == b - 190.
Proof.
  intros Ht. pose proof (track_at_length b segs Ht) as Hlen.
  destruct segs as [|s0 rest]; [discriminate|].
  destruct (minTrackZ_nonempty s0 rest) as [m Hm].
  exists m. split; [exact Hm|].
  destruct (minTrackZ_spec _ _ Hm) as [(seg & Hseg & Ez) Hall].
  destruct (track_at_bounds b _ seg Ht Hseg) as [Hlo _].
  destruct Ht as (ks & HP & HF).
  assert (H19 : In 19%Z ks).
  { eapply Permutation_in; [apply Permutation_sym; exact HP|].
    apply in_slots20. lia. }
  destruct (Forall2_In_r _ _ _ _ HF H19) as (far & Hfar & Hr).
  specialize (Hall far Hfar).
  unfold onSlot, TRACK_SEGMENT_LENGTH in Hr.
  change (inject_Z 19) with 19 in Hr. rewrite Ez in Hlo. lra.
Qed.

Definition moveSeg (seg : Mesh) : Mesh :=
  set_position_z (position_z seg + TRACK_SPEED) seg.

Lemma track_at_moved b segs :
  track_at b segs -> track_at (b + TRACK_SPEED) (map moveSeg segs).
Proof.
  intros (ks & HP & HF). exists ks. split; [exact HP|].
  clear HP. induction HF as [|seg k segs ks Hr HF IH]; simpl; constructor.
  - unfold onSlot, moveSeg in *. simpl_game. lra.
  - exact IH.
Qed.

(** Slot renumbering when the nearest segment goes to the back. *)
Definition toBack (k : Z) : Z := if (k =? 0)%Z then 19%Z else (k - 1)%Z.

Lemma toBack_perm : Permutation (map toBack slots20) slots20.
Proof.
  apply (Permutation_app_comm [19%Z] (map Z.of_nat (seq 0 19))).
Qed.

Lemma Forall2_app_inv_r' {A B} (R : A -> B -> Prop) l k1 y k2 :
  Forall2 R l (k1 ++ y :: k2) ->
  exists pre x post, l = pre ++ x :: post /\
                     Forall2 R pre k1 /\ R x y /\ Forall2 R post k2.
Proof.
  intros H. apply Forall2_app_inv_r in H.
  destruct H as (pre & rest & Hpre & Hrest & ->).
  inversion Hrest as [|x ? post ? Hxy Hpost]; subst.
  exists pre, x, post. auto.
Qed.

Lemma Forall2_map_right {A B} (R R' : A -> B -> Prop) (g : B -> B) l m :
  Forall2 R l m ->
  (forall a b, In b m -> R a b -> R' a (g b)) ->
  Forall2 R' l (map g m).
Proof.
  induction 1 as [|a b l m Hab F IH]; intros H; simpl; constructor.
  - apply H; [left; reflexivity | exact Hab].
  - apply IH. intros a' b' Hin. apply H. right. exact Hin.
Qed.

(** The recycling loop keeps the track well formed and brings its
    nearest segment back to at most [maxZ]. *)
Lemma track_at_recycled b segs :
  -(5) < b -> b <= 5 ->
  track_at b segs ->
  exists b',
    -(5) < b' /\ b' <= 5 /\
    track_at b' (recycleFrom (length (map moveSeg segs)) 0 (map moveSeg segs)).
Proof.
  intros Hlo Hhi Ht.
  pose proof (track_at_moved b segs Ht) as Hm.
  set (moved := map moveSeg segs) in *.
  destruct (Qlt_le_dec maxZ (b + TRACK_SPEED)) as [Hover | Hunder].
  - (* the nearest segment has crossed the line *)
    destruct (track_at_min _ _ Hm) as (m & Emin & Hmin).
    destruct Hm as (ks & HP & HF).
    assert (H0 : In 0%Z ks).
    { eapply Permutation_in; [apply Permutation_sym; exact HP|].
      apply in_slots20. lia. }
    destruct (in_split _ _ H0) as (k1 & k2 & Eks). subst ks.
    assert (Hnd : NoDup (k1 ++ 0%Z :: k2)).
    { eapply Permutation_NoDup; [apply Permutation_sym; exact HP|].
      unfold slots20. apply Finite.Injective_map_NoDup.
      - intros x y. apply Nat2Z.inj.
      - apply seq_NoDup. }
    pose proof (NoDup_remove_2 _ _ _ Hnd) as Hno0.
    destruct (Forall2_app_inv_r' _ _ _ _ _ HF)
      as (pre & s0 & post & Emoved & Fpre & Rs & Fpost).
    assert (Hother : forall seg k,
               In k (k1 ++ k2) -> onSlot (b + TRACK_SPEED) seg k ->
               position_z seg <= maxZ /\
               onSlot (b + TRACK_SPEED - 10) seg (toBack k)).
    { intros seg k Hk Hr.
      assert (Hk' : In k slots20).
      { eapply Permutation_in; [exact HP|].
        apply in_app_or in Hk. apply in_or_app.
        destruct Hk; [left | right; right]; assumption. }
      assert (Hk0 : k <> 0%Z) by (intros ->; contradiction).
      apply in_slots20 in Hk'.
      assert (H1 : 1 <= inject_Z k)
        by (change 1 with (inject_Z 1); rewrite <- Zle_Qle; lia).
      unfold onSlot, toBack, TRACK_SEGMENT_LENGTH, TRACK_SPEED, maxZ in *.
      destruct (Z.eqb_spec k 0); [contradiction|].
      unfold Z.sub. rewrite inject_Z_plus, inject_Z_opp.
      change (inject_Z 1) with 1. split; lra. }
    assert (Hpre : Forall (fun seg => position_z seg <= maxZ) pre).
    { rewrite Forall_forall. intros seg Hseg.
      destruct (Forall2_In_l _ _ _ _ Fpre Hseg) as (k & Hk & Hr).
      apply (Hother seg k); [apply in_or_app; left; exact Hk | exact Hr]. }
    assert (Hpost : Forall (fun seg => position_z seg <= maxZ) post).
    { rewrite Forall_forall. intros seg Hseg.
      destruct (Forall2_In_l _ _ _ _ Fpost Hseg) as (k & Hk & Hr).
      apply (Hother seg k); [apply in_or_app; right; exact Hk | exact Hr]. }
    assert (Hs0 : maxZ < position_z s0).
    { unfold onSlot, TRACK_SEGMENT_LENGTH in Rs.
      change (inject_Z 0) with 0 in Rs. lra. }
    exists (b + TRACK_SPEED - 10).
    unfold TRACK_SPEED, maxZ in *. split; [lra|]. split; [lra|].
    rewrite Emoved in Emin |- *.
    rewrite (recycleFrom_one pre s0 post m Hpre Hpost Hs0 Emin)
      by (unfold TRACK_SEGMENT_LENGTH, maxZ; lra).
    exists (map toBack (k1 ++ 0%Z :: k2)). split.
    + eapply Permutation_trans; [apply Permutation_map; exact HP|].
      apply toBack_perm.
    + rewrite map_app. simpl map. apply Forall2_app.
      * apply (Forall2_map_right _ _ _ _ _ Fpre). intros seg k Hk Hr.
        apply (Hother seg k); [apply in_or_app; left; exact Hk | exact Hr].
      * constructor.
        -- unfold onSlot, TRACK_SEGMENT_LENGTH. simpl_game.
           change (inject_Z (toBack 0)) with 19. lra.
        -- apply (Forall2_map_right _ _ _ _ _ Fpost). intros seg k Hk Hr.
           apply (Hother seg k); [apply in_or_app; right; exact Hk | exact Hr].
  - (* nothing has crossed the line *)
    exists (b + TRACK_SPEED). unfold TRACK_SPEED in *. split; [lra|].
    split; [exact Hunder|].
    rewrite recycleFrom_noop; [exact Hm|].
    intros j seg _ Hn. apply nth_error_In in Hn.
    destruct (track_at_bounds _ _ seg Hm Hn) as [_ Hle]. lra.
Qed.

Lemma track_at_fresh segs :
  map position_z segs =
    map (fun j => - inject_Z (Z.of_nat j) * TRACK_SEGMENT_LENGTH)
        (seq 0 segmentCount) ->
  track_at 0 segs.
Proof.
  intros Hz. exists slots20. split; [apply Permutation_refl|].
  unfold slots20. revert segs Hz.
  generalize (seq 0 segmentCount) as l.
  induction l as [|j l IH]; intros segs Hz; destruct segs as [|seg segs];
    simpl in *; try discriminate; constructor.
  - injection Hz as Hj Hrest. unfold onSlot. rewrite Hj. lra.
  - injection Hz as Hj Hrest. apply IH. exact Hrest.
Qed.

Definition moveOb (o : Mesh) : Mesh :=
  set_position_z (position_z o + TRACK_SPEED) o.

(** What the first part of a Playing frame does to the track and to
    the obstacle supply. *)
Lemma advanceWorld_supply g b :
  -(5) < b -> b <= 5 -> track_at b (trackSegments g) ->
  exists b' m,
    -(5) < b' /\ b' <= 5 /\
    track_at b' (trackSegments (advanceWorld g)) /\
    m == b' - 190 /\
    ((m - 20 < lastObstacleZ g /\
      lastObstacleZ (advanceWorld g) = lastObstacleZ g - 12 /\
      exists o, obstacles (advanceWorld g) = map moveOb (obstacles g) ++ [o]) \/
     (lastObstacleZ g <= m - 20 /\
      lastObstacleZ (advanceWorld g) = lastObstacleZ g /\
      obstacles (advanceWorld g) = map moveOb (obstacles g))).
Proof.
  intros Hlo Hhi Ht.
  destruct (track_at_recycled b _ Hlo Hhi Ht) as (b' & Hlo' & Hhi' & Ht').
  destruct (track_at_min _ _ Ht') as (m & Emin & Hm).
  exists b', m. split; [exact Hlo'|]. split; [exact Hhi'|].
  unfold advanceWorld. cbv zeta. simpl_game.
  change (map (fun seg => set_position_z (position_z seg + TRACK_SPEED) seg)
              (trackSegments g))
    with (map moveSeg (trackSegments g)).
  change (map (fun o => set_position_z (position_z o + TRACK_SPEED) o)
              (obstacles g))
    with (map moveOb (obstacles g)).
  rewrite Emin.
  destruct (Qlt_le_dec (m - 20) (lastObstacleZ g)) as [Hsp | Hno].
  - unfold spawnObstacleRow. cbv zeta. simpl_game.
    split; [exact Ht'|]. split; [exact Hm|]. left.
    split; [exact Hsp|]. split; [reflexivity|]. eexists. reflexivity.
  - simpl_game. split; [exact Ht'|]. split; [exact Hm|]. right.
    split; [exact Hno|]. split; reflexivity.
Qed.

Lemma scoreAndCollide_supply v :
  trackSegments (scoreAndCollide v) = trackSegments v /\
  obstacles (scoreAndCollide v) = obstacles v /\
  lastObstacleZ (scoreAndCollide v) = lastObstacleZ v.
Proof.
  unfold scoreAndCollide. cbv zeta. simpl_game.
  destruct (playerMesh v) as [p|]; [|repeat split; reflexivity].
  destruct (anyIntersects p _); [|repeat split; reflexivity].
  unfold endGame. cbv zeta. simpl_game.
  destruct (Qlt_le_dec _ _); repeat split; reflexivity.
Qed.

(** A well-formed track and the count of obstacles spawned so far. *)
Definition supply_ok (g : Game) : Prop :=
  (exists b, -(5) < b /\ b <= 5 /\ track_at b (trackSegments g)) /\
  lastObstacleZ g ==
    -(13) - 12 * inject_Z (Z.of_nat (length (obstacles g))) /\
  -(227) < lastObstacleZ g.

Lemma supply_ok_startGame g : supply_ok (startGame g).
Proof.
  destruct (startGame_shape g) as (segs & k & E & Hz). rewrite E.
  unfold supply_ok. simpl_game. split.
  - exists 0. split; [lra|]. split; [lra|]. apply track_at_fresh. exact Hz.
  - simpl. split; [reflexivity | lra].
Qed.

Lemma supply_ok_frame g :
  gameState g = Playing -> supply_ok g -> supply_ok (animate g).
Proof.
  intros HP ((b & Hlo & Hhi & Ht) & Hcount & Hbound).
  rewrite (animate_eq g HP).
  destruct (scoreAndCollide_supply (advanceWorld g)) as (E1 & E2 & E3).
  unfold supply_ok. rewrite E1, E2, E3.
  destruct (advanceWorld_supply g b Hlo Hhi Ht)
    as (b' & m & Hlo' & Hhi' & Ht' & Hm & Hcase).
  split; [exists b'; auto|].
  destruct Hcase as [(Hsp & El & (o & Eo)) | (Hno & El & Eo)];
    rewrite El, Eo.
  - rewrite length_app, length_map. simpl length.
    rewrite Nat2Z.inj_add, inject_Z_plus. change (inject_Z (Z.of_nat 1)) with 1.
    split; lra.
  - rewrite length_map. split; assumption.
Qed.

Lemma supply_fields_move index g :
  supply_ok g -> supply_ok (movePlayerToLane index g).
Proof.
  intros H. destruct (movePlayerToLane_scores index g)
    as (_ & _ & _ & E1 & E2 & E3).
  unfold supply_ok. rewrite E1, E2, E3. exact H.
Qed.

Definition started_ok (g : Game) : Prop := gameState g <> Menu -> supply_ok g.

Lemma started_ok_tap g : started_ok g -> started_ok (handleTapOrClick g).
Proof.
  intros H. unfold handleTapOrClick.
  destruct (gameState g) eqn:Eg.
  - intros _. apply supply_ok_startGame.
  - unfold started_ok. rewrite Eg. intros _. apply H. congruence.
  - intros _. apply supply_ok_startGame.
Qed.

Lemma started_ok_step e g : started_ok g -> started_ok (handle e g).
Proof.
  intros H. destruct e; simpl.
  - destruct (gameState g) eqn:Eg.
    + rewrite proto_animate_idle by congruence. exact H.
    + intros _. apply supply_ok_frame; [exact Eg|]. apply H. congruence.
    + rewrite proto_animate_idle by congruence. exact H.
  - exact H.
  - unfold onPointerUp. destruct (touchStartX g) as [x0|];
      [|apply started_ok_tap; exact H].
    cbv zeta.
    assert (Htouch : forall v, started_ok v -> started_ok (set_touchStartX None v))
      by (intros v Hv; exact Hv).
    apply Htouch.
    destruct (Qlt_le_dec _ 20); [apply started_ok_tap; exact H|].
    destruct (gameState g) eqn:Eg; try exact H.
    destruct (Qlt_le_dec _ 0);
      (intros Hs; apply supply_fields_move; apply H; congruence).
Qed.

(** X22.  Once a game of the prototype has started, the track always
    consists of twenty segments spaced by ten: for some base [b] with
    -5 < b <= 5 they occupy, each exactly one, the places
    [b, b - 10, ..., b - 190] (in some order, since recycling moves the
    nearest segment to the back).  So the nearest is at most 5 past the
    origin and the farthest more than 195 behind it.  The supply of
    obstacles is finite: nothing ever removes an obstacle, each spawn
    lowers [lastObstacleZ] by 12, and no spawn happens once it is at or
    below -215, so a game never holds more than 17 obstacles. *)
Theorem prototype_obstacle_supply_runs_dry (g : Game) :
  reachable g ->
  gameState g <> Menu ->
  length (trackSegments g) = 20%nat /\
  (exists (b : Q) (ks : list Z),
     -(5) < b /\ b <= 5 /\
     Permutation ks (map Z.of_nat (seq 0 20)) /\
     Forall2 (fun seg k =>
                position_z seg == b - inject_Z k * TRACK_SEGMENT_LENGTH)
             (trackSegments g) ks) /\
  (forall seg, In seg (trackSegments g) ->
     -(195) < position_z seg /\ position_z seg <= 5) /\
  lastObstacleZ g ==
    -(13) - 12 * inject_Z (Z.of_nat (length (obstacles g))) /\
  (length (obstacles g) <= 17)%nat /\
  (lastObstacleZ g <= -(215) -> gameState g = Playing ->
   obstacles (handle Frame g) = map moveOb (obstacles g) /\
   lastObstacleZ (handle Frame g) = lastObstacleZ g).
Proof.
  intros Hr Hs.
  assert (Hok : started_ok g).
  { clear Hs. induction Hr as [| e g Hr IH]; [intros Hm; exfalso; apply Hm; reflexivity|].
    apply started_ok_step. exact IH. }
  destruct (Hok Hs) as ((b & Hlo & Hhi & Ht) & Hcount & Hbound).
  split; [apply (track_at_length b _ Ht)|]. split.
  { destruct Ht as (ks & Hperm & HF). exists b, ks.
    split; [exact Hlo|]. split; [exact Hhi|]. split; [exact Hperm | exact HF]. }
  split.
  { intros seg Hin. destruct (track_at_bounds b _ seg Ht Hin). split; lra. }
  split; [exact Hcount|]. split.
  { assert (Hn : (Z.of_nat (length (obstacles g)) < 18)%Z).
    { apply Z.lt_nge. intros Hge. rewrite Zle_Qle in Hge.
      change (inject_Z 18) with 18 in Hge. lra. }
    lia. }
  intros Hdry HP. simpl handle. rewrite (animate_eq g HP).
  destruct (scoreAndCollide_supply (advanceWorld g)) as (_ & E2 & E3).
  rewrite E2, E3.
  destruct (advanceWorld_supply g b Hlo Hhi Ht)
    as (b' & m & Hlo' & Hhi' & _ & Hm & Hcase).
  destruct Hcase as [(Hsp & _) | (_ & El & Eo)]; [exfalso; lra|].
  split; assumption.
Qed.

End Loop.

(** ** A session of the prototype *)

(** The bounding boxes of a ball of radius 0.5 and a unit cube overlap
    when the centres are at most 1 apart along every axis. *)
Definition unitBoxes (p o : Mesh) : bool :=
  Qle_bool (Qabs (position_x o - position_x p)) 1 &&
  Qle_bool (Qabs (position_y o - position_y p)) 1 &&
  Qle_bool (Qabs (position_z o - position_z p)) 1.

(** Every obstacle in the centre lane. *)
Definition centred : nat -> Q := fun _ => 1#2.

(** The prototype after the first tap. *)
Definition proto_playing : Game := handle centred unitBoxes (PointerUp 0) initial.

Lemma proto_playing_reachable : reachable centred unitBoxes proto_playing.
Proof. apply reach_step. apply reach_init. Qed.

Lemma proto_playing_state : gameState proto_playing = Playing.
Proof. vm_compute. reflexivity. Qed.

Lemma movePlayerToLane_rejects_bad_requests_witness :
  movePlayerToLane 3 proto_playing = proto_playing /\
  movePlayerToLane 2 initial = initial /\
  In (lane 2) LANES.
Proof.
  split; [|split].
  - destruct (movePlayerToLane_rejects_bad_requests 3 proto_playing) as (H1 & _).
    apply H1. right. lia.
  - destruct (movePlayerToLane_rejects_bad_requests 2 initial) as (_ & H2 & _).
    apply H2. discriminate.
  - destruct (movePlayerToLane_rejects_bad_requests 2 proto_playing)
      as (_ & _ & _ & H4).
    destruct (H4 (mkMesh 0 0 (1#2) 0)) as [_ Hin].
    + lia.
    + exact proto_playing_state.
    + vm_compute. reflexivity.
    + exact Hin.
Defined.

Lemma press_release_is_tap_or_swipe_witness :
  gameState (run centred unitBoxes [PointerDown 0; PointerUp 5] initial) = Playing /\
  run centred unitBoxes [PointerDown 0; PointerUp 100] initial =
    set_touchStartX None initial /\
  run centred unitBoxes [PointerDown 0; PointerUp 100] proto_playing =
    set_touchStartX None (movePlayerToLane 2 (onPointerDown 0 proto_playing)).
Proof.
  split; [|split].
  - destruct (press_release_is_tap_or_swipe centred unitBoxes 0 5 initial)
      as (_ & _ & H3 & _).
    destruct H3 as (E & _).
    + vm_compute. reflexivity.
    + discriminate.
    + exact E.
  - destruct (press_release_is_tap_or_swipe centred unitBoxes 0 100 initial)
      as (_ & _ & _ & H4 & _).
    apply H4; [vm_compute; discriminate | discriminate].
  - destruct (press_release_is_tap_or_swipe centred unitBoxes 0 100 proto_playing)
      as (_ & _ & _ & _ & H5 & _).
    apply H5; [vm_compute; discriminate | exact proto_playing_state].
Defined.

Lemma prototype_player_is_on_its_lane_witness :
  (0 <= currentLaneIndex proto_playing <= 2)%Z /\
  exists p, playerMesh proto_playing = Some p.
Proof.
  destruct (prototype_player_is_on_its_lane centred unitBoxes proto_playing
              proto_playing_reachable) as (H1 & _ & _ & H4).
  split; [exact H1|]. apply H4. rewrite proto_playing_state. discriminate.
Defined.

Lemma prototype_scores_are_consistent_witness :
  currentScore (handle centred unitBoxes Frame proto_playing) =
    currentScore proto_playing + (25#1000) /\
  0 <= currentScore proto_playing.
Proof.
  destruct (prototype_scores_are_consistent centred unitBoxes)
    as (_ & H2 & H3).
  split.
  - apply H2. exact proto_playing_state.
  - exact (proj1 (H3 proto_playing proto_playing_reachable)).
Defined.

Lemma prototype_obstacle_supply_runs_dry_witness :
  gameState (handle centred unitBoxes Frame proto_playing) = Playing /\
  length (trackSegments (handle centred unitBoxes Frame proto_playing)) = 20%nat /\
  (length (obstacles (handle centred unitBoxes Frame proto_playing)) <= 17)%nat /\
  length (obstacles (handle centred unitBoxes Frame proto_playing)) = 2%nat /\
  exists (b : Q) (ks : list Z),
    -(5) < b /\ b <= 5 /\
    Permutation ks (map Z.of_nat (seq 0 20)) /\
    Forall2 (fun seg k =>
               position_z seg == b - inject_Z k * TRACK_SEGMENT_LENGTH)
            (trackSegments (handle centred unitBoxes Frame proto_playing)) ks.
Proof.
  assert (Hs : gameState (handle centred unitBoxes Frame proto_playing) = Playing)
    by (vm_compute; reflexivity).
  destruct (prototype_obstacle_supply_runs_dry centred unitBoxes
              (handle centred unitBoxes Frame proto_playing))
    as (H1 & H2 & _ & _ & H4 & _).
  - apply reach_step. exact proto_playing_reachable.
  - rewrite Hs. discriminate.
  - split; [exact Hs|]. split; [exact H1|]. split; [exact H4|].
    split; [vm_compute; reflexivity | exact H2].
Defined.

End Prototype.

(** * The first shell: the second listing of [part_002]

    An earlier version of the page shell.  Its states are START,
    PLAYING and GAME_OVER; a press on the canvas doubles as the tap
    that starts or restarts; frames are clamped to 0.1 s, and the
    placeholder [update] adds [Math.floor(deltaTime * 10)] to the
    score.  The clock [performance.now()] is the argument of the frame
    event.  The writes to the page (text contents, the hidden class of
    the two overlays) are left out. *)

Module FirstShell.

Inductive GameState := START | PLAYING | GAME_OVER.

Record State := mkState {
  gameState : GameState;
  score : Q;
  highScore : Q;
  lastTime : Q;
  touchStartX : Q;
  touchStartY : Q;
  isDragging : bool;
  currentLane : Z;
  (** value last written under the key [blueSlideParkHighScore] *)
  savedHighScore : option Q
}.

Definition MAX_DELTA : Q := 1#10.

Definition set_gameState (v : GameState) (s : State) : State :=
  mkState v (score s) (highScore s) (lastTime s) (touchStartX s)
    (touchStartY s) (isDragging s) (currentLane s) (savedHighScore s).

Definition set_score (v : Q) (s : State) : State :=
  mkState (gameState s) v (highScore s) (lastTime s) (touchStartX s)
    (touchStartY s) (isDragging s) (currentLane s) (savedHighScore s).

Definition set_highScore (v : Q) (s : State) : State :=
  mkState (gameState s) (score s) v (lastTime s) (touchStartX s)
    (touchStartY s) (isDragging s) (currentLane s) (savedHighScore s).

Definition set_lastTime (v : Q) (s : State) : State :=
  mkState (gameState s) (score s) (highScore s) v (touchStartX s)
    (touchStartY s) (isDragging s) (currentLane s) (savedHighScore s).

Definition set_touchStart (x y : Q) (s : State) : State :=
  mkState (gameState s) (score s) (highScore s) (lastTime s) x y
    (isDragging s) (currentLane s) (savedHighScore s).

Definition set_isDragging (v : bool) (s : State) : State :=
  mkState (gameState s) (score s) (highScore s) (lastTime s) (touchStartX s)
    (touchStartY s) v (currentLane s) (savedHighScore s).

Definition set_currentLane (v : Z) (s : State) : State :=
  mkState (gameState s) (score s) (highScore s) (lastTime s) (touchStartX s)
    (touchStartY s) (isDragging s) v (savedHighScore s).

Definition set_saved (v : option Q) (s : State) : State :=
  mkState (gameState s) (score s) (highScore s) (lastTime s) (touchStartX s)
    (touchStartY s) (isDragging s) (currentLane s) v.

Ltac simpl_shell :=
  cbn [gameState score highScore lastTime touchStartX touchStartY isDragging
       currentLane savedHighScore set_gameState set_score set_highScore
       set_lastTime set_touchStart set_isDragging set_currentLane set_saved]
    in *.

Definition saveHighScore (v : Q) (s : State) : State :=
  set_highScore v (set_saved (Some v) s).

Definition updateScore (newScore : Q) (s : State) : State :=
  let s1 := set_score newScore s in
  if Qlt_le_dec (highScore s1) (score s1) then saveHighScore (score s1) s1
  else s1.

Definition startGame (s : State) : State :=
  let s1 := set_gameState PLAYING s in
  let s2 := set_score 0 s1 in
  let s3 := updateScore 0 s2 in
  set_currentLane 0 s3.

Definition triggerGameOver (s : State) : State :=
  set_gameState GAME_OVER s.

Definition restartGame (s : State) : State :=
  let s1 := set_gameState START s in
  let s2 := set_score 0 s1 in
  let s3 := updateScore 0 s2 in
  set_currentLane 0 s3.

(** [handleTouchStart] and [handleMouseDown]: the same body, on the
    first touch or on the mouse position. *)
Definition handleTouchStart (clientX clientY : Q) (s : State) : State :=
  match gameState s with
  | GAME_OVER => restartGame s
  | START => startGame s
  | PLAYING => set_isDragging true (set_touchStart clientX clientY s)
  end.

(** [a < b] as a boolean, for conditions joined by [&&]. *)
Definition ltb (a b : Q) : bool := if Qlt_le_dec a b then true else false.

(** [handleTouchMove] and [handleMouseMove]. *)
Definition handleTouchMove (clientX clientY : Q) (s : State) : State :=
  match isDragging s, gameState s with
  | true, PLAYING =>
      let deltaX := clientX - touchStartX s in
      let deltaY := clientY - touchStartY s in
      if ltb (Qabs deltaY) (Qabs deltaX) && ltb 30 (Qabs deltaX) then
        if ltb 0 deltaX && (currentLane s <? 1)%Z then
          set_touchStart clientX (touchStartY s)
            (set_currentLane (currentLane s + 1) s)
        else if ltb deltaX 0 && (-1 <? currentLane s)%Z then
          set_touchStart clientX (touchStartY s)
            (set_currentLane (currentLane s - 1) s)
        else s
      else s
  | _, _ => s
  end.

(** [handleTouchEnd] and [handleMouseUp]. *)
Definition handleTouchEnd (s : State) : State := set_isDragging false s.

Definition update (deltaTime : Q) (s : State) : State :=
  match gameState s with
  | PLAYING => updateScore (score s + inject_Z (Qfloor (deltaTime * 10))) s
  | _ => s
  end.

(** [animate], [currentTime] being what [performance.now()] returns. *)
Definition animate (currentTime : Q) (s : State) : State :=
  let deltaTime := (currentTime - lastTime s) / 1000 in
  let s1 := set_lastTime currentTime s in
  let deltaTime' := Math_min deltaTime MAX_DELTA in
  update deltaTime' s1.

(** The page as loaded: [loaded] is what [loadHighScore()] read and
    [now] the clock when the loop is started. *)
Definition initial (loaded now : Q) : State :=
  mkState START 0 loaded now 0 0 false 0 None.

Inductive Event :=
| Frame (currentTime : Q)
| Press (clientX clientY : Q)
| Move (clientX clientY : Q)
| Release
| GameOverCall.

Definition handle (e : Event) (s : State) : State :=
  match e with
  | Frame currentTime => animate currentTime s
  | Press x y => handleTouchStart x y s
  | Move x y => handleTouchMove x y s
  | Release => handleTouchEnd s
  | GameOverCall => triggerGameOver s
  end.

Definition run (es : list Event) (s : State) : State :=
  fold_left (fun s e => handle e s) es s.

(** The clock never runs backwards. *)
Definition admissible (e : Event) (s : State) : Prop :=
  match e with
  | Frame currentTime => lastTime s <= currentTime
  | _ => True
  end.

Inductive reachable (loaded now : Q) : State -> Prop :=
| reach_init : reachable loaded now (initial loaded now)
| reach_step e s :
    reachable loaded now s -> admissible e s ->
    reachable loaded now (handle e s).

(** ** Properties of the first shell *)

Lemma floor_unique (q : Q) (z : Z) :
  inject_Z z <= q -> q < inject_Z (z + 1) -> Qfloor q = z.
Proof.
  intros Hlo Hhi.
  pose proof (Qfloor_le q) as Hle.
  pose proof (Qlt_floor q) as Hlt.
  assert (A : (Qfloor q < z + 1)%Z).
  { rewrite Zlt_Qlt. eapply Qle_lt_trans; [exact Hle | exact Hhi]. }
  assert (B : (z < Qfloor q + 1)%Z).
  { rewrite Zlt_Qlt. eapply Qle_lt_trans; [exact Hlo | exact Hlt]. }
  lia.
Qed.

Lemma first_animate_playing currentTime s :
  gameState s = PLAYING ->
  animate currentTime s =
  updateScore
    (score s + inject_Z (Qfloor (Math_min ((currentTime - lastTime s) / 1000)
                                          MAX_DELTA * 10)))
    (set_lastTime currentTime s).
Proof.
  intros HP. unfold animate, update. cbv zeta. simpl_shell. rewrite HP.
  reflexivity.
Qed.

Lemma first_animate_idle currentTime s :
  gameState s <> PLAYING -> animate currentTime s = set_lastTime currentTime s.
Proof.
  intros HP. unfold animate, update. cbv zeta. simpl_shell.
  destruct (gameState s); congruence.
Qed.

Lemma first_updateScore_fields n s :
  score (updateScore n s) = n /\
  highScore (updateScore n s) = Math_max (highScore s) n /\
  savedHighScore (updateScore n s) =
    (if Qlt_le_dec (highScore s) n then Some n else savedHighScore s) /\
  gameState (updateScore n s) = gameState s /\
  lastTime (updateScore n s) = lastTime s /\
  touchStartX (updateScore n s) = touchStartX s /\
  touchStartY (updateScore n s) = touchStartY s /\
  isDragging (updateScore n s) = isDragging s /\
  currentLane (updateScore n s) = currentLane s.
Proof.
  unfold updateScore, saveHighScore, Math_max. cbv zeta. simpl_shell.
  destruct (Qlt_le_dec (highScore s) n); simpl_shell; repeat split; reflexivity.
Qed.

(** X23.  The first shell's score counts stalled frames: with a clock
    that does not run backwards, a PLAYING frame adds 1 to the score
    when at least 100 ms have passed since the previous frame and
    nothing otherwise, however long the stall was. *)
Theorem stalled_frames_are_counted (currentTime : Q) (s : State) :
  gameState s = PLAYING ->
  lastTime s <= currentTime ->
  let s' := handle (Frame currentTime) s in
  (currentTime < lastTime s + 100 -> score s' == score s) /\
  (lastTime s + 100 <= currentTime -> score s' == score s + 1) /\
  lastTime s' = currentTime /\ gameState s' = PLAYING.
Proof.
  intros HP Hmono. cbv zeta. simpl handle.
  rewrite (first_animate_playing _ _ HP).
  destruct (first_updateScore_fields
              (score s + inject_Z (Qfloor (Math_min ((currentTime - lastTime s) / 1000)
                                                    MAX_DELTA * 10)))
              (set_lastTime currentTime s))
    as (Es & _ & _ & Eg & El & _).
  rewrite Es, Eg, El. simpl_shell.
  split; [|split; [|split; [reflexivity | exact HP]]].
  - intros Hsoon. rewrite (floor_unique _ 0).
    + unfold inject_Z. lra.
    + unfold Math_min, MAX_DELTA, Qdiv. change (/ 1000) with (1#1000).
      change (inject_Z 0) with 0. destruct (Qlt_le_dec _ _); lra.
    + unfold Math_min, MAX_DELTA, Qdiv. change (/ 1000) with (1#1000).
      change (inject_Z (0 + 1)) with 1. destruct (Qlt_le_dec _ _); lra.
  - intros Hlate. rewrite (floor_unique _ 1).
    + unfold inject_Z. lra.
    + unfold Math_min, MAX_DELTA, Qdiv. change (/ 1000) with (1#1000).
      change (inject_Z 1) with 1. destruct (Qlt_le_dec _ _); lra.
    + unfold Math_min, MAX_DELTA, Qdiv. change (/ 1000) with (1#1000).
      change (inject_Z (1 + 1)) with 2. destruct (Qlt_le_dec _ _); lra.
Qed.

(** The store holds the high score as soon as it has been written. *)
Definition kept (loaded : Q) (s : State) : Prop :=
  0 <= score s /\ score s <= highScore s /\ loaded <= highScore s /\
  (savedHighScore s = None /\ highScore s = loaded \/
   savedHighScore s = Some (highScore s)).

Lemma kept_updateScore loaded n s :
  0 <= n -> loaded <= highScore s ->
  (savedHighScore s = None /\ highScore s = loaded \/
   savedHighScore s = Some (highScore s)) ->
  kept loaded (updateScore n s).
Proof.
  intros Hn Hl Hst. unfold kept.
  destruct (first_updateScore_fields n s) as (Es & Eh & Ev & _).
  rewrite Es, Eh, Ev. unfold Math_max.
  destruct (Qlt_le_dec (highScore s) n).
  - repeat split; try lra. right. reflexivity.
  - repeat split; try lra. exact Hst.
Qed.

Lemma kept_fields loaded s s' :
  score s' = score s -> highScore s' = highScore s ->
  savedHighScore s' = savedHighScore s -> kept loaded s -> kept loaded s'.
Proof.
  intros E1 E2 E3 H. unfold kept in *. rewrite E1, E2, E3. exact H.
Qed.

Lemma kept_step loaded e s :
  admissible e s -> kept loaded s -> kept loaded (handle e s).
Proof.
  intros Ha Hk. pose proof Hk as (H0 & Hs & Hl & Hst).
  destruct e; simpl handle.
  - simpl in Ha. destruct (gameState s) eqn:Eg.
    + rewrite first_animate_idle by congruence.
      apply (kept_fields loaded s); try reflexivity. exact Hk.
    + rewrite first_animate_playing by exact Eg.
      apply kept_updateScore; simpl_shell; try assumption.
      assert (Hf : (0 <= Qfloor (Math_min ((currentTime - lastTime s) / 1000)
                                          MAX_DELTA * 10))%Z).
      { apply Z.lt_succ_r. unfold Z.succ. rewrite Zlt_Qlt.
        eapply Qle_lt_trans; [|apply Qlt_floor].
        change (inject_Z 0) with 0.
        unfold Math_min, MAX_DELTA, Qdiv. change (/ 1000) with (1#1000).
        destruct (Qlt_le_dec _ _); lra. }
      rewrite Zle_Qle in Hf. change (inject_Z 0) with 0 in Hf. lra.
    + rewrite first_animate_idle by congruence.
      apply (kept_fields loaded s); try reflexivity. exact Hk.
  - unfold handleTouchStart. destruct (gameState s).
    + unfold startGame. cbv zeta.
      apply (kept_fields loaded
               (updateScore 0 (set_score 0 (set_gameState PLAYING s))));
        try reflexivity.
      apply kept_updateScore; simpl_shell; try assumption. lra.
    + apply (kept_fields loaded s); try reflexivity. exact Hk.
    + unfold restartGame. cbv zeta.
      apply (kept_fields loaded
               (updateScore 0 (set_score 0 (set_gameState START s))));
        try reflexivity.
      apply kept_updateScore; simpl_shell; try assumption. lra.
  - apply (kept_fields loaded s); try exact Hk;
      unfold handleTouchMove;
      destruct (isDragging s); try reflexivity;
      destruct (gameState s); try reflexivity; cbv zeta;
      destruct (ltb _ _ && ltb _ _); try reflexivity;
      destruct (ltb 0 _ && _); try reflexivity;
      destruct (ltb _ 0 && _); reflexivity.
  - apply (kept_fields loaded s); try reflexivity. exact Hk.
  - apply (kept_fields loaded s); try reflexivity. exact Hk.
Qed.

(** X24.  In the first shell the high score is kept up to date on every
    score change, not only at game over: with a non-negative loaded
    value, in every reachable state 0 <= score <= highScore, the high
    score is at least the loaded one, and the store either has not
    been written (and the high score is still the loaded one) or holds
    exactly the current high score. *)
Theorem high_score_tracks_score_and_store (loaded now : Q) (s : State) :
  0 <= loaded ->
  reachable loaded now s ->
  0 <= score s /\ score s <= highScore s /\ loaded <= highScore s /\
  (savedHighScore s = None /\ highScore s = loaded \/
   savedHighScore s = Some (highScore s)).
Proof.
  intros Hl Hr. induction Hr as [| e s Hr IH Ha].
  - unfold initial. simpl_shell. repeat split; try lra. left. split; reflexivity.
  - apply (kept_step loaded e s Ha IH).
Qed.

Lemma first_press_idle x y s :
  gameState s <> PLAYING ->
  isDragging (handleTouchStart x y s) = isDragging s /\
  touchStartX (handleTouchStart x y s) = touchStartX s /\
  score (handleTouchStart x y s) = 0 /\
  currentLane (handleTouchStart x y s) = 0%Z.
Proof.
  intros HP. unfold handleTouchStart.
  destruct (gameState s); try congruence.
  - unfold startGame. cbv zeta. simpl_shell.
    destruct (first_updateScore_fields 0 (set_score 0 (set_gameState PLAYING s)))
      as (Es & _ & _ & _ & _ & Ex & _ & Ed & _).
    rewrite Es, Ex, Ed. simpl_shell. repeat split; reflexivity.
  - unfold restartGame. cbv zeta. simpl_shell.
    destruct (first_updateScore_fields 0 (set_score 0 (set_gameState START s)))
      as (Es & _ & _ & _ & _ & Ex & _ & Ed & _).
    rewrite Es, Ex, Ed. simpl_shell. repeat split; reflexivity.
Qed.

Lemma first_press_state x y s :
  gameState (handleTouchStart x y s) =
  match gameState s with
  | START => PLAYING
  | PLAYING => PLAYING
  | GAME_OVER => START
  end.
Proof.
  unfold handleTouchStart. destruct (gameState s) eqn:Eg.
  - unfold startGame. cbv zeta. simpl_shell.
    destruct (first_updateScore_fields 0 (set_score 0 (set_gameState PLAYING s)))
      as (_ & _ & _ & E & _).
    rewrite E. reflexivity.
  - simpl_shell. exact Eg.
  - unfold restartGame. cbv zeta. simpl_shell.
    destruct (first_updateScore_fields 0 (set_score 0 (set_gameState START s)))
      as (_ & _ & _ & E & _).
    rewrite E. reflexivity.
Qed.

Lemma first_move_state x y s :
  gameState (handleTouchMove x y s) = gameState s.
Proof.
  unfold handleTouchMove.
  destruct (isDragging s); try reflexivity.
  destruct (gameState s) eqn:Eg; try assumption. cbv zeta.
  destruct (ltb _ _ && ltb _ _); try assumption.
  destruct (ltb 0 _ && _); [simpl_shell; assumption|].
  destruct (ltb _ 0 && _); simpl_shell; assumption.
Qed.

(** X25.  The first shell cycles START, PLAYING, GAME_OVER, START: a
    press is what leaves START (to PLAYING) and GAME_OVER (back to
    START), and only the exported game-over call leaves PLAYING.  So
    restarting after a game over takes two presses; a press outside
    PLAYING zeroes the score and recentres the lane but never begins a
    drag. *)
Theorem restart_takes_two_presses (e : Event) (s : State) :
  (gameState (handle e s) = gameState s \/
   ((exists x y, e = Press x y) /\ gameState s = START /\
    gameState (handle e s) = PLAYING) \/
   ((exists x y, e = Press x y) /\ gameState s = GAME_OVER /\
    gameState (handle e s) = START) \/
   (e = GameOverCall /\ gameState (handle e s) = GAME_OVER)) /\
  (forall x y, gameState s <> PLAYING ->
     isDragging (handle (Press x y) s) = isDragging s /\
     touchStartX (handle (Press x y) s) = touchStartX s /\
     score (handle (Press x y) s) = 0 /\
     currentLane (handle (Press x y) s) = 0%Z) /\
  (forall x y x' y', gameState s = GAME_OVER ->
     gameState (handle (Press x y) s) = START /\
     gameState (run [Press x y; Press x' y'] s) = PLAYING).
Proof.
  split; [|split].
  - destruct e; simpl handle.
    + left. destruct (gameState s) eqn:Eg.
      * rewrite first_animate_idle by congruence. exact Eg.
      * rewrite first_animate_playing by exact Eg.
        destruct (first_updateScore_fields
                    (score s + inject_Z (Qfloor (Math_min ((currentTime - lastTime s) / 1000)
                                                          MAX_DELTA * 10)))
                    (set_lastTime currentTime s)) as (_ & _ & _ & E & _).
        rewrite E. exact Eg.
      * rewrite first_animate_idle by congruence. exact Eg.
    + rewrite first_press_state. destruct (gameState s) eqn:Eg.
      * right. left. split; [eauto|]. split; reflexivity.
      * left. reflexivity.
      * right. right. left. split; [eauto|]. split; reflexivity.
    + left. apply first_move_state.
    + left. reflexivity.
    + right. right. right. split; reflexivity.
  - intros x y HP. simpl handle. apply first_press_idle. exact HP.
  - intros x y x' y' Hg. simpl run. simpl handle.
    rewrite !first_press_state, Hg. split; reflexivity.
Qed.

(** ** A session of the first shell *)

(** The first shell after the press that starts the game. *)
Definition first_playing : State := handle (Press 0 0) (initial 7 1000).

Lemma first_playing_reachable : reachable 7 1000 first_playing.
Proof. apply reach_step; [apply reach_init | exact I]. Qed.

Lemma stalled_frames_are_counted_witness :
  score (handle (Frame 1016) first_playing) == score first_playing /\
  score (handle (Frame 1250) first_playing) == score first_playing + 1.
Proof.
  split.
  - destruct (stalled_frames_are_counted 1016 first_playing) as (H1 & _).
    + reflexivity.
    + vm_compute. discriminate.
    + apply H1. vm_compute. reflexivity.
  - destruct (stalled_frames_are_counted 1250 first_playing) as (_ & H2 & _).
    + reflexivity.
    + vm_compute. discriminate.
    + apply H2. vm_compute. discriminate.
Defined.

Lemma high_score_tracks_score_and_store_witness :
  score (handle (Frame 1250) first_playing)
    <= highScore (handle (Frame 1250) first_playing) /\
  7 <= highScore (handle (Frame 1250) first_playing).
Proof.
  destruct (high_score_tracks_score_and_store 7 1000
              (handle (Frame 1250) first_playing)) as (_ & H2 & H3 & _).
  - vm_compute. discriminate.
  - apply reach_step; [exact first_playing_reachable | vm_compute; discriminate].
  - split; assumption.
Defined.

Lemma restart_takes_two_presses_witness :
  gameState (handle (Press 0 0) (handle GameOverCall first_playing)) = START /\
  gameState (run [Press 0 0; Press 5 5] (handle GameOverCall first_playing))
    = PLAYING /\
  isDragging (handle (Press 0 0) (initial 7 1000)) = false.
Proof.
  destruct (restart_takes_two_presses Release
              (handle GameOverCall first_playing)) as (_ & H2 & H3).
  destruct (H3 0 0 5 5) as [E1 E2]; [reflexivity|].
  split; [exact E1|]. split; [exact E2|].
  destruct (restart_takes_two_presses Release (initial 7 1000)) as (_ & H2' & _).
  destruct (H2' 0 0) as (Ed & _); [discriminate | exact Ed].
Defined.

End FirstShell.

(** * The gated game: the third listing of [part_002]

    The game loop again, sharing with the first listing the code of
    [updateHud], [createSlideSegment], [spawnObstacleOnSegment],
    [setLane], [onPointerMove], [onPointerUp], [triggerGameOver],
    [checkCollisions] and [animate].  It differs in four places: the
    player stands at depth 5; a press on the canvas outside PLAYING is
    treated as a tap and begins no drag; a recycled segment does not
    clear the obstacles around its new place; and the high score is
    read from the store when the page loads. *)

Module Gated.

Ltac simpl_gated :=
  cbn [gameState score highScore elapsedSinceStart forwardSpeed
       currentLaneIndex targetLaneX player slideSegments obstacles
       isDragging dragStartX dragCurrentX lastTime dom nextId randomCalls
       scoreEl highScoreEl overlayShown overlayText
       id position_x position_y position_z
       set_gameState set_score set_highScore set_elapsedSinceStart
       set_forwardSpeed set_lane set_player set_slideSegments set_obstacles
       set_drag set_lastTime set_dom set_nextId set_randomCalls
       set_position_x set_position_z withPool fst snd] in *.

Section Loop.

Variable rand : nat -> Q.

Definition createPlayer (w : World) : World :=
  let (m, w1) := newMesh 0 1 5 w in set_player (Some m) w1.

Definition createWorld (w : World) : World :=
  let w1 := set_obstacles [] (set_slideSegments [] w) in
  let w2 := createSegments rand SEGMENT_COUNT 0 w1 in
  match player w2 with
  | None => createPlayer w2
  | Some p => set_player (Some (mkMesh (id p) 0 1 5)) w2
  end.

Definition resetGame (w : World) : World :=
  let w1 := set_score 0 w in
  let w2 := set_elapsedSinceStart 0 w1 in
  let w3 := set_forwardSpeed baseForwardSpeed w2 in
  let w4 := set_lane 1 (laneX 1) w3 in
  let w5 := createWorld w4 in
  let w6 := match player w5 with
            | Some p => set_player (Some (mkMesh (id p) (targetLaneX w5) 1 5)) w5
            | None => w5
            end in
  updateHud w6.

Definition startGame (w : World) : World :=
  let w1 := set_gameState PLAYING (resetGame w) in
  set_dom (mkDom (scoreEl (dom w1)) (highScoreEl (dom w1)) false
                 (overlayText (dom w1))) w1.

Definition handleTap (w : World) : World :=
  match gameState w with
  | READY | GAME_OVER => startGame w
  | PLAYING => w
  end.

Definition onPointerDown (clientX : Q) (w : World) : World :=
  match gameState w with
  | PLAYING => set_drag true clientX clientX w
  | _ => handleTap w
  end.

(** Body of [slideSegments.forEach] for one segment. *)
Definition updateSegment (delta : Q) (seg : Mesh) (w : World) : Mesh * World :=
  let seg1 := set_position_z (position_z seg + forwardSpeed w * delta) seg in
  if Qlt_le_dec (camera_position_z + 5) (position_z seg1 - SEGMENT_LENGTH / 2)
  then
    let seg2 := set_position_z
                  (position_z seg1
                   - SEGMENT_LENGTH * inject_Z (Z.of_nat SEGMENT_COUNT)) seg1 in
    let (r, w1) := Math_random rand w in
    let seg3 := set_position_x ((r - (1#2)) * 1) seg2 in
    (seg3, spawnObstacleOnSegment rand seg3 w1)
  else (seg1, w).

Fixpoint updateSegments (delta : Q) (segs : list Mesh) (w : World)
  : list Mesh * World :=
  match segs with
  | [] => ([], w)
  | seg :: rest =>
      let (seg', w1) := updateSegment delta seg w in
      let (rest', w2) := updateSegments delta rest w1 in
      (seg' :: rest', w2)
  end.

Definition updateGame (delta : Q) (w : World) : World :=
  match gameState w with
  | PLAYING =>
      let w1 := set_elapsedSinceStart (elapsedSinceStart w + delta) w in
      let w2 := set_forwardSpeed
                  (baseForwardSpeed + elapsedSinceStart w1 * (1#2)) w1 in
      let w3 := set_score (score w2 + delta * 10) w2 in
      let w4 := updateHud w3 in
      let w5 := movePlayer delta w4 in
      let (segs, w6) := updateSegments delta (slideSegments w5) w5 in
      let w7 := set_slideSegments segs w6 in
      let w8 := moveObstacles delta w7 in
      checkCollisions w8
  | _ => w
  end.

Definition animate (time : Q) (w : World) : World :=
  let delta := frameDelta time w in
  let w1 := set_lastTime time w in
  match gameState w1 with
  | PLAYING => updateGame delta w1
  | _ => w1
  end.

(** State after [highScore = loadHighScore(); updateHud();
    createWorld();], [loaded] being what [loadHighScore()] read. *)
Definition initialWorld (loaded : Q) : World :=
  createWorld (updateHud (set_highScore loaded moduleInit)).

Definition handle (e : Event) (w : World) : World :=
  match e with
  | Frame time => animate time w
  | PointerDown clientX => onPointerDown clientX w
  | PointerMove clientX => onPointerMove clientX w
  | PointerUp => onPointerUp w
  | OverlayTap => handleTap w
  end.

Inductive reachable (loaded : Q) : World -> Prop :=
| reach_init : reachable loaded (initialWorld loaded)
| reach_step e w :
    reachable loaded w -> admissible e w -> reachable loaded (handle e w).

Definition run (es : list Event) (w : World) : World :=
  fold_left (fun w e => handle e w) es w.

(** ** Properties of the gated game *)

Lemma gated_createWorld_shape w :
  exists pl segs obs k r,
    createWorld w =
      set_player (Some pl) (set_slideSegments segs (withPool obs k r w)) /\
    position_x pl = 0 /\ position_y pl = 1 /\ position_z pl = 5.
Proof.
  unfold createWorld. cbv zeta.
  match goal with
  | |- context [createSegments rand ?n ?j ?v] =>
      destruct (createSegments_pool rand n j v) as (segs & o & k & r & E);
      rewrite E
  end.
  simpl_gated.
  destruct (player w) as [p|]; unfold createPlayer, newMesh; simpl_gated.
  - exists (mkMesh (id p) 0 1 5), segs, o, k, r.
    split; [reflexivity | repeat split; reflexivity].
  - exists (mkMesh k 0 1 5), segs, o, (S k), r.
    split; [reflexivity | repeat split; reflexivity].
Qed.

Lemma gated_resetGame_fields w :
  gameState (resetGame w) = gameState w /\ score (resetGame w) = 0 /\
  highScore (resetGame w) = highScore w /\
  currentLaneIndex (resetGame w) = 1%Z /\ targetLaneX (resetGame w) = laneX 1 /\
  isDragging (resetGame w) = isDragging w /\
  dragStartX (resetGame w) = dragStartX w /\
  dragCurrentX (resetGame w) = dragCurrentX w /\
  exists pl, player (resetGame w) = Some pl /\
    position_x pl = laneX 1 /\ position_y pl = 1 /\ position_z pl = 5.
Proof.
  unfold resetGame. cbv zeta.
  match goal with
  | |- context [createWorld ?v] =>
      destruct (gated_createWorld_shape v) as (pl & segs & o & k & r & E & Hpl);
      rewrite E
  end.
  unfold updateHud, withPool. simpl_gated.
  repeat split; try reflexivity.
  eexists. split; [reflexivity|]. simpl_gated. repeat split; reflexivity.
Qed.

Lemma gated_startGame_fields w :
  gameState (startGame w) = PLAYING /\ score (startGame w) = 0 /\
  highScore (startGame w) = highScore w /\
  currentLaneIndex (startGame w) = 1%Z /\ targetLaneX (startGame w) = laneX 1 /\
  isDragging (startGame w) = isDragging w /\
  dragStartX (startGame w) = dragStartX w /\
  dragCurrentX (startGame w) = dragCurrentX w /\
  exists pl, player (startGame w) = Some pl /\
    position_x pl = laneX 1 /\ position_y pl = 1 /\ position_z pl = 5.
Proof.
  unfold startGame. cbv zeta.
  destruct (gated_resetGame_fields w)
    as (_ & Es & Eh & Ei & Et & Ed & Ea & Eb & Hpl).
  generalize dependent (resetGame w). intros v Es Eh Ei Et Ed Ea Eb Hpl.
  simpl_gated. repeat split; assumption.
Qed.

Lemma gated_run_moves xs : forall w,
  isDragging w = false -> run (map PointerMove xs) w = w.
Proof.
  induction xs as [|x xs IH]; intros w Hd; [reflexivity|].
  change (run (map PointerMove (x :: xs)) w)
    with (run (map PointerMove xs) (onPointerMove x w)).
  unfold onPointerMove. rewrite Hd. simpl negb. cbv iota.
  apply IH. exact Hd.
Qed.

Lemma gated_run_app es1 es2 w : run (es1 ++ es2) w = run es2 (run es1 w).
Proof. unfold run. apply fold_left_app. Qed.

(** X26.  In the gated game a press on the canvas begins a drag only
    during PLAYING.  Outside PLAYING it is a tap: it starts a game and
    leaves the drag variables alone, so a whole gesture made with no
    drag pending, whatever its moves, leaves the new game on the
    centre lane. *)
Theorem press_outside_play_is_a_tap (x0 : Q) (xs : list Q) (w : World) :
  (gameState w = PLAYING -> onPointerDown x0 w = set_drag true x0 x0 w) /\
  (gameState w <> PLAYING ->
     onPointerDown x0 w = startGame w /\
     isDragging (onPointerDown x0 w) = isDragging w /\
     dragStartX (onPointerDown x0 w) = dragStartX w) /\
  (gameState w <> PLAYING -> isDragging w = false ->
     run (gesture x0 xs) w = startGame w /\
     gameState (run (gesture x0 xs) w) = PLAYING /\
     currentLaneIndex (run (gesture x0 xs) w) = 1%Z /\
     targetLaneX (run (gesture x0 xs) w) = 0).
Proof.
  assert (Htap : gameState w <> PLAYING -> onPointerDown x0 w = startGame w).
  { intros HP. unfold onPointerDown, handleTap.
    destruct (gameState w); congruence. }
  destruct (gated_startGame_fields w)
    as (Eg & _ & _ & Ei & Et & Ed & Ea & _).
  split; [|split].
  - intros HP. unfold onPointerDown. rewrite HP. reflexivity.
  - intros HP. rewrite (Htap HP). repeat split; assumption.
  - intros HP Hd.
    assert (E : run (gesture x0 xs) w = startGame w).
    { unfold gesture.
      change (run (PointerDown x0 :: map PointerMove xs ++ [PointerUp]) w)
        with (run (map PointerMove xs ++ [PointerUp]) (onPointerDown x0 w)).
      rewrite (Htap HP), gated_run_app.
      assert (Hdv : isDragging (startGame w) = false)
        by (rewrite Ed; exact Hd).
      revert Hdv. generalize (startGame w). intros v Hdv.
      rewrite (gated_run_moves xs v Hdv).
      change (run [PointerUp] v) with (onPointerUp v).
      unfold onPointerUp. rewrite Hdv. reflexivity. }
    rewrite E. repeat split; assumption.
Qed.

Lemma gated_updateSegment_pool delta seg w :
  exists obs n r, snd (updateSegment delta seg w) = withPool obs n r w.
Proof.
  unfold updateSegment.
  destruct (Qlt_le_dec _ _).
  - unfold Math_random. cbv beta iota zeta. unfold snd at 1.
    match goal with
    | |- context [spawnObstacleOnSegment rand ?s ?v] =>
        destruct (spawnObstacleOnSegment_pool rand s v) as (obs & n & r & E);
        rewrite E
    end.
    do 3 eexists. unfold withPool; simpl; reflexivity.
  - exists (obstacles w), (nextId w), (randomCalls w).
    destruct w; reflexivity.
Qed.

Lemma gated_updateSegments_pool delta segs : forall w,
  exists obs n r, snd (updateSegments delta segs w) = withPool obs n r w.
Proof.
  induction segs as [|seg rest IH]; intros w; simpl.
  - exists (obstacles w), (nextId w), (randomCalls w). destruct w; reflexivity.
  - destruct (gated_updateSegment_pool delta seg w) as (o1 & n1 & r1 & E1).
    destruct (updateSegment delta seg w) as [seg' w1]. simpl in E1. subst w1.
    destruct (IH (withPool o1 n1 r1 w)) as (o2 & n2 & r2 & E2).
    destruct (updateSegments delta rest (withPool o1 n1 r1 w)) as [rest' w2].
    simpl in *. subst w2. exists o2, n2, r2. reflexivity.
Qed.

(** The world just before [checkCollisions()] runs inside [updateGame]. *)
Definition beforeCollisions (delta : Q) (w : World) : World :=
  let w1 := set_elapsedSinceStart (elapsedSinceStart w + delta) w in
  let w2 := set_forwardSpeed
              (baseForwardSpeed + elapsedSinceStart w1 * (1#2)) w1 in
  let w3 := set_score (score w2 + delta * 10) w2 in
  let w4 := updateHud w3 in
  let w5 := movePlayer delta w4 in
  let (segs, w6) := updateSegments delta (slideSegments w5) w5 in
  let w7 := set_slideSegments segs w6 in
  moveObstacles delta w7.

Lemma gated_updateGame_eq delta w :
  gameState w = PLAYING ->
  updateGame delta w = checkCollisions (beforeCollisions delta w).
Proof.
  intros HP. unfold updateGame, beforeCollisions. rewrite HP.
  destruct (updateSegments delta _ _); reflexivity.
Qed.

Lemma gated_beforeCollisions_fields delta w :
  gameState (beforeCollisions delta w) = gameState w /\
  currentLaneIndex (beforeCollisions delta w) = currentLaneIndex w /\
  targetLaneX (beforeCollisions delta w) = targetLaneX w /\
  player (beforeCollisions delta w) = player (movePlayer delta w).
Proof.
  unfold beforeCollisions.
  match goal with
  | |- context [updateSegments ?d ?l ?v] =>
      destruct (gated_updateSegments_pool d l v) as (obs & n & r & E);
      destruct (updateSegments d l v) as [segs w6]
  end.
  simpl in E. subst w6. cbv zeta.
  unfold moveObstacles, movePlayer, updateHud, withPool. simpl_gated.
  destruct (player w); simpl_gated; repeat split; reflexivity.
Qed.

Lemma gated_gameState_checkCollisions v :
  gameState v = PLAYING -> gameState (checkCollisions v) <> READY.
Proof.
  intros HP. destruct (checkCollisions_cases v) as [E | [obs E]]; rewrite E.
  - destruct (triggerGameOver_fields v) as (Eg & _). rewrite Eg. discriminate.
  - simpl_gated. rewrite HP. discriminate.
Qed.

(** The lane is one of the three, the player stands at height 1 and
    depth 5 between the outer lanes, and while the page is READY
    nothing has been touched. *)
Definition pristine (w : World) : Prop :=
  lane_ok w /\
  (exists p, player w = Some p /\ position_y p = 1 /\ position_z p = 5 /\
             -(3#2) <= position_x p <= 3#2) /\
  (gameState w = READY ->
   currentLaneIndex w = 1%Z /\ isDragging w = false /\ score w = 0).

Lemma pristine_startGame w : pristine (startGame w).
Proof.
  destruct (gated_startGame_fields w)
    as (Eg & _ & _ & Ei & Et & _ & _ & _ & (pl & Hp & Hx & Hy & Hz)).
  unfold pristine, lane_ok. rewrite Eg, Ei, Et. split; [|split].
  - split; [lia | reflexivity].
  - exists pl. rewrite Hx. repeat split; try assumption; vm_compute; discriminate.
  - discriminate.
Qed.

Lemma pristine_updateGame delta w :
  0 <= delta -> gameState w = PLAYING -> pristine w ->
  pristine (updateGame delta w).
Proof.
  intros Hd HP ([Hi Ht] & (p & Hp & Hy & Hz & Hx) & _).
  rewrite (gated_updateGame_eq delta w HP).
  destruct (gated_beforeCollisions_fields delta w) as (Eg & Ei & Et & Epl).
  destruct (checkCollisions_fields (beforeCollisions delta w))
    as (_ & _ & _ & Epl' & _ & Ei' & Et' & _).
  assert (Hg : gameState (checkCollisions (beforeCollisions delta w)) <> READY).
  { apply gated_gameState_checkCollisions. rewrite Eg. exact HP. }
  unfold pristine, lane_ok. rewrite Ei', Et', Epl', Ei, Et, Epl.
  split; [split; assumption|]. split; [|intros Hc; contradiction].
  unfold movePlayer. rewrite Hp.
  eexists. split; [reflexivity|]. simpl_gated.
  split; [exact Hy|]. split; [exact Hz|].
  pose proof (laneX_bounds _ Hi) as Hb. rewrite <- Ht in Hb.
  destruct (lerpX_between delta (targetLaneX w) (position_x p) Hd) as [[B|B] _];
    lra.
Qed.

Lemma pristine_initial loaded : pristine (initialWorld loaded).
Proof.
  unfold initialWorld.
  match goal with
  | |- context [createWorld ?v] =>
      destruct (gated_createWorld_shape v) as (pl & segs & o & k & r & E & Hpl);
      rewrite E
  end.
  destruct Hpl as (Hx & Hy & Hz).
  unfold pristine, lane_ok, updateHud, withPool, moduleInit. simpl_gated.
  split; [split; [lia | reflexivity]|]. split.
  - exists pl. rewrite Hx. repeat split; try assumption; vm_compute; discriminate.
  - intros _. repeat split; reflexivity.
Qed.

Lemma pristine_step e w :
  admissible e w -> pristine w -> pristine (handle e w).
Proof.
  intros Ha Hok. pose proof Hok as ([Hi Ht] & Hpl & Hr).
  destruct e; simpl handle.
  - simpl in Ha. unfold animate. cbv zeta. simpl_gated.
    destruct (gameState w) eqn:Eg.
    + unfold pristine, lane_ok. simpl_gated. rewrite Eg.
      split; [split; assumption|]. split; [exact Hpl|]. intros _. apply Hr.
      reflexivity.
    + apply pristine_updateGame.
      * apply (frameDelta_nonneg time w Ha).
      * simpl_gated. exact Eg.
      * unfold pristine, lane_ok. simpl_gated. rewrite Eg.
        split; [split; assumption|]. split; [exact Hpl|]. discriminate.
    + unfold pristine, lane_ok. simpl_gated. rewrite Eg.
      split; [split; assumption|]. split; [exact Hpl|]. discriminate.
  - unfold onPointerDown, handleTap. destruct (gameState w) eqn:Eg.
    + apply pristine_startGame.
    + unfold pristine, lane_ok. simpl_gated. rewrite Eg.
      split; [split; assumption|]. split; [exact Hpl|]. discriminate.
    + apply pristine_startGame.
  - unfold onPointerMove. destruct (isDragging w) eqn:Ed; simpl negb; cbv iota.
    + unfold pristine, lane_ok. simpl_gated.
      split; [split; assumption|]. split; [exact Hpl|].
      intros Hc. destruct (Hr Hc) as (_ & Hf & _). congruence.
    + exact Hok.
  - unfold onPointerUp. destruct (isDragging w) eqn:Ed; simpl negb; cbv iota;
      [|exact Hok].
    cbv zeta. unfold setLane.
    destruct (Qlt_le_dec _ _); [|destruct (Qlt_le_dec _ _)];
      unfold pristine, lane_ok; simpl_gated;
      (split; [split; [try apply clampLane_range; try assumption
                      | try reflexivity; try assumption]|]);
      (split; [exact Hpl|]);
      intros Hc; destruct (Hr Hc) as (_ & Hf & _); congruence.
  - unfold handleTap. destruct (gameState w) eqn:Eg.
    + apply pristine_startGame.
    + exact Hok.
    + apply pristine_startGame.
Qed.

(** X27.  In every reachable state of the gated game the lane index is
    0, 1 or 2 with the target X that of the lane, and the player
    stands at height 1 and depth 5 with its x between the outer lanes.
    While the page is still READY nothing has been touched: the lane
    is the centre one, no drag is pending and the score is 0. *)
Theorem gated_ready_state_is_pristine (loaded : Q) (w : World) :
  reachable loaded w ->
  (0 <= currentLaneIndex w <= 2)%Z /\
  targetLaneX w = laneX (currentLaneIndex w) /\
  (exists p, player w = Some p /\ position_y p = 1 /\ position_z p = 5 /\
             -(3#2) <= position_x p <= 3#2) /\
  (gameState w = READY ->
   currentLaneIndex w = 1%Z /\ isDragging w = false /\ score w = 0).
Proof.
  intros Hr.
  assert (Hok : pristine w).
  { induction Hr as [| e w Hr IH Ha]; [apply pristine_initial|].
    apply pristine_step; assumption. }
  destruct Hok as ([Hi Ht] & Hpl & Hready).
  split; [exact Hi|]. split; [exact Ht|]. split; [exact Hpl | exact Hready].
Qed.

End Loop.

(** ** A session of the gated game *)

Lemma press_outside_play_is_a_tap_witness :
  onPointerDown quiet 0 (initialWorld quiet 7) = startGame quiet (initialWorld quiet 7) /\
  currentLaneIndex (run quiet (gesture 0 [30#1; 100#1]) (initialWorld quiet 7)) = 1%Z /\
  onPointerDown quiet 3 (startGame quiet (initialWorld quiet 7)) =
    set_drag true 3 3 (startGame quiet (initialWorld quiet 7)).
Proof.
  destruct (press_outside_play_is_a_tap quiet 0 [30#1; 100#1]
              (initialWorld quiet 7)) as (_ & H2 & H3).
  destruct H2 as (E & _ & _); [vm_compute; discriminate|].
  destruct H3 as (_ & _ & Ei & _);
    [vm_compute; discriminate | vm_compute; reflexivity |].
  split; [exact E|]. split; [exact Ei|].
  destruct (press_outside_play_is_a_tap quiet 3 []
              (startGame quiet (initialWorld quiet 7))) as (H1 & _).
  apply H1. vm_compute. reflexivity.
Defined.

Lemma gated_ready_state_is_pristine_witness :
  currentLaneIndex (run quiet swipeRight (initialWorld quiet 7)) = 1%Z /\
  exists p, player (handle quiet (PointerMove 50) (initialWorld quiet 7)) = Some p /\
            position_y p = 1 /\ position_z p = 5 /\
            -(3#2) <= position_x p <= 3#2.
Proof.
  split; [vm_compute; reflexivity|].
  destruct (gated_ready_state_is_pristine quiet 7
              (handle quiet (PointerMove 50) (initialWorld quiet 7)))
    as (_ & _ & Hpl & _).
  - apply reach_step; [apply reach_init | exact I].
  - exact Hpl.
Defined.

End Gated.

(** * The arithmetic in binary64

    Everything above reads a JavaScript number as an exact rational.
    The program computes in IEEE binary64, where every operation
    rounds.  Comparisons against thresholds and the control flow are
    the same in both readings; exact equalities between accumulated
    quantities are not.  This module repeats, operation for operation,
    the arithmetic of [animate] and [updateGame] on the clock, the
    score and the segment positions, and the lane step of the player,
    on primitive binary64 numbers. *)

Module Binary64.

Import PrimFloat FloatOps SpecFloat.

(** The exact value of a finite double. *)
Definition toQ (f : float) : option Q :=
  match Prim2SF f with
  | S754_zero _ => Some 0
  | S754_finite s m e =>
      Some ((if s then -(1) else 1) * inject_Z (Zpos m) * Qpower 2 e)
  | _ => None
  end.

Local Open Scope float_scope.

(** [Math.min] on two numbers, neither of them NaN. *)
Definition Math_min (a b : float) : float := if b <? a then b else a.

Definition baseForwardSpeed : float := 10.
Definition SEGMENT_LENGTH : float := 20.
Definition SEGMENT_COUNT : float := 8.
Definition LERP_FACTOR : float := 10.
Definition camera_position_z : float := 8.

(** The literal [0.05]: the double nearest to it. *)
Definition MAX_DELTA : float := 0x1.999999999999ap-5.

(** [player.position.x += (targetLaneX - player.position.x) *
    Math.min(LERP_FACTOR * delta, 1)]. *)
Definition lerpX (delta target x : float) : float :=
  x + (target - x) * Math_min (LERP_FACTOR * delta) 1.

(** The numbers a tick accumulates: the clock, the speed, the score
    and the z of the eight segments. *)
Record Motion := mkMotion {
  elapsedSinceStart : float;
  forwardSpeed : float;
  score : float;
  lastTime : float;
  segmentZ : list float
}.

(** Body of [slideSegments.forEach] on the z of one segment, [d] being
    [forwardSpeed * delta]. *)
Definition advanceZ (d z : float) : float :=
  let z1 := z + d in
  if camera_position_z + 5 <? z1 - SEGMENT_LENGTH / 2
  then z1 - SEGMENT_LENGTH * SEGMENT_COUNT
  else z1.

Definition updateGame (delta : float) (m : Motion) : Motion :=
  let elapsed := elapsedSinceStart m + delta in
  let speed := baseForwardSpeed + elapsed * 0.5 in
  mkMotion elapsed speed (score m + delta * 10) (lastTime m)
           (map (advanceZ (speed * delta)) (segmentZ m)).

(** A frame of a game in progress. *)
Definition animate (time : float) (m : Motion) : Motion :=
  let delta := Math_min ((time - lastTime m) / 1000) MAX_DELTA in
  updateGame delta
    (mkMotion (elapsedSinceStart m) (forwardSpeed m) (score m) time
              (segmentZ m)).

(** The numbers as [startGame] leaves them, the last frame before the
    tap having come at time 0: segment [i] at [-i * SEGMENT_LENGTH]. *)
Definition started : Motion :=
  mkMotion 0 baseForwardSpeed 0 0
           (map (fun i => - i * SEGMENT_LENGTH) [0; 1; 2; 3; 4; 5; 6; 7]).

Definition run (times : list float) (m : Motion) : Motion :=
  fold_left (fun m time => animate time m) times m.

(** Ten frames, 50 ms apart. *)
Definition tenFrames : list float :=
  [50; 100; 150; 200; 250; 300; 350; 400; 450; 500].



End Binary64.
